(** * Point-cloud viewer: octree addressing, point codec, LOD store,
      brush queries and the delete/undo/redo history.

    A shallow embedding of [static/js/point-cloud-viewer.js] and
    [static/js/edit/selection-manager.js].

    Numbers.  A JavaScript number is modelled by [num]: an exact rational or
    one of the three special values.  The arithmetic of [num] is exact: the
    rounding and the overflow of IEEE doubles are not in it, and the two
    zeros are identified.  What a [Float32Array] holds is rounded to single
    precision ([toFloat32]).  Where rounding decides a property, the
    functions concerned are given a second time over IEEE doubles, Rocq's
    primitive binary64 numbers, in the module [Double].

    Strings are [string]s of 8-bit characters, maps and sets are stdpp's
    [gmap] and [gset] (no property below depends on iteration order), typed
    arrays are lists read and written by index.

    Objects.  The [THREE.Points] object of a node is shared by the scene, by
    [viewer.potreeNodes] and by the lists [getLoadedNodes] returns; the
    model keeps each object once, in [potreeNodes], and the scene refers to
    it by node name.  The methods of the selection manager see the viewer
    through [getLoadedNodes] only, and for them [potreeNodes] stands for
    that list: the objects of the viewer's own loader under their node
    names, or, in upload mode ([uploadMode]), the uploaded cloud alone under
    the name [currentPointCloud].  The scene graph of the Potree library is
    not modelled.

    Asynchrony.  [loadPotreeNodeIfExists] is taken as one step that receives
    the answer of the server; loads started together are run one after the
    other.  Logging, the DOM and the rendering calls are left out. *)

From Stdlib Require Import Floats.
From Stdlib Require Import QArith Qround Lqa ZArith String Ascii List Lia.
From Stdlib Require Strings.Byte.
From stdpp Require Import gmap strings list fin_maps.

Set Warnings "-clear-no-such-hyp".

Local Open Scope Z_scope.

(* ------------------------------------------------------------------ *)
(** ** JavaScript numbers *)

Module JS.

Inductive num : Type :=
| Finite (q : Q)
| PosInf
| NegInf
| NaN.

Definition ofZ (z : Z) : num := Finite (inject_Z z).

Definition is_finite (x : num) : bool :=
  match x with Finite _ => true | _ => false end.

Definition neg (x : num) : num :=
  match x with
  | Finite q => Finite (- q)%Q
  | PosInf => NegInf
  | NegInf => PosInf
  | NaN => NaN
  end.

Definition add (x y : num) : num :=
  match x, y with
  | NaN, _ | _, NaN => NaN
  | Finite a, Finite b => Finite (a + b)%Q
  | PosInf, NegInf | NegInf, PosInf => NaN
  | PosInf, _ | _, PosInf => PosInf
  | NegInf, _ | _, NegInf => NegInf
  end.

Definition sub (x y : num) : num := add x (neg y).

(** Sign of a number, used for the products with an infinity. *)
Definition sgn (x : num) : option comparison :=
  match x with
  | Finite q => Some (Qcompare q 0)
  | PosInf => Some Gt
  | NegInf => Some Lt
  | NaN => None
  end.

Definition mul (x y : num) : num :=
  match x, y with
  | Finite a, Finite b => Finite (a * b)%Q
  | _, _ =>
      match sgn x, sgn y with
      | Some Gt, Some Gt | Some Lt, Some Lt => PosInf
      | Some Gt, Some Lt | Some Lt, Some Gt => NegInf
      | _, _ => NaN
      end
  end.

Definition inv (y : num) : num :=
  match y with
  | Finite b => if Qeq_bool b 0 then PosInf else Finite (/ b)%Q
  | PosInf | NegInf => Finite 0
  | NaN => NaN
  end.

Definition div (x y : num) : num := mul x (inv y).

(** [x <= y], [x < y], [x > y]: false as soon as one side is [NaN]. *)
Definition le (x y : num) : bool :=
  match x, y with
  | NaN, _ | _, NaN => false
  | Finite a, Finite b => Qle_bool a b
  | NegInf, _ | _, PosInf => true
  | _, _ => false
  end.

Definition lt (x y : num) : bool :=
  match x, y with
  | NaN, _ | _, NaN => false
  | Finite a, Finite b => negb (Qle_bool b a)
  | PosInf, _ | _, NegInf => false
  | _, _ => true
  end.

Definition gt (x y : num) : bool := lt y x.

(** [Math.max] and [Math.min]. *)
Definition Math_max (x y : num) : num :=
  match x, y with
  | NaN, _ | _, NaN => NaN
  | _, _ => if le x y then y else x
  end.

Definition Math_min (x y : num) : num :=
  match x, y with
  | NaN, _ | _, NaN => NaN
  | _, _ => if le x y then x else y
  end.

(** [ToInt32]: the operand conversion of the bitwise operators. *)
Definition to_int32 (x : num) : Z :=
  match x with
  | Finite q =>
      let t := Z.quot (Qnum q) (Zpos (Qden q)) in
      (t + 2 ^ 31) mod 2 ^ 32 - 2 ^ 31
  | _ => 0
  end.

(** [x & m] for an integer literal [m]. *)
Definition bitand (x : num) (m : Z) : Z := Z.land (to_int32 x) m.

(** Truthiness of an int32 used as a condition. *)
Definition truthy (z : Z) : bool := negb (z =? 0).

(** [parseInt] of a one-character string: a decimal digit or [NaN]. *)
Definition parseInt (c : ascii) : num :=
  let n := Z.of_nat (nat_of_ascii c) in
  if (48 <=? n) && (n <=? 57) then ofZ (n - 48) else NaN.

(** *** Single precision

    The conversion of a number to an element of a [Float32Array]: the
    nearest number of the form [m * 2^E] with [|m| < 2^24] and
    [E >= -149], ties going to the even [m], and an infinity from
    [2^128] on. *)

(** The integer nearest to [n / d], the even one in case of a tie. *)
Definition round_half_even (n : Z) (d : positive) : Z :=
  let q := n / Zpos d in
  let r := n mod Zpos d in
  match 2 * r ?= Zpos d with
  | Lt => q
  | Gt => q + 1
  | Eq => if Z.even q then q else q + 1
  end.

(** The exponent [e] with [2^e <= n / d < 2^(e+1)], for [n > 0]. *)
Definition floor_log2 (n : Z) (d : positive) : Z :=
  let k := Z.log2 n - Z.log2 (Zpos d) in
  if Zpos d * 2 ^ Z.max k 0 <=? n * 2 ^ Z.max (- k) 0 then k else k - 1.

(** [q * 2^k]. *)
Definition scale2 (q : Q) (k : Z) : Q :=
  match k with
  | Z0 => q
  | Zpos p => (Qnum q * 2 ^ k # Qden q)
  | Zneg p => (Qnum q # Qden q * 2 ^ p)
  end.

(** The nearest single-precision number, the exponent being unbounded
    above. *)
Definition nearest32 (q : Q) : Q :=
  let n := Z.abs (Qnum q) in
  if n =? 0 then q
  else
    let e := floor_log2 n (Qden q) in
    let E := Z.max (e - 23) (-149) in
    let s := scale2 (n # Qden q) (- E) in
    let m := round_half_even (Qnum s) (Qden s) in
    scale2 (inject_Z (Z.sgn (Qnum q) * m)) E.

(** A number that single precision holds is kept as it is. *)
Definition toFloat32 (x : num) : num :=
  match x with
  | Finite q =>
      let r := nearest32 q in
      if Qle_bool (inject_Z (2 ^ 128)) r then PosInf
      else if Qle_bool r (inject_Z (- 2 ^ 128)) then NegInf
      else if Qeq_bool r q then x
      else Finite r
  | _ => x
  end.

(** [new Float32Array(array)]. *)
Definition Float32Array (array : list num) : list num :=
  map toFloat32 array.

(** Numbers up to the value of their rational. *)
Definition eqv (x y : num) : Prop :=
  match x, y with
  | Finite a, Finite b => (a == b)%Q
  | PosInf, PosInf | NegInf, NegInf | NaN, NaN => True
  | _, _ => False
  end.

(** What a JavaScript call gives: a value, or an exception. *)
Inductive exn : Type := TypeError | RangeError | NetworkError.

Inductive completion (A : Type) : Type :=
| Normal (a : A)
| Throw (e : exn).
Arguments Normal {A} a.
Arguments Throw {A} e.

Definition bind {A B} (c : completion A) (k : A -> completion B)
  : completion B :=
  match c with
  | Normal a => k a
  | Throw e => Throw e
  end.

End JS.

Import JS.

Notation "'let!' x ':=' c 'in' k" := (bind c (fun x => k))
  (at level 10, x pattern, c at level 100, k at level 200).

Declare Scope num_scope.
Delimit Scope num_scope with num.
Infix "+" := add : num_scope.
Infix "-" := sub : num_scope.
Infix "*" := mul : num_scope.
Infix "/" := div : num_scope.

(* ------------------------------------------------------------------ *)
(** ** Octree addressing ([getNodeBoundingBox] of the viewer) *)

Record bbox : Type := BBox {
  lx : num; ly : num; lz : num;
  ux : num; uy : num; uz : num
}.

Record metadata : Type := Metadata {
  boundingBox : bbox;
  scale : num;
  spacing : num
}.

(** One round of the loop of [getNodeBoundingBox]: [c] is
    [octantPath[i]]. *)
Definition subdivide (b : bbox) (c : ascii) : bbox :=
  let octant := parseInt c in
  let midX := ((lx b + ux b) / ofZ 2)%num in
  let midY := ((ly b + uy b) / ofZ 2)%num in
  let midZ := ((lz b + uz b) / ofZ 2)%num in
  let b1 :=
    if truthy (bitand octant 1)
    then BBox midX (ly b) (lz b) (ux b) (uy b) (uz b)
    else BBox (lx b) (ly b) (lz b) midX (uy b) (uz b) in
  let b2 :=
    if truthy (bitand octant 2)
    then BBox (lx b1) midY (lz b1) (ux b1) (uy b1) (uz b1)
    else BBox (lx b1) (ly b1) (lz b1) (ux b1) midY (uz b1) in
  if truthy (bitand octant 4)
  then BBox (lx b2) (ly b2) midZ (ux b2) (uy b2) (uz b2)
  else BBox (lx b2) (ly b2) (lz b2) (ux b2) (uy b2) midZ.

(** [s.substring(1)]. *)
Definition substring1 (s : string) : string :=
  match s with
  | EmptyString => EmptyString
  | String _ rest => rest
  end.

(** [getNodeBoundingBox(nodeName)]; the first argument is
    [this.potreeMetadata], whose absence makes the property access throw. *)
Definition getNodeBoundingBox (potreeMetadata : option metadata)
    (nodeName : string) : completion bbox :=
  match potreeMetadata with
  | None => Throw TypeError
  | Some md =>
      let rootBbox := boundingBox md in
      if String.eqb nodeName "r" then
        Normal (BBox (lx rootBbox) (ly rootBbox) (lz rootBbox)
                     (ux rootBbox) (uy rootBbox) (uz rootBbox))
      else
        let octantPath := substring1 nodeName in
        Normal (fold_left subdivide (list_ascii_of_string octantPath)
                  (BBox (lx rootBbox) (ly rootBbox) (lz rootBbox)
                        (ux rootBbox) (uy rootBbox) (uz rootBbox)))
  end.

(** *** The addressing rule in the words of the specification *)

(** Midpoint of an interval. *)
Definition midpoint (lo hi : num) : num := ((lo + hi) / ofZ 2)%num.

(** Keep the upper half when the bit is set, the lower half otherwise. *)
Definition keep_half (upper : bool) (lo hi : num) : num * num :=
  if upper then (midpoint lo hi, hi) else (lo, midpoint lo hi).

Definition halve (b : bbox) (o : Z) : bbox :=
  let '(x0, x1) := keep_half (Z.testbit o 0) (lx b) (ux b) in
  let '(y0, y1) := keep_half (Z.testbit o 1) (ly b) (uy b) in
  let '(z0, z1) := keep_half (Z.testbit o 2) (lz b) (uz b) in
  BBox x0 y0 z0 x1 y1 z1.

Fixpoint boundsOf (path : list Z) (rootBox : bbox) : bbox :=
  match path with
  | [] => rootBox
  | o :: rest => boundsOf rest (halve rootBox o)
  end.

(** The name of the node with a given path: the root marker, then one
    decimal digit per level. *)
Definition digit_char (o : Z) : ascii := ascii_of_nat (Z.to_nat (48 + o)).

Definition nodeNameOf (path : list Z) : string :=
  String "r" (string_of_list_ascii (map digit_char path)).

Definition bbox_eqv (a b : bbox) : Prop :=
  eqv (lx a) (lx b) /\ eqv (ly a) (ly b) /\ eqv (lz a) (lz b) /\
  eqv (ux a) (ux b) /\ eqv (uy a) (uy b) /\ eqv (uz a) (uz b).

Definition cube (lo hi : Z) : bbox :=
  BBox (ofZ lo) (ofZ lo) (ofZ lo) (ofZ hi) (ofZ hi) (ofZ hi).

Definition box_of (x0 y0 z0 x1 y1 z1 : Z) : bbox :=
  BBox (ofZ x0) (ofZ y0) (ofZ z0) (ofZ x1) (ofZ y1) (ofZ z1).

(** The octant an arbitrary character acts as. *)
Definition effective_octant (c : ascii) : Z := Z.land (to_int32 (parseInt c)) 7.


(* ------------------------------------------------------------------ *)
(** ** Point records: the reads of a [DataView] *)

Definition byte_val (b : Byte.byte) : Z := Z.of_N (Byte.to_N b).

(** [view.getUint8(offset)]. *)
Definition getUint8 (view : list Byte.byte) (offset : nat) : completion Z :=
  match view !! offset with
  | Some b => Normal (byte_val b)
  | None => Throw RangeError
  end.

(** Four bytes, least significant first, as a two's complement number. *)
Definition int32_le (b0 b1 b2 b3 : Z) : Z :=
  let u := Z.lor b0 (Z.lor (Z.shiftl b1 8)
                       (Z.lor (Z.shiftl b2 16) (Z.shiftl b3 24))) in
  if u <? 2 ^ 31 then u else u - 2 ^ 32.

(** [view.getInt32(offset, true)]. *)
Definition getInt32 (view : list Byte.byte) (offset : nat) : completion Z :=
  match view !! offset, view !! (offset + 1)%nat,
        view !! (offset + 2)%nat, view !! (offset + 3)%nat with
  | Some b0, Some b1, Some b2, Some b3 =>
      Normal (int32_le (byte_val b0) (byte_val b1) (byte_val b2) (byte_val b3))
  | _, _, _, _ => Throw RangeError
  end.

(** The rounds of [for (let i = 0; i < len / d; i++)]: the division is
    the one of numbers, so a partial last group counts (see
    [loop_rounds_spec]). *)
Definition loop_rounds (len d : nat) : nat := ((len + (d - 1)) / d)%nat.

Fixpoint foldM {A B : Type} (f : A -> B -> completion A) (l : list B)
    (a : A) : completion A :=
  match l with
  | [] => Normal a
  | b :: rest => let! a' := f a b in foldM f rest a'
  end.

Record vec3 : Type := Vec3 { vx : num; vy : num; vz : num }.

(** One round of the loop "Read points" of [loadPotreeNodeIfExists]; the
    accumulator is the pair of arrays [vertices] and [colors]. *)
Definition readPoint (view : list Byte.byte) (scale : num) (box : bbox)
    (potreeOffset : option vec3) (acc : list num * list num) (i : nat)
    : completion (list num * list num) :=
  let offset := (i * 16)%nat in
  let! xi := getInt32 view offset in
  let x := (ofZ xi * scale + lx box)%num in
  let! yi := getInt32 view (offset + 4)%nat in
  let y := (ofZ yi * scale + ly box)%num in
  let! zi := getInt32 view (offset + 8)%nat in
  let z := (ofZ zi * scale + lz box)%num in
  let '(x, y, z) :=
    match potreeOffset with
    | Some o => ((x + vx o)%num, (y + vy o)%num, (z + vz o)%num)
    | None => (x, y, z)
    end in
  let! r := getUint8 view (offset + 12)%nat in
  let! g := getUint8 view (offset + 13)%nat in
  let! b := getUint8 view (offset + 14)%nat in
  Normal (fst acc ++ [x; y; z],
          snd acc ++ [(ofZ r / ofZ 255)%num; (ofZ g / ofZ 255)%num;
                      (ofZ b / ofZ 255)%num]).

(** The whole loop, for [numPoints = buffer.byteLength / 16]. *)
Definition readPoints (view : list Byte.byte) (scale : num) (box : bbox)
    (potreeOffset : option vec3) : completion (list num * list num) :=
  foldM (readPoint view scale box potreeOffset)
        (seq 0 (loop_rounds (length view) 16)) ([], []).

(* ------------------------------------------------------------------ *)
(** ** The viewer: node store and level of detail *)

(** A [THREE.Points] object made by the loader, with the [userData] the
    selection manager hangs on it. *)
Record pointsObj : Type := PointsObj {
  objName : string;
  position : list num;      (* geometry.attributes.position.array *)
  color : list num;         (* geometry.attributes.color.array *)
  visible : bool;
  originalPositions : option (list num);
  originalColors : option (list num);
  deletedPoints : option (gset nat)
}.

(** The answer of the server to the request for one node file. *)
Inductive response : Type :=
| Rejected                          (* the request itself failed *)
| NotOk                             (* [response.ok] is false *)
| Ok (buffer : list Byte.byte).

(** The fields of the viewer the node store uses.  The objects live in
    [potreeNodes]; [scene] lists, by node name, the objects added to the
    scene; [potreePointCloud] is the position of the cloud of the Potree
    library when there is one; [hasSelectionManager] tells whether
    [this.selectionManager] is set; [fetched] is the history of the requests
    issued. *)
Record Viewer : Type := MkViewer {
  potreeMetadata : option metadata;
  potreeOffset : option vec3;
  potreePointCloud : option vec3;
  potreeNodes : gmap string pointsObj;
  potreeLoadedNodes : gset string;
  potreeLoading : gset string;
  potreeFailedNodes : gset string;
  scene : list string;
  currentLODDepth : Z;
  cameraInitialized : bool;
  hasSelectionManager : bool;
  fetched : list string
}.

Definition with_nodes (f : gmap string pointsObj -> gmap string pointsObj)
    (v : Viewer) : Viewer :=
  MkViewer (potreeMetadata v) (potreeOffset v) (potreePointCloud v)
    (f (potreeNodes v)) (potreeLoadedNodes v) (potreeLoading v)
    (potreeFailedNodes v) (scene v) (currentLODDepth v)
    (cameraInitialized v) (hasSelectionManager v) (fetched v).

Definition with_depth (d : Z) (v : Viewer) : Viewer :=
  MkViewer (potreeMetadata v) (potreeOffset v) (potreePointCloud v)
    (potreeNodes v) (potreeLoadedNodes v) (potreeLoading v)
    (potreeFailedNodes v) (scene v) d
    (cameraInitialized v) (hasSelectionManager v) (fetched v).

(** [this.potreeLoading.add(nodeName)] followed by the [fetch]. *)
Definition startLoading (nodeName : string) (v : Viewer) : Viewer :=
  MkViewer (potreeMetadata v) (potreeOffset v) (potreePointCloud v)
    (potreeNodes v) (potreeLoadedNodes v) ({[nodeName]} ∪ potreeLoading v)
    (potreeFailedNodes v) (scene v) (currentLODDepth v)
    (cameraInitialized v) (hasSelectionManager v) (fetched v ++ [nodeName]).

(** [potreeLoading.delete(nodeName); potreeFailedNodes.add(nodeName)]. *)
Definition markFailed (nodeName : string) (v : Viewer) : Viewer :=
  MkViewer (potreeMetadata v) (potreeOffset v) (potreePointCloud v)
    (potreeNodes v) (potreeLoadedNodes v) (potreeLoading v ∖ {[nodeName]})
    ({[nodeName]} ∪ potreeFailedNodes v) (scene v) (currentLODDepth v)
    (cameraInitialized v) (hasSelectionManager v) (fetched v).

(** [storeOriginalPositions(node)] of the selection manager: the copies it
    makes are of typed arrays, whose elements are of single precision
    already. *)
Definition storeOriginalPositions (node : pointsObj) : pointsObj :=
  PointsObj (objName node) (position node) (color node) (visible node)
    (Some (position node)) (Some (color node)) (deletedPoints node).

(** The end of the [try] block: the object is made of
    [new Float32Array(vertices)] and [new Float32Array(colors)], added to
    the scene and tracked; of the camera placement that follows the first
    load of the root only the flag is kept. *)
Definition installNode (nodeName : string) (vertices colors : list num)
    (v : Viewer) : Viewer :=
  let pointsObj :=
    PointsObj ("potree_" ++ nodeName) (Float32Array vertices)
      (Float32Array colors) true None None None in
  let pointsObj :=
    if hasSelectionManager v then storeOriginalPositions pointsObj
    else pointsObj in
  MkViewer (potreeMetadata v) (potreeOffset v) (potreePointCloud v)
    (<[nodeName := pointsObj]> (potreeNodes v))
    ({[nodeName]} ∪ potreeLoadedNodes v) (potreeLoading v ∖ {[nodeName]})
    (potreeFailedNodes v) (scene v ++ [nodeName]) (currentLODDepth v)
    (if String.eqb nodeName "r" then true else cameraInitialized v)
    (hasSelectionManager v) (fetched v).

(** [displayPointCloud(data)]: the object the viewer makes of an uploaded
    file and keeps in [currentPointCloud].  Nothing calls
    [storeOriginalPositions] on it, whose only call is the one of
    [installNode]; a cloud without colours has the empty array. *)
Definition displayPointCloud (vertices colors : list num) : pointsObj :=
  PointsObj "" (Float32Array vertices) (Float32Array colors) true
    None None None.

(** The body of the [try] block, from the answer of the server on. *)
Definition tryLoad (answer : response) (nodeName : string) (v : Viewer)
    : completion Viewer :=
  match answer with
  | Rejected => Throw NetworkError
  | NotOk => Normal (markFailed nodeName v)
  | Ok buffer =>
      let! md := match potreeMetadata v with
                 | Some md => Normal md
                 | None => Throw TypeError
                 end in
      let! box := getNodeBoundingBox (potreeMetadata v) nodeName in
      let! arrays := readPoints buffer (scale md) box (potreeOffset v) in
      Normal (installNode nodeName (fst arrays) (snd arrays) v)
  end.

(** [loadPotreeNodeIfExists(nodeName)], taken as one step: [fetch] gives the
    answer of the server for each node name. *)
Definition loadPotreeNodeIfExists (fetch : string -> response)
    (nodeName : string) (v : Viewer) : Viewer :=
  if decide (nodeName ∈ potreeLoadedNodes v \/
             nodeName ∈ potreeLoading v \/
             nodeName ∈ potreeFailedNodes v)
  then v
  else
    let v1 := startLoading nodeName v in
    match tryLoad (fetch nodeName) nodeName v1 with
    | Normal v2 => v2
    | Throw _ => markFailed nodeName v1
    end.

(** [nodeName.length - 1]. *)
Definition depthOf (nodeName : string) : Z :=
  Z.of_nat (String.length nodeName) - 1.

Definition set_visible (shouldShow : bool) (o : pointsObj) : pointsObj :=
  PointsObj (objName o) (position o) (color o) shouldShow
    (originalPositions o) (originalColors o) (deletedPoints o).

Definition updatePotreeNodeVisibility (maxDepth : Z) (v : Viewer) : Viewer :=
  with_nodes
    (map_imap (fun nodeName pointsObj =>
                 Some (set_visible (depthOf nodeName <=? maxDepth) pointsObj)))
    v.

Definition decreaseLODDepth (v : Viewer) : Viewer :=
  if currentLODDepth v <=? 0 then v
  else
    let v1 := with_depth (currentLODDepth v - 1) v in
    updatePotreeNodeVisibility (currentLODDepth v1) v1.

(** [generateNodes(prefix, currentDepth)] of [loadNodesForDepth]: [levels]
    is [depth - currentDepth], the number of levels still to descend. *)
Fixpoint generateNodes (levels : nat) (prefix : string) : list string :=
  prefix ::
  match levels with
  | O => []
  | S k =>
      flat_map (fun i => generateNodes k (prefix ++ String (digit_char i) ""))
               [0; 1; 2; 3; 4; 5; 6; 7]
  end.

Definition loadNodesForDepth (fetch : string -> response) (depth : Z)
    (v : Viewer) : Viewer :=
  let nodesToLoad := generateNodes (Z.to_nat depth) "r" in
  let pending :=
    filter (fun name => (name ∉ potreeLoadedNodes v) /\
                        (name ∉ potreeFailedNodes v)) nodesToLoad in
  fold_left (fun v name => loadPotreeNodeIfExists fetch name v) pending v.

Definition increaseLODDepth (fetch : string -> response) (v : Viewer)
    : Viewer :=
  if 6 <=? currentLODDepth v then v
  else
    let v1 := with_depth (currentLODDepth v + 1) v in
    let v2 := loadNodesForDepth fetch (currentLODDepth v1) v1 in
    updatePotreeNodeVisibility (currentLODDepth v2) v2.

(* ------------------------------------------------------------------ *)
(** ** The selection manager *)

(** An entry of the undo and redo stacks; the only [type] is ['delete'],
    and the [timestamp], which is never read, is left out. *)
Record action : Type := Action { points : gmap string (gset nat) }.

(** The stacks are lists whose head is the element pushed last. *)
Record SelectionManager : Type := MkManager {
  selectedPoints : gmap string (gset nat);
  selectionCount : nat;
  brushRadius : num;
  brushPosition : vec3;
  editModeActive : bool;
  isPainting : bool;
  undoStack : list action;
  redoStack : list action
}.

Definition with_brushRadius (r : num) (m : SelectionManager)
    : SelectionManager :=
  MkManager (selectedPoints m) (selectionCount m) r (brushPosition m)
    (editModeActive m) (isPainting m) (undoStack m) (redoStack m).

Definition with_brushPosition (p : vec3) (m : SelectionManager)
    : SelectionManager :=
  MkManager (selectedPoints m) (selectionCount m) (brushRadius m) p
    (editModeActive m) (isPainting m) (undoStack m) (redoStack m).

Definition with_editModeActive (b : bool) (m : SelectionManager)
    : SelectionManager :=
  MkManager (selectedPoints m) (selectionCount m) (brushRadius m)
    (brushPosition m) b (isPainting m) (undoStack m) (redoStack m).

Definition with_isPainting (b : bool) (m : SelectionManager)
    : SelectionManager :=
  MkManager (selectedPoints m) (selectionCount m) (brushRadius m)
    (brushPosition m) (editModeActive m) b (undoStack m) (redoStack m).

Definition with_selection (sel : gmap string (gset nat)) (count : nat)
    (m : SelectionManager) : SelectionManager :=
  MkManager sel count (brushRadius m) (brushPosition m)
    (editModeActive m) (isPainting m) (undoStack m) (redoStack m).

Definition with_stacks (undos redos : list action) (m : SelectionManager)
    : SelectionManager :=
  MkManager (selectedPoints m) (selectionCount m) (brushRadius m)
    (brushPosition m) (editModeActive m) (isPainting m) undos redos.

(** The state of the constructor. *)
Definition newSelectionManager : SelectionManager :=
  MkManager ∅ 0%nat (Finite (1 # 4)) (Vec3 (ofZ 0) (ofZ 0) (ofZ 0))
    false false [] [].

(** *** Brush size *)

Definition updateBrushSize (newRadius : num) (m : SelectionManager)
    : SelectionManager :=
  with_brushRadius
    (Math_max (Finite (5 # 100)) (Math_min (Finite 5) newRadius)) m.

(** [onWheel(event)]; the argument is [event.deltaY]. *)
Definition onWheel (deltaY : num) (m : SelectionManager) : SelectionManager :=
  if negb (editModeActive m) then m
  else
    let delta := if gt deltaY (ofZ 0) then Finite (9 # 10)
                 else Finite (11 # 10) in
    updateBrushSize (brushRadius m * delta)%num m.

(** *** Overlay query: pruning and classification *)

Record box3 : Type := Box3 { bmin : vec3; bmax : vec3 }.

(** [bboxIntersectsQuery(bbox)] of [updateHighlightOverlay], with the
    brush position and radius it closes over. *)
Definition bboxIntersectsQuery (brush : vec3) (radius : num)
    (box : option box3) : bool :=
  match box with
  | None => true
  | Some b =>
      let radiusSq := (radius * radius)%num in
      let closestX := Math_max (vx (bmin b)) (Math_min (vx brush) (vx (bmax b))) in
      let closestY := Math_max (vy (bmin b)) (Math_min (vy brush) (vy (bmax b))) in
      let distXYSqToBox :=
        ((closestX - vx brush) * (closestX - vx brush)
         + (closestY - vy brush) * (closestY - vy brush))%num in
      if gt distXYSqToBox radiusSq then false
      else if gt (vz (bmin b)) (vz brush + radius)%num then false
      else true
  end.

Inductive overlay : Type := Highlight | Shadow | NoOverlay.

(** What the loop of [processNodePoints] does with one world-space point. *)
Definition classifyPoint (brush : vec3) (radius : num) (p : vec3) : overlay :=
  let radiusSq := (radius * radius)%num in
  let dxXY := (vx p - vx brush)%num in
  let dyXY := (vy p - vy brush)%num in
  let distXYSq := (dxXY * dxXY + dyXY * dyXY)%num in
  if gt distXYSq radiusSq then NoOverlay
  else
    let dz := (vz p - vz brush)%num in
    let dist3DSq := (distXYSq + dz * dz)%num in
    if lt dist3DSq radiusSq then Highlight
    else if lt (vz p) (vz brush) then Shadow
    else NoOverlay.

(** *** Painting *)

(** [THREE.Vector3.distanceToSquared] and [THREE.Sphere.containsPoint], as
    three.js defines them. *)
Definition distanceToSquared (p c : vec3) : num :=
  let dx := (vx p - vx c)%num in
  let dy := (vy p - vy c)%num in
  let dz := (vz p - vz c)%num in
  (dx * dx + dy * dy + dz * dz)%num.

Definition containsPoint (center : vec3) (radius : num) (point : vec3) : bool :=
  le (distanceToSquared point center) (radius * radius)%num.

(** *** The same tests over IEEE doubles

    [bboxIntersectsQuery], the body of the loop of [processNodePoints] and
    [THREE.Sphere.containsPoint] once more, every operation being the one
    of binary64, with its rounding; [x ** 2] is the product [x * x]. *)
Module Double.

Record vec3 : Type := Vec3 { vx : float; vy : float; vz : float }.

Record box3 : Type := Box3 { bmin : vec3; bmax : vec3 }.

(** [Math.max] and [Math.min]: [NaN] as soon as an argument is, and of the
    two zeros the positive one is the larger. *)
Definition Math_max (x y : float) : float :=
  if PrimFloat.is_nan x || PrimFloat.is_nan y then PrimFloat.nan
  else if PrimFloat.ltb x y then y
  else if PrimFloat.ltb y x then x
  else if PrimFloat.get_sign x then y else x.

Definition Math_min (x y : float) : float :=
  if PrimFloat.is_nan x || PrimFloat.is_nan y then PrimFloat.nan
  else if PrimFloat.ltb x y then x
  else if PrimFloat.ltb y x then y
  else if PrimFloat.get_sign x then x else y.

Definition bboxIntersectsQuery (brush : vec3) (radius : float)
    (box : option box3) : bool :=
  match box with
  | None => true
  | Some b =>
      let radiusSq := (radius * radius)%float in
      let closestX := Math_max (vx (bmin b)) (Math_min (vx brush) (vx (bmax b))) in
      let closestY := Math_max (vy (bmin b)) (Math_min (vy brush) (vy (bmax b))) in
      let distXYSqToBox :=
        ((closestX - vx brush) * (closestX - vx brush)
         + (closestY - vy brush) * (closestY - vy brush))%float in
      if PrimFloat.ltb radiusSq distXYSqToBox then false
      else if PrimFloat.ltb (vz brush + radius)%float (vz (bmin b)) then false
      else true
  end.

Definition classifyPoint (brush : vec3) (radius : float) (p : vec3) : overlay :=
  let radiusSq := (radius * radius)%float in
  let dxXY := (vx p - vx brush)%float in
  let dyXY := (vy p - vy brush)%float in
  let distXYSq := (dxXY * dxXY + dyXY * dyXY)%float in
  if PrimFloat.ltb radiusSq distXYSq then NoOverlay
  else
    let dz := (vz p - vz brush)%float in
    let dist3DSq := (distXYSq + dz * dz)%float in
    if PrimFloat.ltb dist3DSq radiusSq then Highlight
    else if PrimFloat.ltb (vz p) (vz brush) then Shadow
    else NoOverlay.

Definition distanceToSquared (p c : vec3) : float :=
  let dx := (vx p - vx c)%float in
  let dy := (vy p - vy c)%float in
  let dz := (vz p - vz c)%float in
  (dx * dx + dy * dy + dz * dz)%float.

Definition containsPoint (center : vec3) (radius : float) (point : vec3)
    : bool :=
  PrimFloat.leb (distanceToSquared point center) (radius * radius)%float.

(** The point [p] lies in the box [b]. *)
Definition inside (b : box3) (p : vec3) : bool :=
  PrimFloat.leb (vx (bmin b)) (vx p) && PrimFloat.leb (vx p) (vx (bmax b)) &&
  PrimFloat.leb (vy (bmin b)) (vy p) && PrimFloat.leb (vy p) (vy (bmax b)) &&
  PrimFloat.leb (vz (bmin b)) (vz p) && PrimFloat.leb (vz p) (vz (bmax b)).

End Double.

(** *** The same tests under a rounding

    In the program every sum, difference and product of these tests is
    rounded to a double.  Here that rounding is a parameter [fl], applied
    to the exact result of each operation on finite numbers (overflow is
    left out); the tests above are the case of the identity
    ([rounded_exact]). *)
Module Rounded.

Section Rounding.

Variable fl : Q -> Q.

Definition round (x : num) : num :=
  match x with
  | Finite q => Finite (fl q)
  | _ => x
  end.

Definition add (x y : num) : num := round (JS.add x y).

Definition sub (x y : num) : num := round (JS.sub x y).

Definition mul (x y : num) : num := round (JS.mul x y).

Definition bboxIntersectsQuery (brush : vec3) (radius : num)
    (box : option box3) : bool :=
  match box with
  | None => true
  | Some b =>
      let radiusSq := mul radius radius in
      let closestX := Math_max (vx (bmin b)) (Math_min (vx brush) (vx (bmax b))) in
      let closestY := Math_max (vy (bmin b)) (Math_min (vy brush) (vy (bmax b))) in
      let distXYSqToBox :=
        add (mul (sub closestX (vx brush)) (sub closestX (vx brush)))
            (mul (sub closestY (vy brush)) (sub closestY (vy brush))) in
      if gt distXYSqToBox radiusSq then false
      else if gt (vz (bmin b)) (add (vz brush) radius) then false
      else true
  end.

Definition classifyPoint (brush : vec3) (radius : num) (p : vec3) : overlay :=
  let radiusSq := mul radius radius in
  let dxXY := sub (vx p) (vx brush) in
  let dyXY := sub (vy p) (vy brush) in
  let distXYSq := add (mul dxXY dxXY) (mul dyXY dyXY) in
  if gt distXYSq radiusSq then NoOverlay
  else
    let dz := sub (vz p) (vz brush) in
    let dist3DSq := add distXYSq (mul dz dz) in
    if lt dist3DSq radiusSq then Highlight
    else if lt (vz p) (vz brush) then Shadow
    else NoOverlay.

Definition distanceToSquared (p c : vec3) : num :=
  let dx := sub (vx p) (vx c) in
  let dy := sub (vy p) (vy c) in
  let dz := sub (vz p) (vz c) in
  add (add (mul dx dx) (mul dy dy)) (mul dz dz).

Definition containsPoint (center : vec3) (radius : num) (point : vec3) : bool :=
  le (distanceToSquared point center) (mul radius radius).

End Rounding.

End Rounded.

(** Reading a typed array: [undefined] outside of it, which arithmetic and
    the typed-array writes turn into [NaN]. *)
Definition read (a : list num) (j : nat) : num := default NaN (a !! j).

(** The offset [getNodePositionData] returns. *)
Definition positionOffset (v : Viewer) : vec3 :=
  match potreePointCloud v with
  | Some p => p
  | None => Vec3 (ofZ 0) (ofZ 0) (ofZ 0)
  end.

Definition pointCount (node : pointsObj) : nat :=
  loop_rounds (length (position node)) 3.

(** Point [i] of a node, as [paintSelection] builds it. *)
Definition worldPoint (offset : vec3) (node : pointsObj) (i : nat) : vec3 :=
  Vec3 (read (position node) (i * 3) + vx offset)%num
       (read (position node) (i * 3 + 1) + vy offset)%num
       (read (position node) (i * 3 + 2) + vz offset)%num.

(** The body of the inner loop of [paintSelection] for point [i] of node
    [nodeName]; the accumulator is [selectedPoints] and [newSelections]. *)
Definition paintPoint (center : vec3) (radius : num) (offset : vec3)
    (nodeName : string) (node : pointsObj)
    (acc : gmap string (gset nat) * list (string * nat)) (i : nat)
    : gmap string (gset nat) * list (string * nat) :=
  if containsPoint center radius (worldPoint offset node i) then
    let sel := match fst acc !! nodeName with
               | Some _ => fst acc
               | None => <[nodeName := ∅]> (fst acc)
               end in
    let indices := default ∅ (sel !! nodeName) in
    if decide (i ∈ indices) then (sel, snd acc)
    else (<[nodeName := {[i]} ∪ indices]> sel, snd acc ++ [(nodeName, i)])
  else acc.

Definition paintNode (center : vec3) (radius : num) (offset : vec3)
    (nodeName : string) (node : pointsObj)
    (acc : gmap string (gset nat) * list (string * nat))
    : gmap string (gset nat) * list (string * nat) :=
  fold_left (paintPoint center radius offset nodeName node)
            (seq 0 (pointCount node)) acc.

(** [countSelectedPoints()]. *)
Definition countPoints (m : gmap string (gset nat)) : nat :=
  map_fold (fun _ indices count => (count + size indices)%nat) 0%nat m.

(** The pair [paintSelection] computes over the nodes [getLoadedNodes]
    lists: the new [selectedPoints] and [newSelections]. *)
Definition paintResult (v : Viewer) (m : SelectionManager)
    : gmap string (gset nat) * list (string * nat) :=
  map_fold (paintNode (brushPosition m) (brushRadius m) (positionOffset v))
           (selectedPoints m, []) (potreeNodes v).

Definition paintSelection (v : Viewer) (m : SelectionManager)
    : SelectionManager :=
  let '(sel, newSelections) := paintResult v m in
  match newSelections with
  | [] => with_selection sel (selectionCount m) m
  | _ :: _ => with_selection sel (countPoints sel) m
  end.

(** *** Delete, undo, redo *)

(** Writing a typed array: nothing happens outside of it. *)
Definition write (a : list num) (j : nat) (x : num) : list num := <[j := x]> a.

(** The three writes that move point [idx] to infinity. *)
Definition hidePoint (idx : nat) (a : list num) : list num :=
  write (write (write a (idx * 3) PosInf) (idx * 3 + 1) PosInf)
        (idx * 3 + 2) PosInf.

(** The three writes that copy point [idx] from [orig]. *)
Definition restorePoint (orig : list num) (idx : nat) (a : list num)
    : list num :=
  write (write (write a (idx * 3) (read orig (idx * 3)))
               (idx * 3 + 1) (read orig (idx * 3 + 1)))
        (idx * 3 + 2) (read orig (idx * 3 + 2)).

Definition with_position (a : list num) (d : option (gset nat))
    (o : pointsObj) : pointsObj :=
  PointsObj (objName o) a (color o) (visible o)
    (originalPositions o) (originalColors o) d.

Definition with_color (a : list num) (o : pointsObj) : pointsObj :=
  PointsObj (objName o) (position o) a (visible o)
    (originalPositions o) (originalColors o) (deletedPoints o).

(** What [deleteSelectedPoints] and [redo] do to one node: the indices are
    added to [userData.deletedPoints] and their positions overwritten. *)
Definition hideNode (indices : gset nat) (node : pointsObj) : pointsObj :=
  with_position (set_fold hidePoint (position node) indices)
                (Some (default ∅ (deletedPoints node) ∪ indices)) node.

(** [restorePointColors(nodeName, indices)], on the node it finds. *)
Definition restorePointColors (indices : gset nat) (node : pointsObj)
    : pointsObj :=
  match originalColors node with
  | None => node
  | Some orig => with_color (set_fold (restorePoint orig) (color node) indices) node
  end.

(** What [undo] does to one node. *)
Definition restoreNode (indices : gset nat) (node : pointsObj) : pointsObj :=
  let node1 :=
    match originalPositions node with
    | Some orig =>
        with_position (set_fold (restorePoint orig) (position node) indices)
                      ((fun d => d ∖ indices) <$> deletedPoints node) node
    | None => node
    end in
  restorePointColors indices node1.

(** The loop [for (const nodeData of nodes)] shared by the three, over the
    nodes [getLoadedNodes] lists: [f] is applied to the nodes whose entry
    in [pts] is a non-empty set. *)
Definition forSelectedNodes (f : gset nat -> pointsObj -> pointsObj)
    (pts : gmap string (gset nat)) (v : Viewer) : Viewer :=
  with_nodes
    (map_imap (fun nodeName node =>
                 match pts !! nodeName with
                 | Some indices =>
                     if decide (size indices = 0%nat) then Some node
                     else Some (f indices node)
                 | None => Some node
                 end))
    v.

(** The methods of the manager read and write the nodes of its viewer:
    they act on the pair. *)
Definition App : Type := Viewer * SelectionManager.

(** [deleteSelectedPoints()]. *)
Definition deleteSelectedPoints (a : App) : App :=
  let '(v, m) := a in
  if decide (selectionCount m = 0%nat) then a
  else
    let deletedPoints := selectedPoints m in
    let m1 := with_stacks (Action deletedPoints :: undoStack m) [] m in
    (forSelectedNodes hideNode (selectedPoints m) v,
     with_selection ∅ 0%nat m1).

(** [undo()]. *)
Definition undo (a : App) : App :=
  let '(v, m) := a in
  match undoStack m with
  | [] => a
  | act :: rest =>
      (forSelectedNodes restoreNode (points act) v,
       with_stacks rest (act :: redoStack m) m)
  end.

(** [redo()]. *)
Definition redo (a : App) : App :=
  let '(v, m) := a in
  match redoStack m with
  | [] => a
  | act :: rest =>
      (forSelectedNodes hideNode (points act) v,
       with_stacks (act :: undoStack m) rest m)
  end.

(** [clearSelection()]; restoring the colours of an empty set of indices
    changes nothing, so the shared loop applies. *)
Definition clearSelection (a : App) : App :=
  let '(v, m) := a in
  (forSelectedNodes restorePointColors (selectedPoints m) v,
   with_selection ∅ 0%nat m).

(** *** Input events *)

(** The events the handlers of the manager and of the viewer react to.
    [MouseMove p] carries the brush position [updateBrushPosition] derives
    from the pointer and the camera; [Loaded] is the completion of
    [loadPotreeNodeIfExists] for one node. *)
Inductive event : Type :=
| KeyT
| MouseMove (p : vec3)
| MouseDown
| MouseUp
| Wheel (deltaY : num)
| KeyDelete
| KeyUndo
| KeyRedo
| KeyEscape
| Loaded (nodeName : string) (answer : response).

Definition handle (a : App) (e : event) : App :=
  let '(v, m) := a in
  match e with
  | Loaded nodeName answer =>
      (loadPotreeNodeIfExists (fun _ => answer) nodeName v, m)
  | KeyT => (v, with_editModeActive (negb (editModeActive m)) m)
  | _ =>
      if negb (editModeActive m) then a
      else
        match e with
        | MouseMove p =>
            let m1 := with_brushPosition p m in
            (v, if isPainting m1 then paintSelection v m1 else m1)
        | MouseDown => (v, paintSelection v (with_isPainting true m))
        | MouseUp => (v, with_isPainting false m)
        | Wheel deltaY => (v, onWheel deltaY m)
        | KeyDelete => deleteSelectedPoints a
        | KeyUndo => undo a
        | KeyRedo => redo a
        | KeyEscape => clearSelection a
        | _ => a
        end
  end.

Definition run (events : list event) (a : App) : App :=
  fold_left handle events a.

(** *** The record format in the words of the specification *)

(** Byte [k] of a record. *)
Definition byteAt (rec : list Byte.byte) (k : nat) : Z :=
  default 0 (byte_val <$> rec !! k).

(** The quantized coordinate on an axis: bytes [4 * axis] to
    [4 * axis + 3]. *)
Definition quantized (rec : list Byte.byte) (axis : nat) : Z :=
  int32_le (byteAt rec (4 * axis)) (byteAt rec (4 * axis + 1))
           (byteAt rec (4 * axis + 2)) (byteAt rec (4 * axis + 3)).

(** [quantized * scale + nodeBox.min + worldOffset], axis by axis. *)
Definition decodedPosition (scale : num) (nodeBox : bbox) (worldOffset : vec3)
    (rec : list Byte.byte) : list num :=
  [ (ofZ (quantized rec 0) * scale + lx nodeBox + vx worldOffset)%num;
    (ofZ (quantized rec 1) * scale + ly nodeBox + vy worldOffset)%num;
    (ofZ (quantized rec 2) * scale + lz nodeBox + vz worldOffset)%num ].

(** The same without a world offset, which is what the loader computes
    while [potreeOffset] is not set. *)
Definition localPosition (scale : num) (nodeBox : bbox)
    (rec : list Byte.byte) : list num :=
  [ (ofZ (quantized rec 0) * scale + lx nodeBox)%num;
    (ofZ (quantized rec 1) * scale + ly nodeBox)%num;
    (ofZ (quantized rec 2) * scale + lz nodeBox)%num ].

Definition positionWith (scale : num) (nodeBox : bbox)
    (potreeOffset : option vec3) (rec : list Byte.byte) : list num :=
  match potreeOffset with
  | Some o => decodedPosition scale nodeBox o rec
  | None => localPosition scale nodeBox rec
  end.

(** The first three of the four trailing bytes, over 255. *)
Definition decodedColor (rec : list Byte.byte) : list num :=
  [ (ofZ (byteAt rec 12) / ofZ 255)%num;
    (ofZ (byteAt rec 13) / ofZ 255)%num;
    (ofZ (byteAt rec 14) / ofZ 255)%num ].

(** Record [i] of a buffer. *)
Definition recordAt (view : list Byte.byte) (i : nat) : list Byte.byte :=
  take 16 (drop (i * 16) view).

(** The first [n] records of 16 bytes of a buffer. *)
Fixpoint records (n : nat) (buffer : list Byte.byte) : list (list Byte.byte) :=
  match n with
  | O => []
  | S k => take 16 buffer :: records k (drop 16 buffer)
  end.

(** *** States used in the examples *)

(** A viewer that has its metadata and a selection manager and has loaded
    nothing yet. *)
Definition freshViewer (md : metadata) : Viewer :=
  MkViewer (Some md) None None ∅ ∅ ∅ ∅ [] 0 false true [].

Definition unitMetadata : metadata :=
  Metadata (cube 0 8) (Finite (1 # 100)) (ofZ 1).

(** The record of the scenario: x = 100, y = 0, z = 0, then r = 255,
    g = 0, b = 0, a = 0. *)
Definition scenarioRecord : list Byte.byte :=
  [ Byte.x64; Byte.x00; Byte.x00; Byte.x00;
    Byte.x00; Byte.x00; Byte.x00; Byte.x00;
    Byte.x00; Byte.x00; Byte.x00; Byte.x00;
    Byte.xff; Byte.x00; Byte.x00; Byte.x00 ].

(** A record whose x single precision does not hold: x = 16777217, that
    is 2^24 + 1, y = 1, z = 0, then r = 128, g = 0, b = 0, a = 0. *)
Definition wideRecord : list Byte.byte :=
  [ Byte.x01; Byte.x00; Byte.x00; Byte.x01;
    Byte.x01; Byte.x00; Byte.x00; Byte.x00;
    Byte.x00; Byte.x00; Byte.x00; Byte.x00;
    Byte.x80; Byte.x00; Byte.x00; Byte.x00 ].

(** A server that has the root node only. *)
Definition rootOnly (nodeName : string) : response :=
  if String.eqb nodeName "r" then Ok scenarioRecord else NotOk.

(** The viewer after one increase of the depth. *)
Definition viewerAtDepth1 : Viewer :=
  increaseLODDepth rootOnly (freshViewer unitMetadata).



(** *** Predicates used to state the properties *)

(** The node is in none of the three sets: its load state is "unloaded". *)
Definition unloaded (nodeName : string) (v : Viewer) : Prop :=
  (nodeName ∉ potreeLoadedNodes v) /\ (nodeName ∉ potreeLoading v) /\
  (nodeName ∉ potreeFailedNodes v).

(** [0.05 <= brushRadius && brushRadius <= 5.0]. *)
Definition radius_ok (m : SelectionManager) : bool :=
  le (Finite (5 # 100)) (brushRadius m) && le (brushRadius m) (Finite 5).

Definition fvec (x y z : Q) : vec3 := Vec3 (Finite x) (Finite y) (Finite z).

(** The point [p] lies in the box [b]. *)
Definition inside (b : box3) (p : vec3) : bool :=
  le (vx (bmin b)) (vx p) && le (vx p) (vx (bmax b)) &&
  le (vy (bmin b)) (vy p) && le (vy p) (vy (bmax b)) &&
  le (vz (bmin b)) (vz p) && le (vz p) (vz (bmax b)).

(** The nodes that are loaded, being loaded or failed: those
    [loadPotreeNodeIfExists] skips. *)
Definition processedSet (v : Viewer) : gset string :=
  potreeLoadedNodes v ∪ potreeLoading v ∪ potreeFailedNodes v.

(** Every node down to depth [D] has been asked for. *)
Definition explored (D : Z) (v : Viewer) : Prop :=
  Forall (fun name => name ∈ processedSet v) (generateNodes (Z.to_nat D) "r").



(** The indices a map from node names to index sets has for a node. *)
Definition selectedIn (pts : gmap string (gset nat)) (name : string)
    : gset nat :=
  default ∅ (pts !! name).

(** The indices marked deleted on a node. *)
Definition deletedIn (node : pointsObj) : gset nat :=
  default ∅ (deletedPoints node).

(** Infinity, or the [NaN] an absent element reads as. *)
Definition unbounded (x : num) : bool :=
  match x with
  | PosInf | NaN => true
  | _ => false
  end.

(** The first coordinate of point [idx] is out of the reach of a brush. *)
Definition hiddenAt (a : list num) (idx : nat) : bool :=
  unbounded (read a (idx * 3)).

(** Every point marked deleted on the node has been moved away. *)
Definition node_hidden (node : pointsObj) : Prop :=
  set_Forall (fun idx => hiddenAt (position node) idx = true) (deletedIn node).

Definition deleted_hidden (v : Viewer) : Prop :=
  map_Forall (fun _ node => node_hidden node) (potreeNodes v).

(** The node carries the copies [storeOriginalPositions] made, its colours
    are the original ones, and its positions are the original ones except
    that the points marked deleted are at infinity. *)
Definition node_faithful (node : pointsObj) : Prop :=
  exists orig origColors,
    originalPositions node = Some orig
    /\ originalColors node = Some origColors
    /\ color node = origColors
    /\ forall j : nat,
         position node !! j
         = (fun x => if decide ((j `div` 3)%nat ∈ deletedIn node) then PosInf
                     else x) <$> orig !! j.

Definition faithful (v : Viewer) : Prop :=
  map_Forall (fun _ node => node_faithful node) (potreeNodes v).

(** The node carries no originals: [storeOriginalPositions] was not called
    on it. *)
Definition node_bare (node : pointsObj) : Prop :=
  originalPositions node = None /\ originalColors node = None.

(** Every node carries its originals, as above, or none at all. *)
Definition restorable (v : Viewer) : Prop :=
  map_Forall (fun _ node => node_faithful node \/ node_bare node)
             (potreeNodes v).

(** What keeps deleted points out of the brush: they are away, and the
    radius is within its bounds. *)
Definition brush_safe (a : App) : Prop :=
  deleted_hidden (fst a) /\ radius_ok (snd a) = true.

(** What every event keeps true once the selection manager exists. *)
Definition consistent (a : App) : Prop :=
  faithful (fst a) /\ radius_ok (snd a) = true
  /\ hasSelectionManager (fst a) = true.

(** The three writes of [hidePoint] and [restorePoint], the values being
    given by position in the array. *)
Definition writePoint (f : nat -> num) (idx : nat) (a : list num) : list num :=
  write (write (write a (idx * 3) (f (idx * 3)%nat))
               (idx * 3 + 1) (f (idx * 3 + 1)%nat))
        (idx * 3 + 2) (f (idx * 3 + 2)%nat).

(** The state before any event, and the events of the examples: the root
    node arrives with its single point at (1, 0, 0), edit mode is entered,
    the brush is moved onto the point and the button is pressed and
    released. *)
Definition app0 : App := (freshViewer unitMetadata, newSelectionManager).

Definition selectRootPoint : list event :=
  [ Loaded "r" (Ok scenarioRecord); KeyT; MouseMove (fvec 1 0 0);
    MouseDown; MouseUp ].

(** Undo, select the restored point, redo, delete. *)
Definition reselectCycle : list event :=
  [ KeyUndo; MouseDown; MouseUp; KeyRedo; KeyDelete ].

Fixpoint cycles (n : nat) : list event :=
  match n with
  | O => []
  | S k => reselectCycle ++ cycles k
  end.

(** What is known of an accumulator of [paintSelection]: the new
    selections are good, and so is every selected index that was not
    selected at the start. *)
Definition paintInv (Good : string -> nat -> Prop)
    (sel0 : gmap string (gset nat))
    (acc : gmap string (gset nat) * list (string * nat)) : Prop :=
  (forall nm j, (nm, j) ∈ snd acc -> Good nm j)
  /\ (forall nm j, j ∈ selectedIn (fst acc) nm ->
                   j ∈ selectedIn sel0 nm \/ Good nm j).

(** An index is good when the node has that point inside the brush. *)
Definition inBrush (center : vec3) (radius : num) (offset : vec3)
    (nodes : gmap string pointsObj) (nm : string) (j : nat) : Prop :=
  exists node, nodes !! nm = Some node
               /\ containsPoint center radius (worldPoint offset node j) = true.

(** The state once the root point is selected, the state after its
    deletion, and the entry that deletion pushes. *)
Definition rootSelected : App := run selectRootPoint app0.

Definition afterDelete : App := run [KeyDelete] rootSelected.

Definition rootPointAction : action := Action {[ "r" := {[ 0%nat ]} ]}.

(** The state in which the root point is selected and, through a redo,
    marked deleted as well. *)
Definition staleSelection : App :=
  run [KeyDelete; KeyUndo; MouseDown; MouseUp; KeyRedo] rootSelected.

(** The viewer in upload mode, as the selection manager sees it:
    [getLoadedNodes] finds the uploaded cloud as [viewer.currentPointCloud]
    and again in the scene, and lists it once, under the name
    [currentPointCloud]; the viewer's own loader has made no object, and
    there is no cloud of the Potree library. *)
Definition uploadMode (currentPointCloud : pointsObj) : Viewer :=
  MkViewer None None None {[ "currentPointCloud" := currentPointCloud ]}
    ∅ ∅ ∅ ["currentPointCloud"] 0 false true [].

(** An uploaded cloud of one point, at (1, 0, 0), and the state of upload
    mode in which edit mode has been entered and that point selected. *)
Definition uploadedPoint : pointsObj :=
  displayPointCloud [ofZ 1; ofZ 0; ofZ 0] [ofZ 1; ofZ 0; ofZ 0].

Definition uploadSelected : App :=
  run [KeyT; MouseMove (fvec 1 0 0); MouseDown; MouseUp]
      (uploadMode uploadedPoint, newSelectionManager).

(* ------------------------------------------------------------------ *)
(** ** Further code of the viewer *)

(** *** Boxes of the octree *)

(** A box with rational bounds. *)
Definition qbox (x0 y0 z0 x1 y1 z1 : Q) : bbox :=
  BBox (Finite x0) (Finite y0) (Finite z0) (Finite x1) (Finite y1) (Finite z1).

(** The six bounds are finite and no lower bound exceeds its upper one. *)
Definition well_formed (b : bbox) : bool :=
  is_finite (lx b) && is_finite (ly b) && is_finite (lz b) &&
  is_finite (ux b) && is_finite (uy b) && is_finite (uz b) &&
  le (lx b) (ux b) && le (ly b) (uy b) && le (lz b) (uz b).

(** The six bounds are below [2^1023] in magnitude: the sum of two of them
    is then a finite double, so that no midpoint overflows. *)
Definition below_overflow (b : bbox) : bool :=
  let bound := ofZ (2 ^ 1023) in
  lt (neg bound) (lx b) && lt (lx b) bound &&
  lt (neg bound) (ly b) && lt (ly b) bound &&
  lt (neg bound) (lz b) && lt (lz b) bound &&
  lt (neg bound) (ux b) && lt (ux b) bound &&
  lt (neg bound) (uy b) && lt (uy b) bound &&
  lt (neg bound) (uz b) && lt (uz b) bound.

(** The box [inner] lies in the box [outer]. *)
Definition within (inner outer : bbox) : bool :=
  le (lx outer) (lx inner) && le (ux inner) (ux outer) &&
  le (ly outer) (ly inner) && le (uy inner) (uy outer) &&
  le (lz outer) (lz inner) && le (uz inner) (uz outer).

(** The point lies in the box, faces included. *)
Definition in_bbox (b : bbox) (p : vec3) : bool :=
  le (lx b) (vx p) && le (vx p) (ux b) &&
  le (ly b) (vy p) && le (vy p) (uy b) &&
  le (lz b) (vz p) && le (vz p) (uz b).

(** The point lies strictly inside the box. *)
Definition in_interior (b : bbox) (p : vec3) : bool :=
  lt (lx b) (vx p) && lt (vx p) (ux b) &&
  lt (ly b) (vy p) && lt (vy p) (uy b) &&
  lt (lz b) (vz p) && lt (vz p) (uz b).

(** [nodeName + i] for a number [i] from 0 to 7. *)
Definition childName (nodeName : string) (i : Z) : string :=
  nodeName ++ String (digit_char i) "".

(** *** Node names by depth ([getPotreeNodesToLoad]) *)

(** [generateChildren(parent, depth)] of [getPotreeNodesToLoad]: [levels]
    is [maxDepth - depth + 1], the number of levels left, so that the test
    [depth > maxDepth] reads [levels = 0]. *)
Fixpoint generateChildren (levels : nat) (parent : string) : list string :=
  match levels with
  | O => []
  | S k =>
      parent ::
      flat_map (fun i => generateChildren k (parent ++ String (digit_char i) ""))
               [0; 1; 2; 3; 4; 5; 6; 7]
  end.

Definition getPotreeNodesToLoad (maxDepth : Z) : list string :=
  generateChildren (Z.to_nat (maxDepth + 1)) "r".

(** [performPotreeLODUpdate()], from the distance it has computed (with
    [Math.sqrt], which rational numbers do not have) between the camera
    and the centre of the root box.  The loads it starts without awaiting
    them are taken, as everywhere, as done at the call. *)
Definition maxDepthFor (distance : num) : Z :=
  if lt distance (ofZ 100) then 5
  else if lt distance (ofZ 200) then 4
  else if lt distance (ofZ 400) then 3
  else 2.

Definition performPotreeLODUpdate (fetch : string -> response)
    (distance : num) (v : Viewer) : completion Viewer :=
  match potreeMetadata v with
  | None => Throw TypeError
  | Some _ =>
      let maxDepth := maxDepthFor distance in
      let nodesToLoad := getPotreeNodesToLoad maxDepth in
      let v1 :=
        fold_left
          (fun v nodeName =>
             if decide ((nodeName ∉ potreeLoadedNodes v) /\
                        (nodeName ∉ potreeLoading v))
             then loadPotreeNodeIfExists fetch nodeName v
             else v)
          nodesToLoad v in
      Normal (updatePotreeNodeVisibility maxDepth v1)
  end.

(** The offset that centres a box in x and y and puts its floor at
    z = 0. *)
Definition centringOffset (rootBox : bbox) : vec3 :=
  Vec3 (neg (midpoint (lx rootBox) (ux rootBox)))
       (neg (midpoint (ly rootBox) (uy rootBox)))
       (neg (lz rootBox)).

(** [loadInitialPotreeLODs()]. *)
Definition with_offset (o : vec3) (v : Viewer) : Viewer :=
  MkViewer (potreeMetadata v) (Some o) (potreePointCloud v)
    (potreeNodes v) (potreeLoadedNodes v) (potreeLoading v)
    (potreeFailedNodes v) (scene v) (currentLODDepth v)
    (cameraInitialized v) (hasSelectionManager v) (fetched v).

Definition loadInitialPotreeLODs (fetch : string -> response) (v : Viewer)
    : completion Viewer :=
  match potreeMetadata v with
  | None => Throw TypeError
  | Some md =>
      let bbox := boundingBox md in
      let centerX := ((lx bbox + ux bbox) / ofZ 2)%num in
      let centerY := ((ly bbox + uy bbox) / ofZ 2)%num in
      let v1 := with_offset (Vec3 (neg centerX) (neg centerY) (neg (lz bbox))) v in
      Normal (loadPotreeNodeIfExists fetch "r" v1)
  end.

(** The two keys of the level of detail in the [keydown] listener of
    [setupWalkControls]. *)
Inductive lodKey : Type := KeyM | KeyN.

Definition onLodKey (fetch : string -> response) (v : Viewer) (k : lodKey)
    : Viewer :=
  match k with
  | KeyM => increaseLODDepth fetch v
  | KeyN => decreaseLODDepth v
  end.

(** *** Predicates on the node store *)

(** No node is in two of the three load states. *)
Definition states_exclusive (v : Viewer) : Prop :=
  potreeLoadedNodes v ## potreeFailedNodes v
  /\ potreeLoadedNodes v ## potreeLoading v
  /\ potreeLoading v ## potreeFailedNodes v.

(** The loaded nodes are those that have an object, and each is in the
    scene once. *)
Definition store_tracked (v : Viewer) : Prop :=
  dom (potreeNodes v) = potreeLoadedNodes v
  /\ NoDup (scene v)
  /\ list_to_set (scene v) = potreeLoadedNodes v.

(** No file has been requested twice, and every requested node has left
    the state "unloaded". *)
Definition requested_once (v : Viewer) : Prop :=
  NoDup (fetched v)
  /\ forall name, name ∈ fetched v -> name ∈ processedSet v.

(** The requests went to nodes of depth at most [D]. *)
Definition requests_within (D : nat) (v : Viewer) : Prop :=
  forall name, name ∈ fetched v -> name ∈ generateNodes D "r".

(** The three together. *)
Definition store_ok (v : Viewer) : Prop :=
  states_exclusive v /\ store_tracked v /\ requested_once v.

(* ------------------------------------------------------------------ *)
(** ** Further code of the selection manager *)

(** [getDeletedPointsData()]: the object it returns, as a map from node
    names to arrays; [Array.from] of a set lists its elements (their order
    is that of [elements], and nothing depends on it). *)
Definition getDeletedPointsData (v : Viewer) : gmap string (list nat) :=
  map_imap (fun _ node =>
              match deletedPoints node with
              | Some d =>
                  if decide (size d = 0%nat) then None else Some (elements d)
              | None => None
              end)
           (potreeNodes v).

(** [setDeletedPointsData(data)], for an object whose properties are arrays
    of indices. *)
Definition setDeletedPointsData (data : gmap string (list nat)) (v : Viewer)
    : Viewer :=
  with_nodes
    (map_imap (fun name node =>
                 match data !! name with
                 | Some indices =>
                     let deletedPoints : gset nat := list_to_set indices in
                     Some (with_position
                             (set_fold hidePoint (position node) deletedPoints)
                             (Some deletedPoints) node)
                 | None => Some node
                 end))
    v.

(** *** Predicates on the selection *)

(** The indices of the points of a node that lie in the brush sphere. *)
Definition brushed (center : vec3) (radius : num) (offset : vec3)
    (node : pointsObj) : gset nat :=
  list_to_set
    (filter (fun i => containsPoint center radius (worldPoint offset node i)
                      = true)
            (seq 0 (pointCount node))).

Definition brushedIn (v : Viewer) (m : SelectionManager) (name : string)
    : gset nat :=
  match potreeNodes v !! name with
  | Some node =>
      brushed (brushPosition m) (brushRadius m) (positionOffset v) node
  | None => ∅
  end.

(** [selectionCount] is the number of selected points. *)
Definition count_ok (m : SelectionManager) : Prop :=
  selectionCount m = countPoints (selectedPoints m).

(** Every point marked deleted on the node has its three coordinates at
    infinity: what [deleteSelectedPoints], [redo] and
    [setDeletedPointsData] write with each mark. *)
Definition node_marked_away (node : pointsObj) : Prop :=
  forall (j : nat) (x : num),
    position node !! j = Some x ->
    (j `div` 3)%nat ∈ deletedIn node -> x = PosInf.

Definition marked_away (v : Viewer) : Prop :=
  map_Forall (fun _ node => node_marked_away node) (potreeNodes v).

(** *** Hierarchical culling ([traverseOctree] of [updateHighlightOverlay]) *)

(** A node of the octree the Potree library keeps: its name, its box in
    the coordinates of the cloud (if it has one) and its children, an
    absent child being [None]. *)
#[warnings="-register-all"]
Inductive octreeNode : Type :=
| OctreeNode (name : string) (box : option box3)
             (children : list (option octreeNode)).

Definition octreeName (t : octreeNode) : string :=
  match t with OctreeNode name _ _ => name end.

Definition octreeBox (t : octreeNode) : option box3 :=
  match t with OctreeNode _ box _ => box end.

Definition octreeChildren (t : octreeNode) : list (option octreeNode) :=
  match t with OctreeNode _ _ children => children end.

(** [toWorldBbox(localBbox)], with the [pcOffset] it closes over. *)
Definition toWorldBbox (pcOffset : vec3) (localBbox : option box3)
    : option box3 :=
  match localBbox with
  | None => None
  | Some b =>
      Some (Box3 (Vec3 (vx (bmin b) + vx pcOffset)%num
                       (vy (bmin b) + vy pcOffset)%num
                       (vz (bmin b) + vz pcOffset)%num)
                 (Vec3 (vx (bmax b) + vx pcOffset)%num
                       (vy (bmax b) + vy pcOffset)%num
                       (vz (bmax b) + vz pcOffset)%num))
  end.

(** [traverseOctree(octreeNode, visibleNodesMap)].  The accumulator is the
    list of the calls [processNodePoints(sceneNode, nodeName)] made so far,
    in order, and [stats.subtreesCulled]; the points the overlay shows are
    those [processNodePoints] classifies in the nodes of these calls. *)
Fixpoint traverseOctree {A : Type} (brush : vec3) (radius : num)
    (pcOffset : vec3) (visibleNodesMap : gmap string A)
    (octreeNode : octreeNode) (acc : list (A * string) * nat)
    : list (A * string) * nat :=
  match octreeNode with
  | OctreeNode nodeName box children =>
      let worldBbox := toWorldBbox pcOffset box in
      if negb (bboxIntersectsQuery brush radius worldBbox)
      then (fst acc, S (snd acc))
      else
        let acc1 :=
          match visibleNodesMap !! nodeName with
          | Some sceneNode => (fst acc ++ [(sceneNode, nodeName)], snd acc)
          | None => acc
          end in
        fold_left
          (fun acc child =>
             match child with
             | Some c =>
                 traverseOctree brush radius pcOffset visibleNodesMap c acc
             | None => acc
             end)
          children acc1
  end.

(** The body of the loop over the children. *)
Definition traverseChild {A : Type} (brush : vec3) (radius : num)
    (pcOffset : vec3) (visibleNodesMap : gmap string A)
    (acc : list (A * string) * nat) (child : option octreeNode)
    : list (A * string) * nat :=
  match child with
  | Some c => traverseOctree brush radius pcOffset visibleNodesMap c acc
  | None => acc
  end.

(** The test [traverseOctree] makes on a box of the tree. *)
Definition keepsBox (brush : vec3) (radius : num) (pcOffset : vec3)
    (box : option box3) : bool :=
  bboxIntersectsQuery brush radius (toWorldBbox pcOffset box).

(** The nodes of a tree, the root first. *)
Fixpoint octreeNodes (t : octreeNode) : list octreeNode :=
  match t with
  | OctreeNode _ _ children =>
      t :: flat_map (fun child => match child with
                                  | Some c => octreeNodes c
                                  | None => []
                                  end) children
  end.

(** The box of a child lies in the box of its parent: both have finite
    bounds, the child's minimum is at most its maximum, and the child's
    box is within the parent's.  A parent without a box is never culled
    and constrains nothing. *)
Definition box_nested (parent child : option box3) : Prop :=
  match parent, child with
  | None, _ => True
  | Some p, Some c =>
      exists p0 p1 p2 p3 p4 p5 c0 c1 c2 c3 c4 c5 : Q,
        p = Box3 (fvec p0 p1 p2) (fvec p3 p4 p5)
        /\ c = Box3 (fvec c0 c1 c2) (fvec c3 c4 c5)
        /\ (p0 <= c0 /\ c0 <= c3 /\ c3 <= p3)%Q
        /\ (p1 <= c1 /\ c1 <= c4 /\ c4 <= p4)%Q
        /\ (p2 <= c2 /\ c2 <= c5 /\ c5 <= p5)%Q
  | Some _, None => False
  end.

(** Every child box of the tree lies in the box of its parent. *)
Fixpoint nested (t : octreeNode) : Prop :=
  match t with
  | OctreeNode _ box children =>
      fold_right
        (fun child rest =>
           match child with
           | Some c => box_nested box (octreeBox c) /\ nested c /\ rest
           | None => rest
           end)
        True children
  end.

(** *** The flat pass of [updateHighlightOverlay] *)

(** [getLoadedNodes()] for the viewer's own loader: one entry
    [{ sceneNode, octreeBoundingBox, name }] per object of [potreeNodes],
    added by [addNode(pointsObj, name, null)], so without an octree box.
    In upload mode ([uploadMode]) the one entry is that of the uploaded
    cloud, added by [addNode(currentPointCloud, 'currentPointCloud',
    null)]. *)
Definition getLoadedNodes (v : Viewer)
    : list (pointsObj * option box3 * string) :=
  (fun entry => (snd entry, None, fst entry)) <$> map_to_list (potreeNodes v).

(** The loop [for (const nodeData of nodes)] that is run when there is no
    octree to traverse; the accumulator is the list of the calls of
    [processNodePoints] and [stats.nodesCulled]. *)
Definition flatPass {A : Type} (brush : vec3) (radius : num)
    (pcOffset : vec3) (nodes : list (A * option box3 * string))
    : list (A * string) * nat :=
  fold_left
    (fun acc nodeData =>
       let '(sceneNode, octreeBoundingBox, name) := nodeData in
       let worldBbox := toWorldBbox pcOffset octreeBoundingBox in
       if negb (bboxIntersectsQuery brush radius worldBbox)
       then (fst acc, S (snd acc))
       else (fst acc ++ [(sceneNode, name)], snd acc))
    nodes ([], 0%nat).

(* ------------------------------------------------------------------ *)
(** * Properties *)

(** ** Octree addressing *)

Section Addressing.

Lemma subdivide_halve (b : bbox) (c : ascii) :
  subdivide b c = halve b (effective_octant c).
Proof.
  destruct c as [[] [] [] [] [] [] [] []]; reflexivity.
Qed.

Lemma effective_octant_digit (o : Z) :
  0 <= o <= 7 -> effective_octant (digit_char o) = o.
Proof.
  intros Ho.
  assert (o = 0 \/ o = 1 \/ o = 2 \/ o = 3 \/
          o = 4 \/ o = 5 \/ o = 6 \/ o = 7) as Hcases by lia.
  repeat (destruct Hcases as [-> | Hcases]; [reflexivity |]).
  subst o; reflexivity.
Qed.

Lemma fold_subdivide (chars : list ascii) (b : bbox) :
  fold_left subdivide chars b = boundsOf (map effective_octant chars) b.
Proof.
  revert b; induction chars as [| c chars IH]; intros b; simpl.
  - reflexivity.
  - rewrite subdivide_halve. apply IH.
Qed.

Lemma bbox_eta (b : bbox) :
  BBox (lx b) (ly b) (lz b) (ux b) (uy b) (uz b) = b.
Proof. destruct b; reflexivity. Qed.

(** The function never fails once the metadata is there, whatever the
    characters of the name are. *)
Lemma getNodeBoundingBox_total (md : metadata) (nodeName : string) :
  getNodeBoundingBox (Some md) nodeName =
  Normal (boundsOf (map effective_octant
                      (list_ascii_of_string (substring1 nodeName)))
                   (boundingBox md)).
Proof.
  unfold getNodeBoundingBox.
  destruct (String.eqb nodeName "r") eqn:E.
  - apply String.eqb_eq in E; subst nodeName; simpl.
    now rewrite bbox_eta.
  - now rewrite fold_subdivide, bbox_eta.
Qed.

Lemma map_effective_digits (path : list Z) :
  Forall (fun o => 0 <= o <= 7) path ->
  map effective_octant (map digit_char path) = path.
Proof.
  induction 1 as [| o path Ho _ IH]; simpl.
  - reflexivity.
  - now rewrite effective_octant_digit, IH.
Qed.

End Addressing.

(** C1. For every root box and every path of octant digits,
    [getNodeBoundingBox] returns the box obtained by halving the root box
    once per digit, root to leaf, bit 0 of the digit choosing the upper X
    half, bit 1 the upper Y half and bit 2 the upper Z half; the root path
    gives the root box itself; for the root box [0,0,0]-[8,8,8] the path 1
    gives [4,0,0]-[8,4,4] and the path 1,2 gives [4,2,0]-[6,4,2]. *)
Theorem C1_octree_addressing :
  (forall (md : metadata) (path : list Z),
      Forall (fun o => 0 <= o <= 7) path ->
      getNodeBoundingBox (Some md) (nodeNameOf path)
      = Normal (boundsOf path (boundingBox md)))
  /\ (forall md : metadata,
         getNodeBoundingBox (Some md) (nodeNameOf []) = Normal (boundingBox md))
  /\ (forall s sp : num,
         exists b1 b12,
           getNodeBoundingBox (Some (Metadata (cube 0 8) s sp)) (nodeNameOf [1])
           = Normal b1
           /\ bbox_eqv b1 (box_of 4 0 0 8 4 4)
           /\ getNodeBoundingBox (Some (Metadata (cube 0 8) s sp))
                (nodeNameOf [1; 2]) = Normal b12
           /\ bbox_eqv b12 (box_of 4 2 0 6 4 2)).
Proof.
  split; [| split].
  - intros md path Hpath.
    rewrite getNodeBoundingBox_total. unfold nodeNameOf, substring1.
    rewrite list_ascii_of_string_of_list_ascii.
    now rewrite map_effective_digits.
  - intros md. now rewrite getNodeBoundingBox_total.
  - intros s sp. eexists _, _.
    split; [reflexivity |]. split; [now vm_compute |].
    split; [reflexivity |]. now vm_compute.
Qed.

Lemma C1_octree_addressing_witness :
  Forall (fun o => 0 <= o <= 7) [5; 3]
  /\ getNodeBoundingBox (Some (Metadata (cube 0 8) (ofZ 1) (ofZ 1)))
       (nodeNameOf [5; 3])
     = Normal (boundsOf [5; 3] (cube 0 8)).
Proof.
  assert (Forall (fun o => 0 <= o <= 7) [5; 3]) as H
    by (repeat constructor; lia).
  split; [exact H |].
  exact (proj1 C1_octree_addressing
           (Metadata (cube 0 8) (ofZ 1) (ofZ 1)) [5; 3] H).
Defined.

(** C8 as stated fails: the name [r8] has a digit outside 0..7, and the
    call returns the box of [r0] instead of failing. *)
Lemma C8_invalid_digit_counterexample :
  effective_octant "8" = 0
  /\ getNodeBoundingBox (Some (Metadata (cube 0 8) (ofZ 1) (ofZ 1))) "r8"
     = getNodeBoundingBox (Some (Metadata (cube 0 8) (ofZ 1) (ofZ 1))) "r0"
  /\ forall e : exn,
       getNodeBoundingBox (Some (Metadata (cube 0 8) (ofZ 1) (ofZ 1))) "r8"
       <> Throw e.
Proof.
  split; [reflexivity |]. split; [reflexivity |].
  intros e. rewrite getNodeBoundingBox_total. discriminate.
Qed.

(** C8, amended. [getNodeBoundingBox] checks no digit and, given the
    metadata, never fails: each character of the name after the first acts
    as the octant made of the low three bits of its [parseInt] value (8 as
    0, 9 as 1, a character that is no digit as 0), and the result is a
    function of the name and the root box alone. *)
Theorem C8_no_digit_validation :
  forall (md : metadata) (nodeName : string),
    getNodeBoundingBox (Some md) nodeName
    = Normal (boundsOf (map effective_octant
                          (list_ascii_of_string (substring1 nodeName)))
                       (boundingBox md))
    /\ effective_octant "8" = 0 /\ effective_octant "9" = 1
    /\ effective_octant "x" = 0.
Proof.
  intros md nodeName. split; [apply getNodeBoundingBox_total |].
  repeat split.
Qed.


(** ** Brush radius *)

Section Brush.

Local Open Scope Q_scope.

Lemma Qle_bool_false (a b : Q) : Qle_bool a b = false -> b < a.
Proof.
  intros H. apply Qnot_le_lt. intros Hle.
  apply Qle_bool_iff in Hle. congruence.
Qed.

Lemma clamp_radius (q : Q) :
  exists r, Math_max (Finite (5 # 100)) (Math_min (Finite 5) (Finite q))
            = Finite r /\ 5 # 100 <= r <= 5.
Proof.
  unfold Math_min, Math_max, le.
  destruct (Qle_bool 5 q) eqn:E1.
  - exists 5. split; [reflexivity | lra].
  - apply Qle_bool_false in E1.
    destruct (Qle_bool (5 # 100) q) eqn:E2.
    + exists q. apply Qle_bool_iff in E2. split; [reflexivity | lra].
    + exists (5 # 100). split; [reflexivity | lra].
Qed.

Lemma radius_ok_iff (m : SelectionManager) :
  radius_ok m = true <->
  exists r, brushRadius m = Finite r /\ 5 # 100 <= r <= 5.
Proof.
  unfold radius_ok. split.
  - intros H. apply andb_prop in H as [H1 H2].
    destruct (brushRadius m) as [r | | |]; simpl in *; try discriminate.
    exists r. apply Qle_bool_iff in H1, H2. split; [reflexivity | lra].
  - intros (r & -> & H1 & H2). simpl.
    apply andb_true_intro; split; now apply Qle_bool_iff.
Qed.

Lemma updateBrushSize_ok (q : Q) (m : SelectionManager) :
  radius_ok (updateBrushSize (Finite q) m) = true.
Proof.
  apply radius_ok_iff. unfold updateBrushSize; simpl.
  apply clamp_radius.
Qed.

End Brush.

(** C10. For every finite argument [updateBrushSize] leaves the radius in
    [0.05, 5.0], and a wheel event, which multiplies the radius by 0.9 or 1.1
    and calls it, keeps a radius that is in that interval inside it. *)
Theorem C10_brush_radius_invariant :
  forall (m : SelectionManager) (q : Q) (deltaY : num),
    radius_ok (updateBrushSize (Finite q) m) = true
    /\ (radius_ok m = true -> radius_ok (onWheel deltaY m) = true).
Proof.
  intros m q deltaY. split; [apply updateBrushSize_ok |].
  intros Hm. unfold onWheel.
  destruct (editModeActive m); cbn [negb]; [| exact Hm].
  apply radius_ok_iff in Hm as (r & Hr & _). rewrite Hr.
  destruct (gt deltaY (ofZ 0)); apply updateBrushSize_ok.
Qed.

Lemma C10_brush_radius_invariant_witness :
  radius_ok (with_editModeActive true newSelectionManager) = true
  /\ radius_ok (onWheel (ofZ 120)
                  (with_editModeActive true newSelectionManager)) = true.
Proof.
  assert (radius_ok (with_editModeActive true newSelectionManager) = true)
    as H by reflexivity.
  split; [exact H |].
  exact (proj2 (C10_brush_radius_invariant
                  (with_editModeActive true newSelectionManager) 1
                  (ofZ 120)) H).
Defined.

(** ** Pruning *)

Section Pruning.

Local Open Scope Q_scope.

Lemma Qsq_nonneg (x : Q) : 0 <= x * x.
Proof.
  destruct (Qlt_le_dec x 0).
  - assert (x * x == (- x) * (- x)) as E by ring.
    rewrite E. apply Qmult_le_0_compat; lra.
  - apply Qmult_le_0_compat; lra.
Qed.

Lemma Qsq_le (a b : Q) : 0 <= a <= b -> a * a <= b * b.
Proof. intros H. apply Qmult_le_compat_nonneg; exact H. Qed.

Lemma Qsq_lt (a b : Q) : 0 <= a < b -> a * a < b * b.
Proof.
  intros [Ha Hab].
  apply Qle_lt_trans with (a * b).
  - rewrite (Qmult_comm a b). apply Qmult_le_compat_r; lra.
  - apply Qmult_lt_compat_r; lra.
Qed.

(** The clamped coordinate is at least as close to the brush as any
    coordinate of the interval. *)
Lemma clamp_closest (lo hi c p : Q) :
  lo <= p <= hi ->
  exists cl,
    Math_max (Finite lo) (Math_min (Finite c) (Finite hi)) = Finite cl
    /\ (cl - c) * (cl - c) <= (p - c) * (p - c).
Proof.
  intros [Hlo Hhi]. unfold Math_min, Math_max, le.
  destruct (Qle_bool c hi) eqn:E1.
  - apply Qle_bool_iff in E1.
    destruct (Qle_bool lo c) eqn:E2.
    + exists c. split; [reflexivity |].
      pose proof (Qsq_nonneg (p - c)). lra.
    + apply Qle_bool_false in E2. exists lo. split; [reflexivity |].
      apply Qsq_le. lra.
  - apply Qle_bool_false in E1.
    destruct (Qle_bool lo hi) eqn:E2.
    + exists hi. split; [reflexivity |].
      pose proof (Qsq_le (c - hi) (c - p)). lra.
    + apply Qle_bool_false in E2. lra.
Qed.

Lemma inside_fvec (x0 y0 z0 x1 y1 z1 px py pz : Q) :
  inside (Box3 (fvec x0 y0 z0) (fvec x1 y1 z1)) (fvec px py pz) = true ->
  x0 <= px <= x1 /\ y0 <= py <= y1 /\ z0 <= pz <= z1.
Proof.
  unfold inside; simpl. intros H.
  repeat (apply andb_prop in H as [H ?]).
  repeat match goal with
         | H : Qle_bool _ _ = true |- _ => apply Qle_bool_iff in H
         end.
  tauto.
Qed.

(** What a negative answer of the pruning test means. *)
Lemma prune_cases (x0 y0 z0 x1 y1 z1 cx cy cz r : Q) :
  bboxIntersectsQuery (fvec cx cy cz) (Finite r)
    (Some (Box3 (fvec x0 y0 z0) (fvec x1 y1 z1))) = false ->
  exists clx cly,
    Math_max (Finite x0) (Math_min (Finite cx) (Finite x1)) = Finite clx
    /\ Math_max (Finite y0) (Math_min (Finite cy) (Finite y1)) = Finite cly
    /\ (r * r < (clx - cx) * (clx - cx) + (cly - cy) * (cly - cy)
        \/ cz + r < z0).
Proof.
  unfold bboxIntersectsQuery, fvec. cbn [vx vy vz bmin bmax].
  assert (exists clx,
             Math_max (Finite x0) (Math_min (Finite cx) (Finite x1))
             = Finite clx) as [clx Ex].
  { unfold Math_max, Math_min, le.
    destruct (Qle_bool cx x1); destruct (Qle_bool x0 _); eauto. }
  assert (exists cly,
             Math_max (Finite y0) (Math_min (Finite cy) (Finite y1))
             = Finite cly) as [cly Ey].
  { unfold Math_max, Math_min, le.
    destruct (Qle_bool cy y1); destruct (Qle_bool y0 _); eauto. }
  rewrite Ex, Ey. unfold gt, lt. cbn [sub add neg mul].
  fold (clx - cx)%Q (cly - cy)%Q.
  intros H. exists clx, cly. split; [reflexivity |]. split; [reflexivity |].
  destruct (Qle_bool ((clx - cx) * (clx - cx) + (cly - cy) * (cly - cy))
                     (r * r)) eqn:E1; cbn [negb] in H.
  - destruct (Qle_bool z0 (cz + r)) eqn:E2; cbn [negb] in H;
      [discriminate |].
    right. now apply Qle_bool_false.
  - left. now apply Qle_bool_false.
Qed.

End Pruning.

(** *** Pruning under a rounding that is monotone, idempotent and keeps
    zero *)

Section RoundedPruning.

Local Open Scope Q_scope.

Variable fl : Q -> Q.
Hypothesis fl_mono : forall x y : Q, x <= y -> fl x <= fl y.
Hypothesis fl_idem : forall x : Q, fl (fl x) == fl x.
Hypothesis fl_zero : fl 0 == 0.

Lemma fl_eq (x y : Q) : x == y -> fl x == fl y.
Proof.
  intros E. apply Qle_antisym; apply fl_mono; rewrite E; apply Qle_refl.
Qed.

Lemma fl_nonneg (x : Q) : 0 <= x -> 0 <= fl x.
Proof. intros H. rewrite <- fl_zero. now apply fl_mono. Qed.

Lemma fl_nonpos (x : Q) : x <= 0 -> fl x <= 0.
Proof. intros H. rewrite <- fl_zero. now apply fl_mono. Qed.

(** The rounded square of a rounded difference. *)
Definition term (a c : Q) : Q := fl (fl (a - c) * fl (a - c)).

Lemma term_nonneg (a c : Q) : 0 <= term a c.
Proof. apply fl_nonneg, Qsq_nonneg. Qed.

Lemma sq_mono_neg (a b : Q) : b <= a <= 0 -> a * a <= b * b.
Proof.
  intros H. assert (a * a == (- a) * (- a)) as -> by ring.
  assert (b * b == (- b) * (- b)) as -> by ring.
  apply Qsq_le. lra.
Qed.

(** The clamped coordinate gives the least term of the interval. *)
Lemma term_closest (lo hi c p : Q) :
  lo <= p <= hi ->
  exists cl,
    Math_max (Finite lo) (Math_min (Finite c) (Finite hi)) = Finite cl
    /\ term cl c <= term p c.
Proof.
  intros [Hlo Hhi]. unfold Math_min, Math_max, le, term.
  destruct (Qle_bool c hi) eqn:E1.
  - apply Qle_bool_iff in E1.
    destruct (Qle_bool lo c) eqn:E2.
    + exists c. split; [reflexivity |].
      apply fl_mono.
      assert (fl (c - c) == 0) as ->.
      { rewrite <- fl_zero. apply fl_eq. ring. }
      pose proof (Qsq_nonneg (fl (p - c))). lra.
    + apply Qle_bool_false in E2. exists lo. split; [reflexivity |].
      apply fl_mono, Qsq_le. split.
      * apply fl_nonneg. lra.
      * apply fl_mono. lra.
  - apply Qle_bool_false in E1.
    destruct (Qle_bool lo hi) eqn:E2.
    + exists hi. split; [reflexivity |].
      apply fl_mono, sq_mono_neg. split.
      * apply fl_mono. lra.
      * apply fl_nonpos. lra.
    + apply Qle_bool_false in E2. lra.
Qed.


Lemma rounded_prune_cases (x0 y0 z0 x1 y1 z1 cx cy cz r : Q) :
  Rounded.bboxIntersectsQuery fl (fvec cx cy cz) (Finite r)
    (Some (Box3 (fvec x0 y0 z0) (fvec x1 y1 z1))) = false ->
  exists clx cly,
    Math_max (Finite x0) (Math_min (Finite cx) (Finite x1)) = Finite clx
    /\ Math_max (Finite y0) (Math_min (Finite cy) (Finite y1)) = Finite cly
    /\ (fl (r * r) < fl (term clx cx + term cly cy)
        \/ fl (cz + r) < z0).
Proof.
  unfold Rounded.bboxIntersectsQuery, fvec. cbn [vx vy vz bmin bmax].
  assert (exists clx,
             Math_max (Finite x0) (Math_min (Finite cx) (Finite x1))
             = Finite clx) as [clx Ex].
  { unfold Math_max, Math_min, le.
    destruct (Qle_bool cx x1); destruct (Qle_bool x0 _); eauto. }
  assert (exists cly,
             Math_max (Finite y0) (Math_min (Finite cy) (Finite y1))
             = Finite cly) as [cly Ey].
  { unfold Math_max, Math_min, le.
    destruct (Qle_bool cy y1); destruct (Qle_bool y0 _); eauto. }
  rewrite Ex, Ey. unfold gt, lt, Rounded.add, Rounded.sub, Rounded.mul.
  cbn [sub add neg mul Rounded.round].
  fold (clx - cx)%Q (cly - cy)%Q. fold (term clx cx) (term cly cy).
  intros H. exists clx, cly. split; [reflexivity |]. split; [reflexivity |].
  destruct (Qle_bool (fl (term clx cx + term cly cy)) (fl (r * r))) eqn:E1;
    cbn [negb] in H.
  - destruct (Qle_bool z0 (fl (cz + r))) eqn:E2; cbn [negb] in H;
      [discriminate |].
    right. now apply Qle_bool_false.
  - left. now apply Qle_bool_false.
Qed.

Lemma rounded_pruning (x0 y0 z0 x1 y1 z1 cx cy cz r px py pz : Q) :
  0 <= r -> fl r == r -> fl cz == cz -> fl pz == pz ->
  Rounded.bboxIntersectsQuery fl (fvec cx cy cz) (Finite r)
    (Some (Box3 (fvec x0 y0 z0) (fvec x1 y1 z1))) = false ->
  inside (Box3 (fvec x0 y0 z0) (fvec x1 y1 z1)) (fvec px py pz) = true ->
  lt (Rounded.distanceToSquared fl (fvec px py pz) (fvec cx cy cz))
     (Rounded.mul fl (Finite r) (Finite r)) = false
  /\ Rounded.classifyPoint fl (fvec cx cy cz) (Finite r) (fvec px py pz)
     = NoOverlay.
Proof.
  intros Hr Fr Fcz Fpz Hprune Hin.
  apply inside_fvec in Hin as (Hx & Hy & Hz).
  apply rounded_prune_cases in Hprune as (clx & cly & Ex & Ey & Hprune).
  pose proof (term_closest x0 x1 cx px Hx) as (clx' & Ex' & Hclx).
  pose proof (term_closest y0 y1 cy py Hy) as (cly' & Ey' & Hcly).
  rewrite Ex in Ex'; rewrite Ey in Ey'.
  injection Ex' as <-; injection Ey' as <-.
  unfold Rounded.classifyPoint, Rounded.distanceToSquared, gt, lt, fvec,
    Rounded.add, Rounded.sub, Rounded.mul.
  cbn [vx vy vz sub add neg mul Rounded.round].
  fold (px - cx)%Q (py - cy)%Q (pz - cz)%Q.
  fold (term px cx) (term py cy) (term pz cz).
  set (dxy := fl (term px cx + term py cy)).
  set (d3 := fl (dxy + term pz cz)).
  pose proof (term_nonneg px cx) as Tx.
  pose proof (term_nonneg py cy) as Ty.
  pose proof (term_nonneg pz cz) as Tz.
  assert (0 <= dxy) as Hdxy by (apply fl_nonneg; lra).
  assert (dxy <= d3) as H1.
  { assert (fl dxy == dxy) as E by apply fl_idem.
    assert (fl dxy <= d3) as H by (apply fl_mono; lra).
    lra. }
  assert (term pz cz <= d3) as H2.
  { assert (fl (term pz cz) == term pz cz) as E by apply fl_idem.
    assert (fl (term pz cz) <= d3) as H by (apply fl_mono; lra).
    lra. }
  assert (fl (term clx cx + term cly cy) <= dxy) as H3
    by (apply fl_mono; lra).
  assert (fl (cz + r) < z0 -> fl (r * r) <= term pz cz /\ cz < pz) as H4.
  { intros Hz0.
    assert (cz <= fl (cz + r)) as Hc.
    { rewrite <- Fcz at 1. apply fl_mono. lra. }
    split; [| lra].
    assert (r <= fl (pz - cz)) as Hdz.
    { destruct (Qlt_le_dec (fl (pz - cz)) r) as [Hlt | Hge]; [| exact Hge].
      exfalso.
      assert (pz - cz < r) as Hreal.
      { destruct (Qlt_le_dec (pz - cz) r) as [H | H]; [exact H |].
        apply fl_mono in H. rewrite Fr in H. lra. }
      assert (pz <= fl (cz + r)) as Hp.
      { rewrite <- Fpz. apply fl_mono. lra. }
      lra. }
    unfold term. apply fl_mono, Qsq_le. lra. }
  split.
  - apply negb_false_iff, Qle_bool_iff.
    destruct Hprune as [Hxy | Hzr]; [lra |].
    destruct (H4 Hzr). lra.
  - destruct (Qle_bool dxy (fl (r * r))) eqn:E1; cbn [negb]; [| reflexivity].
    apply Qle_bool_iff in E1.
    destruct Hprune as [Hxy | Hzr]; [lra |].
    destruct (H4 Hzr) as [H5 H6].
    destruct (Qle_bool (fl (r * r)) d3) eqn:E2; cbn [negb].
    + destruct (Qle_bool cz pz) eqn:E3; cbn [negb]; [reflexivity |].
      apply Qle_bool_false in E3. lra.
    + apply Qle_bool_false in E2. lra.
Qed.

End RoundedPruning.

Lemma rounded_exact :
  (forall x : num, Rounded.round (fun q => q) x = x)
  /\ (forall brush radius box,
         Rounded.bboxIntersectsQuery (fun q => q) brush radius box
         = bboxIntersectsQuery brush radius box)
  /\ (forall brush radius p,
         Rounded.classifyPoint (fun q => q) brush radius p
         = classifyPoint brush radius p)
  /\ (forall p c,
         Rounded.distanceToSquared (fun q => q) p c = distanceToSquared p c)
  /\ (forall c r p,
         Rounded.containsPoint (fun q => q) c r p = containsPoint c r p).
Proof.
  assert (forall x : num, Rounded.round (fun q => q) x = x) as R
    by (intros []; reflexivity).
  split; [exact R |].
  unfold Rounded.bboxIntersectsQuery, Rounded.classifyPoint,
    Rounded.containsPoint, Rounded.distanceToSquared,
    Rounded.add, Rounded.sub, Rounded.mul.
  repeat split; intros; rewrite ?R; try reflexivity.
  destruct box; rewrite ?R; reflexivity.
Qed.

(** C3 as stated fails in the arithmetic of the program.  The brush is at
    (0, 0, -0.1875) and has radius 0.25, so that [brushZ + radius] is
    0.0625; the box goes from (-1, -1, z) to (1, 1, 1), where z is the
    double next above 0.0625, that is 0.0625 + 2^-56.  Its minimum z
    exceeds [brushZ + radius] and the box is pruned.  For its point
    (0, 0, z) the difference [z - brushZ] is rounded to 0.25, the squared
    distance to 0.0625, and [containsPoint] answers true: the pruned box
    holds a point that passes the containment test.  The overlay loop,
    whose test is strict, shows nothing of that point, and in exact
    arithmetic the point is not contained. *)
Lemma C3_rounding_counterexample :
  let brush := Double.Vec3 0 0 (-0.1875) in
  let radius := 0.25%float in
  let z := 0x1.0000000000001p-4%float in
  let box := Double.Box3 (Double.Vec3 (-1) (-1) z) (Double.Vec3 1 1 1) in
  let p := Double.Vec3 0 0 z in
  Prim2SF z = S754_finite false (2 ^ 52 + 1) (-56)
  /\ (Double.vz brush + radius)%float = 0.0625%float
  /\ (Double.vz p - Double.vz brush)%float = 0.25%float
  /\ Double.bboxIntersectsQuery brush radius (Some box) = false
  /\ Double.inside box p = true
  /\ Double.containsPoint brush radius p = true
  /\ Double.classifyPoint brush radius p = NoOverlay
  /\ containsPoint (fvec 0 0 (- (3 # 16))) (Finite (1 # 4))
       (fvec 0 0 ((1 # 16) + (1 # 2 ^ 56))) = false.
Proof.
  cbv zeta. repeat split; vm_compute; reflexivity.
Qed.

(** C3, amended. When [bboxIntersectsQuery] answers false for a box, no
    point of the box is strictly inside the brush sphere (squared distance
    to the centre below the squared radius), and the overlay loop, the one
    place where boxes are pruned, would have put none of them in the
    highlight or the shadow: skipping the box loses nothing of the
    overlay.  This holds in exact arithmetic and, more generally, when
    every operation is rounded by a rounding that is monotone and
    idempotent and keeps zero, as rounding to the nearest double is, the
    radius and the z coordinates of brush and point being numbers the
    rounding keeps; the exact tests are the case of the identity.  The
    radius of a sphere is not negative. *)
Theorem C3_pruning_sound :
  (forall (x0 y0 z0 x1 y1 z1 cx cy cz r px py pz : Q),
      (0 <= r)%Q ->
      bboxIntersectsQuery (fvec cx cy cz) (Finite r)
        (Some (Box3 (fvec x0 y0 z0) (fvec x1 y1 z1))) = false ->
      inside (Box3 (fvec x0 y0 z0) (fvec x1 y1 z1)) (fvec px py pz) = true ->
      lt (distanceToSquared (fvec px py pz) (fvec cx cy cz))
         (Finite r * Finite r)%num = false
      /\ classifyPoint (fvec cx cy cz) (Finite r) (fvec px py pz) = NoOverlay)
  /\ (forall fl : Q -> Q,
         (forall x y : Q, (x <= y)%Q -> (fl x <= fl y)%Q) ->
         (forall x : Q, (fl (fl x) == fl x)%Q) ->
         (fl 0 == 0)%Q ->
         forall (x0 y0 z0 x1 y1 z1 cx cy cz r px py pz : Q),
           (0 <= r)%Q ->
           (fl r == r)%Q -> (fl cz == cz)%Q -> (fl pz == pz)%Q ->
           Rounded.bboxIntersectsQuery fl (fvec cx cy cz) (Finite r)
             (Some (Box3 (fvec x0 y0 z0) (fvec x1 y1 z1))) = false ->
           inside (Box3 (fvec x0 y0 z0) (fvec x1 y1 z1)) (fvec px py pz)
           = true ->
           lt (Rounded.distanceToSquared fl (fvec px py pz) (fvec cx cy cz))
              (Rounded.mul fl (Finite r) (Finite r)) = false
           /\ Rounded.classifyPoint fl (fvec cx cy cz) (Finite r)
                (fvec px py pz) = NoOverlay)
  /\ (forall (brush : vec3) (radius : num) (box : option box3) (p : vec3),
         Rounded.bboxIntersectsQuery (fun q => q) brush radius box
         = bboxIntersectsQuery brush radius box
         /\ Rounded.classifyPoint (fun q => q) brush radius p
            = classifyPoint brush radius p
         /\ Rounded.distanceToSquared (fun q => q) p brush
            = distanceToSquared p brush
         /\ Rounded.containsPoint (fun q => q) brush radius p
            = containsPoint brush radius p).
Proof.
  assert (forall fl : Q -> Q,
             (forall x y : Q, (x <= y)%Q -> (fl x <= fl y)%Q) ->
             (forall x : Q, (fl (fl x) == fl x)%Q) ->
             (fl 0 == 0)%Q ->
             forall (x0 y0 z0 x1 y1 z1 cx cy cz r px py pz : Q),
               (0 <= r)%Q ->
               (fl r == r)%Q -> (fl cz == cz)%Q -> (fl pz == pz)%Q ->
               Rounded.bboxIntersectsQuery fl (fvec cx cy cz) (Finite r)
                 (Some (Box3 (fvec x0 y0 z0) (fvec x1 y1 z1))) = false ->
               inside (Box3 (fvec x0 y0 z0) (fvec x1 y1 z1)) (fvec px py pz)
               = true ->
               lt (Rounded.distanceToSquared fl (fvec px py pz)
                     (fvec cx cy cz))
                  (Rounded.mul fl (Finite r) (Finite r)) = false
               /\ Rounded.classifyPoint fl (fvec cx cy cz) (Finite r)
                    (fvec px py pz) = NoOverlay) as Hrounded.
  { intros fl Hmono Hidem Hzero x0 y0 z0 x1 y1 z1 cx cy cz r px py pz
      Hr Fr Fcz Fpz Hprune Hin.
    eapply rounded_pruning; eassumption. }
  destruct rounded_exact as (_ & Eb & Ec & Ed & Ep).
  split; [| split; [exact Hrounded |]].
  - intros x0 y0 z0 x1 y1 z1 cx cy cz r px py pz Hr Hprune Hin.
    rewrite <- Eb in Hprune. rewrite <- Ec, <- Ed.
    exact (Hrounded (fun q => q) (fun x y H => H) (fun x => Qeq_refl x)
             (Qeq_refl 0) x0 y0 z0 x1 y1 z1 cx cy cz r px py pz Hr
             (Qeq_refl r) (Qeq_refl cz) (Qeq_refl pz) Hprune Hin).
  - intros brush radius box p. auto.
Qed.

Lemma C3_pruning_sound_witness :
  ((0 <= 1)%Q
   /\ bboxIntersectsQuery (fvec 0 0 0) (Finite 1)
        (Some (Box3 (fvec 2 2 2) (fvec 3 3 3))) = false
   /\ inside (Box3 (fvec 2 2 2) (fvec 3 3 3)) (fvec 2 3 2) = true
   /\ lt (distanceToSquared (fvec 2 3 2) (fvec 0 0 0))
         (Finite 1 * Finite 1)%num = false
   /\ classifyPoint (fvec 0 0 0) (Finite 1) (fvec 2 3 2) = NoOverlay)
  /\ (let fl := fun q : Q => inject_Z (Qfloor q) in
      Rounded.bboxIntersectsQuery fl (fvec (1 # 2) 0 0) (Finite 1)
        (Some (Box3 (fvec 2 2 2) (fvec 3 3 3))) = false
      /\ inside (Box3 (fvec 2 2 2) (fvec 3 3 3)) (fvec (5 # 2) 3 2) = true
      /\ lt (Rounded.distanceToSquared fl (fvec (5 # 2) 3 2)
               (fvec (1 # 2) 0 0))
            (Rounded.mul fl (Finite 1) (Finite 1)) = false
      /\ Rounded.classifyPoint fl (fvec (1 # 2) 0 0) (Finite 1)
           (fvec (5 # 2) 3 2) = NoOverlay).
Proof.
  assert (0 <= 1)%Q as H0 by (vm_compute; discriminate).
  split.
  - split; [exact H0 |]. split; [reflexivity |]. split; [reflexivity |].
    exact ((proj1 C3_pruning_sound 2 2 2 3 3 3 0 0 0 1 2 3 2)%Q H0
             eq_refl eq_refl).
  - cbv zeta. split; [reflexivity |]. split; [reflexivity |].
    refine ((proj1 (proj2 C3_pruning_sound)
               (fun q : Q => inject_Z (Qfloor q)) _ _ _
               2 2 2 3 3 3 (1 # 2) 0 0 1 (5 # 2) 3 2)%Q H0 _ _ _
              eq_refl eq_refl).
    + intros x y Hxy. rewrite <- Zle_Qle. apply Qfloor_resp_le, Hxy.
    + intros x. rewrite Qfloor_Z. reflexivity.
    + reflexivity.
    + reflexivity.
    + reflexivity.
    + reflexivity.
Defined.


(** ** Point records *)

Section Codec.

Lemma loop_rounds_spec (len d i : nat) :
  (0 < d)%nat -> (i < loop_rounds len d)%nat <-> (i * d < len)%nat.
Proof.
  intros Hd. unfold loop_rounds. split.
  - intros H.
    assert (S i * d <= len + (d - 1))%nat as H1.
    { transitivity (((len + (d - 1)) / d) * d)%nat.
      - apply Nat.mul_le_mono_r. lia.
      - rewrite Nat.mul_comm. apply Nat.Div0.mul_div_le. }
    simpl in H1. lia.
  - intros H. apply Nat.div_le_lower_bound; lia.
Qed.

(** The rounds are those of the condition [i < len / d] on numbers. *)
Lemma loop_rounds_numbers (len i : nat) (d : positive) :
  (i < loop_rounds len (Pos.to_nat d))%nat <->
  (inject_Z (Z.of_nat i) < Z.of_nat len # d)%Q.
Proof.
  rewrite loop_rounds_spec by lia.
  unfold Qlt; simpl. nia.
Qed.

Lemma loop_rounds_exact (n : nat) : loop_rounds (n * 16) 16 = n.
Proof.
  unfold loop_rounds. symmetry.
  apply Nat.div_unique with (r := 15%nat); lia.
Qed.

Lemma loop_rounds_partial (n r : nat) :
  (1 <= r <= 15)%nat -> loop_rounds (n * 16 + r) 16 = S n.
Proof.
  intros Hr. unfold loop_rounds. symmetry.
  apply Nat.div_unique with (r := (r - 1)%nat); lia.
Qed.

Lemma foldM_app {A B : Type} (f : A -> B -> completion A)
    (l1 l2 : list B) (a : A) :
  foldM f (l1 ++ l2) a = (let! a' := foldM f l1 a in foldM f l2 a').
Proof.
  revert a; induction l1 as [| b l1 IH]; intros a; simpl.
  - reflexivity.
  - destruct (f a b); simpl; [apply IH | reflexivity].
Qed.

Lemma lor_disjoint (a c k : Z) :
  0 <= k -> 0 <= a < 2 ^ k -> Z.lor a (c * 2 ^ k) = a + c * 2 ^ k.
Proof.
  intros Hk Ha.
  rewrite <- (Z.add_lor_land a (c * 2 ^ k)).
  assert (Z.land a (c * 2 ^ k) = 0) as ->; [| lia].
  apply Z.bits_inj'. intros n Hn.
  rewrite Z.land_spec, Z.bits_0.
  destruct (Z.lt_ge_cases n k) as [Hlt | Hge].
  - rewrite Z.mul_pow2_bits_low by lia. apply andb_false_r.
  - destruct (Z.eq_dec a 0) as [-> | Hne]; [now rewrite Z.bits_0 |].
    rewrite (Z.bits_above_log2 a n); [reflexivity | lia |].
    apply Z.log2_lt_pow2; [lia |].
    apply Z.lt_le_trans with (2 ^ k); [lia |].
    apply Z.pow_le_mono_r; lia.
Qed.

(** The bit operations of [int32_le] compute the number whose base-256
    digits are the four bytes, least significant first, read in two's
    complement. *)
Lemma int32_le_value (b0 b1 b2 b3 : Z) :
  0 <= b0 < 256 -> 0 <= b1 < 256 -> 0 <= b2 < 256 -> 0 <= b3 < 256 ->
  int32_le b0 b1 b2 b3
  = (if b0 + 256 * b1 + 65536 * b2 + 16777216 * b3 <? 2 ^ 31
     then b0 + 256 * b1 + 65536 * b2 + 16777216 * b3
     else b0 + 256 * b1 + 65536 * b2 + 16777216 * b3 - 2 ^ 32)
  /\ - 2 ^ 31 <= int32_le b0 b1 b2 b3 < 2 ^ 31.
Proof.
  intros H0 H1 H2 H3. unfold int32_le.
  rewrite !Z.shiftl_mul_pow2 by lia.
  rewrite (lor_disjoint (b2 * 2 ^ 16) b3 24) by lia.
  replace (b2 * 2 ^ 16 + b3 * 2 ^ 24) with ((b2 + b3 * 2 ^ 8) * 2 ^ 16) by lia.
  rewrite (lor_disjoint (b1 * 2 ^ 8) _ 16) by lia.
  replace (b1 * 2 ^ 8 + (b2 + b3 * 2 ^ 8) * 2 ^ 16)
    with ((b1 + b2 * 2 ^ 8 + b3 * 2 ^ 16) * 2 ^ 8) by lia.
  rewrite (lor_disjoint b0 _ 8) by lia.
  replace (b0 + (b1 + b2 * 2 ^ 8 + b3 * 2 ^ 16) * 2 ^ 8)
    with (b0 + 256 * b1 + 65536 * b2 + 16777216 * b3) by lia.
  split; [reflexivity |].
  destruct (Z.ltb_spec (b0 + 256 * b1 + 65536 * b2 + 16777216 * b3) (2 ^ 31));
    lia.
Qed.

Lemma byte_val_range (b : Byte.byte) : 0 <= byte_val b < 256.
Proof. destruct b; vm_compute; split; congruence. Qed.

Lemma byteAt_range (rec : list Byte.byte) (k : nat) : 0 <= byteAt rec k < 256.
Proof.
  unfold byteAt. destruct (rec !! k); cbn; [apply byte_val_range | lia].
Qed.

Variable view : list Byte.byte.

Lemma view_byte (i k : nat) :
  (i * 16 + 16 <= length view)%nat -> (k < 16)%nat ->
  exists b, view !! (i * 16 + k)%nat = Some b
            /\ byteAt (recordAt view i) k = byte_val b.
Proof.
  intros Hlen Hk.
  destruct (lookup_lt_is_Some_2 view (i * 16 + k)%nat) as [b Hb]; [lia |].
  exists b. split; [exact Hb |].
  unfold byteAt, recordAt.
  rewrite lookup_take_lt by exact Hk.
  rewrite lookup_drop, Hb. reflexivity.
Qed.

Lemma getUint8_record (i k o : nat) :
  (i * 16 + 16 <= length view)%nat -> (k < 16)%nat -> o = (i * 16 + k)%nat ->
  getUint8 view o = Normal (byteAt (recordAt view i) k).
Proof.
  intros Hlen Hk ->. unfold getUint8.
  destruct (view_byte i k Hlen Hk) as (b & -> & ->). reflexivity.
Qed.

Lemma getInt32_record (i k o : nat) :
  (i * 16 + 16 <= length view)%nat -> (k + 3 < 16)%nat ->
  o = (i * 16 + k)%nat ->
  getInt32 view o =
  Normal (int32_le (byteAt (recordAt view i) k) (byteAt (recordAt view i) (k + 1))
                   (byteAt (recordAt view i) (k + 2)) (byteAt (recordAt view i) (k + 3))).
Proof.
  intros Hlen Hk ->. unfold getInt32.
  rewrite <- !Nat.add_assoc.
  destruct (view_byte i k Hlen) as (b0 & -> & ->); [lia |].
  destruct (view_byte i (k + 1) Hlen) as (b1 & -> & ->); [lia |].
  destruct (view_byte i (k + 2) Hlen) as (b2 & -> & ->); [lia |].
  destruct (view_byte i (k + 3) Hlen) as (b3 & -> & ->); [lia |].
  reflexivity.
Qed.

Lemma getInt32_cases (o : nat) :
  getInt32 view o = Throw RangeError \/ exists z, getInt32 view o = Normal z.
Proof.
  unfold getInt32.
  destruct (view !! o), (view !! (o + 1)%nat), (view !! (o + 2)%nat),
    (view !! (o + 3)%nat); eauto.
Qed.

Lemma getUint8_cases (o : nat) :
  getUint8 view o = Throw RangeError \/ exists z, getUint8 view o = Normal z.
Proof. unfold getUint8. destruct (view !! o); eauto. Qed.

Variables (scale : num) (box : bbox) (potreeOffset : option vec3).

(** A round that finds its 16 bytes appends the decoded record. *)
Lemma readPoint_ok (acc : list num * list num) (i : nat) :
  (i * 16 + 16 <= length view)%nat ->
  readPoint view scale box potreeOffset acc i
  = Normal (fst acc ++ positionWith scale box potreeOffset (recordAt view i),
            snd acc ++ decodedColor (recordAt view i)).
Proof.
  intros Hlen. unfold readPoint.
  rewrite (getInt32_record i 0) by (exact Hlen || lia).
  rewrite (getInt32_record i 4) by (exact Hlen || lia).
  rewrite (getInt32_record i 8) by (exact Hlen || lia).
  cbn [bind].
  rewrite (getUint8_record i 12) by (exact Hlen || lia).
  rewrite (getUint8_record i 13) by (exact Hlen || lia).
  rewrite (getUint8_record i 14) by (exact Hlen || lia).
  destruct potreeOffset; reflexivity.
Qed.

(** A round that does not find byte 14 of its record throws. *)
Lemma readPoint_throw (acc : list num * list num) (i : nat) :
  (length view <= i * 16 + 14)%nat ->
  readPoint view scale box potreeOffset acc i = Throw RangeError.
Proof.
  intros Hlen. unfold readPoint.
  destruct (getInt32_cases (i * 16)) as [-> | [x ->]]; [reflexivity |].
  destruct (getInt32_cases (i * 16 + 4)) as [-> | [y ->]]; [reflexivity |].
  destruct (getInt32_cases (i * 16 + 8)) as [-> | [z ->]]; [reflexivity |].
  cbn [bind].
  destruct (getUint8_cases (i * 16 + 12)) as [-> | [r ->]];
    [destruct potreeOffset; reflexivity |].
  destruct (getUint8_cases (i * 16 + 13)) as [-> | [g ->]];
    [destruct potreeOffset; reflexivity |].
  assert (getUint8 view (i * 16 + 14) = Throw RangeError) as ->.
  { unfold getUint8. now rewrite lookup_ge_None_2. }
  destruct potreeOffset; reflexivity.
Qed.

Lemma records_length (n : nat) (buffer : list Byte.byte) :
  length (records n buffer) = n.
Proof.
  revert buffer; induction n as [| n IH]; intros buffer; simpl;
    [reflexivity | now rewrite IH].
Qed.

Lemma foldM_records (n start : nat) (acc : list num * list num) :
  ((start + n) * 16 <= length view)%nat ->
  foldM (readPoint view scale box potreeOffset) (seq start n) acc
  = Normal
      (fst acc ++ flat_map (positionWith scale box potreeOffset)
                    (records n (drop (start * 16) view)),
       snd acc ++ flat_map decodedColor (records n (drop (start * 16) view))).
Proof.
  revert start acc; induction n as [| n IH]; intros start acc Hlen.
  - simpl. rewrite !app_nil_r. now destruct acc.
  - cbn [seq foldM records flat_map].
    rewrite readPoint_ok by lia. cbn [bind].
    rewrite IH by lia. cbn [fst snd].
    rewrite drop_drop, <- !app_assoc.
    replace (start * 16 + 16)%nat with (S start * 16)%nat by lia.
    reflexivity.
Qed.

(** A buffer of whole records decodes to its records, in order. *)
Lemma readPoints_whole (n : nat) :
  length view = (n * 16)%nat ->
  readPoints view scale box potreeOffset
  = Normal (flat_map (positionWith scale box potreeOffset) (records n view),
            flat_map decodedColor (records n view)).
Proof.
  intros Hlen. unfold readPoints.
  rewrite Hlen, loop_rounds_exact, foldM_records by (simpl; lia).
  reflexivity.
Qed.

(** A last record of 1 to 14 bytes makes the loop throw. *)
Lemma readPoints_truncated (n r : nat) :
  length view = (n * 16 + r)%nat -> (1 <= r <= 14)%nat ->
  readPoints view scale box potreeOffset = Throw RangeError.
Proof.
  intros Hlen Hr. unfold readPoints.
  rewrite Hlen, loop_rounds_partial by lia.
  rewrite seq_S, foldM_app, foldM_records by (simpl; lia).
  cbn [bind foldM Nat.add].
  rewrite readPoint_throw by lia. reflexivity.
Qed.

End Codec.


(** ** Loading a node *)

Section Loader.

Variable fetch : string -> response.

Lemma load_unloaded (nodeName : string) (v : Viewer) :
  unloaded nodeName v ->
  loadPotreeNodeIfExists fetch nodeName v
  = match tryLoad (fetch nodeName) nodeName (startLoading nodeName v) with
    | Normal v2 => v2
    | Throw _ => markFailed nodeName (startLoading nodeName v)
    end.
Proof.
  intros (H1 & H2 & H3). unfold loadPotreeNodeIfExists.
  case_decide as H; [tauto | reflexivity].
Qed.

Lemma load_processed (nodeName : string) (v : Viewer) :
  ~ unloaded nodeName v -> loadPotreeNodeIfExists fetch nodeName v = v.
Proof.
  intros Hn. unfold loadPotreeNodeIfExists.
  case_decide as H; [reflexivity |].
  exfalso. apply Hn. unfold unloaded. tauto.
Qed.

(** A buffer of whole records is installed as the node, decoded against
    the box of the node. *)
Lemma load_whole (nodeName : string) (v : Viewer) (md : metadata)
    (buffer : list Byte.byte) (n : nat) :
  unloaded nodeName v -> potreeMetadata v = Some md ->
  fetch nodeName = Ok buffer -> length buffer = (n * 16)%nat ->
  exists nodeBox,
    getNodeBoundingBox (Some md) nodeName = Normal nodeBox
    /\ loadPotreeNodeIfExists fetch nodeName v
       = installNode nodeName
           (flat_map (positionWith (scale md) nodeBox (potreeOffset v))
                     (records n buffer))
           (flat_map decodedColor (records n buffer))
           (startLoading nodeName v).
Proof.
  intros Hun Hmd Hfetch Hlen.
  rewrite load_unloaded, Hfetch by exact Hun.
  unfold tryLoad. cbn [startLoading potreeMetadata potreeOffset].
  rewrite Hmd. cbn [bind].
  rewrite getNodeBoundingBox_total. cbn [bind].
  eexists; split; [reflexivity |].
  rewrite (readPoints_whole _ _ _ _ n) by exact Hlen.
  reflexivity.
Qed.

(** A buffer whose last record has 1 to 14 bytes: the node goes from
    loading to failed and nothing else changes. *)
Lemma load_truncated (nodeName : string) (v : Viewer)
    (buffer : list Byte.byte) (n r : nat) :
  unloaded nodeName v -> fetch nodeName = Ok buffer ->
  length buffer = (n * 16 + r)%nat -> (1 <= r <= 14)%nat ->
  loadPotreeNodeIfExists fetch nodeName v
  = markFailed nodeName (startLoading nodeName v).
Proof.
  intros Hun Hfetch Hlen Hr.
  rewrite load_unloaded, Hfetch by exact Hun.
  unfold tryLoad. cbn [startLoading potreeMetadata potreeOffset].
  destruct (potreeMetadata v) as [md |]; cbn [bind]; [| reflexivity].
  rewrite getNodeBoundingBox_total. cbn [bind].
  rewrite (readPoints_truncated _ _ _ _ n r) by assumption.
  reflexivity.
Qed.

End Loader.

Lemma byteAt_app (rec : list Byte.byte) (a : Byte.byte) (k : nat) :
  (k < length rec)%nat -> byteAt (rec ++ [a]) k = byteAt rec k.
Proof. intros H. unfold byteAt. now rewrite lookup_app_l. Qed.

(** C2. A buffer of N records of 16 bytes decodes to exactly N positions
    and N colours: position i is, axis by axis, the little-endian signed
    32-bit integer of record i times the scale plus the minimum of the node
    box plus the world offset, colour i is each of bytes 12, 13, 14 of the
    record over 255, and byte 15 plays no part; the integer is the
    two's complement reading of the four bytes, least significant first.
    The loader computes these arrays against the box of the node itself
    and makes the node of them through [Float32Array], so that the node
    holds each number rounded to single precision.  The record
    (100, 0, 0, 255, 0, 0, 0) with scale 0.01 and zero minimum and offset
    gives position (1, 0, 0) and colour (1, 0, 0).  The record
    (16777217, 1, 0, 128, 0, 0, 0), loaded as the root with scale 0.01, is
    held as position (167772.171875, 0.009999999776482582..., 0) and colour
    (0.501960813999176..., 0, 0), the single-precision numbers nearest to
    167772.17, 0.01 and 128/255. *)
Theorem C2_point_record_decoding :
  (forall (buffer : list Byte.byte) (N : nat),
      length buffer = (N * 16)%nat ->
      (forall (nodeBox : bbox) (scale : num) (worldOffset : vec3),
          readPoints buffer scale nodeBox (Some worldOffset)
          = Normal
              (flat_map (decodedPosition scale nodeBox worldOffset)
                        (records N buffer),
               flat_map decodedColor (records N buffer))
          /\ length (flat_map (decodedPosition scale nodeBox worldOffset)
                              (records N buffer)) = (3 * N)%nat
          /\ length (flat_map decodedColor (records N buffer)) = (3 * N)%nat)
      /\ (forall (fetch : string -> response) (v : Viewer) (md : metadata)
                 (nodeName : string),
             unloaded nodeName v -> potreeMetadata v = Some md ->
             fetch nodeName = Ok buffer ->
             exists nodeBox node,
               getNodeBoundingBox (Some md) nodeName = Normal nodeBox
               /\ loadPotreeNodeIfExists fetch nodeName v
                  = installNode nodeName
                      (flat_map
                         (positionWith (scale md) nodeBox (potreeOffset v))
                         (records N buffer))
                      (flat_map decodedColor (records N buffer))
                      (startLoading nodeName v)
               /\ potreeNodes (loadPotreeNodeIfExists fetch nodeName v)
                    !! nodeName = Some node
               /\ position node
                  = Float32Array
                      (flat_map
                         (positionWith (scale md) nodeBox (potreeOffset v))
                         (records N buffer))
               /\ color node
                  = Float32Array (flat_map decodedColor (records N buffer))))
  /\ (forall (rec : list Byte.byte) (a a' : Byte.byte)
             (nodeBox : bbox) (scale : num) (worldOffset : vec3),
         length rec = 15%nat ->
         decodedPosition scale nodeBox worldOffset (rec ++ [a])
         = decodedPosition scale nodeBox worldOffset (rec ++ [a'])
         /\ decodedColor (rec ++ [a]) = decodedColor (rec ++ [a']))
  /\ (forall (rec : list Byte.byte) (axis : nat),
         quantized rec axis
         = (let u := byteAt rec (4 * axis)
                     + 256 * byteAt rec (4 * axis + 1)
                     + 65536 * byteAt rec (4 * axis + 2)
                     + 16777216 * byteAt rec (4 * axis + 3) in
            if u <? 2 ^ 31 then u else u - 2 ^ 32)
         /\ - 2 ^ 31 <= quantized rec axis < 2 ^ 31)
  /\ (forall mx my mz : num,
         exists x y z r g b,
           readPoints scenarioRecord (Finite (1 # 100))
             (BBox (ofZ 0) (ofZ 0) (ofZ 0) mx my mz)
             (Some (Vec3 (ofZ 0) (ofZ 0) (ofZ 0)))
           = Normal ([x; y; z], [r; g; b])
           /\ eqv x (ofZ 1) /\ eqv y (ofZ 0) /\ eqv z (ofZ 0)
           /\ eqv r (ofZ 1) /\ eqv g (ofZ 0) /\ eqv b (ofZ 0))
  /\ (exists node : pointsObj,
         potreeNodes (loadPotreeNodeIfExists (fun _ => Ok wideRecord) "r"
                        (freshViewer unitMetadata)) !! "r" = Some node
         /\ Forall2 eqv (position node)
              [Finite (10737419 # 64); Finite (5368709 # 536870912); ofZ 0]
         /\ Forall2 eqv (color node)
              [Finite (8421505 # 16777216); ofZ 0; ofZ 0]).
Proof.
  split; [| split; [| split; [| split]]].
  - intros buffer N Hlen. split.
    + intros nodeBox scale worldOffset.
      split; [apply (readPoints_whole _ _ _ (Some worldOffset) N Hlen) |].
      split.
      * rewrite (flat_map_constant_length (c := 3%nat)),
          records_length by reflexivity. lia.
      * rewrite (flat_map_constant_length (c := 3%nat)),
          records_length by reflexivity. lia.
    + intros fetch v md nodeName Hun Hmd Hfetch.
      destruct (load_whole fetch nodeName v md buffer N Hun Hmd Hfetch Hlen)
        as (nodeBox & Hbox & ->).
      exists nodeBox. eexists. split; [exact Hbox |].
      split; [reflexivity |].
      unfold installNode. cbn [potreeNodes].
      rewrite lookup_insert_eq. split; [reflexivity |].
      destruct (hasSelectionManager _); split; reflexivity.
  - intros rec a a' nodeBox scale worldOffset Hrec.
    unfold decodedPosition, decodedColor, quantized.
    rewrite !byteAt_app by (rewrite Hrec; simpl; lia).
    split; reflexivity.
  - intros rec axis. unfold quantized. cbv zeta.
    apply int32_le_value; apply byteAt_range.
  - intros mx my mz. do 6 eexists.
    split; [reflexivity |]. now vm_compute.
  - eexists. split; [vm_compute; reflexivity |].
    split; repeat (constructor; [vm_compute; reflexivity |]); constructor.
Qed.

Lemma C2_point_record_decoding_witness :
  length (scenarioRecord ++ scenarioRecord) = (2 * 16)%nat
  /\ readPoints (scenarioRecord ++ scenarioRecord) (Finite (1 # 100))
       (cube 0 8) (Some (Vec3 (ofZ 0) (ofZ 0) (ofZ 0)))
     = Normal
         (flat_map (decodedPosition (Finite (1 # 100)) (cube 0 8)
                      (Vec3 (ofZ 0) (ofZ 0) (ofZ 0)))
                   (records 2 (scenarioRecord ++ scenarioRecord)),
          flat_map decodedColor (records 2 (scenarioRecord ++ scenarioRecord))).
Proof.
  assert (length (scenarioRecord ++ scenarioRecord) = (2 * 16)%nat) as H
    by reflexivity.
  split; [exact H |].
  exact (proj1 (proj1 (proj1 C2_point_record_decoding _ 2%nat H)
                  (cube 0 8) (Finite (1 # 100)) (Vec3 (ofZ 0) (ofZ 0) (ofZ 0)))).
Defined.

(** C7 as stated fails: a buffer of 15 bytes, which is no multiple of 16,
    is accepted; the node is loaded, with one point read from the partial
    record, and is not marked failed. *)
Lemma C7_fifteen_bytes_counterexample :
  let buffer := take 15 scenarioRecord in
  let v := loadPotreeNodeIfExists (fun _ => Ok buffer) "r"
             (freshViewer unitMetadata) in
  (length buffer mod 16 <> 0)%nat
  /\ ("r" ∈ potreeLoadedNodes v)
  /\ ("r" ∉ potreeFailedNodes v)
  /\ (position <$> potreeNodes v !! "r")
     = Some [Finite (100 # 100); Finite (0 # 100); Finite (0 # 100)]
  /\ scene v = ["r"].
Proof.
  cbv zeta. split; [vm_compute; discriminate |].
  split; [now vm_compute |].
  split; [| split; now vm_compute].
  intros H. vm_compute in H. discriminate H.
Qed.

(** C7, amended. When the length of the fetched buffer leaves a remainder
    of 1 to 14 modulo 16, the read of the last, partial record throws a
    [RangeError]; the handler moves the node from loading to failed, and no
    object is added to the node store or to the scene. *)
Theorem C7_truncated_buffer_rejected :
  forall (fetch : string -> response) (v : Viewer) (nodeName : string)
         (buffer : list Byte.byte) (n r : nat),
    unloaded nodeName v ->
    fetch nodeName = Ok buffer ->
    length buffer = (n * 16 + r)%nat -> (1 <= r <= 14)%nat ->
    (forall (scale : num) (box : bbox) (off : option vec3),
        readPoints buffer scale box off = Throw RangeError)
    /\ (nodeName ∈ potreeFailedNodes (loadPotreeNodeIfExists fetch nodeName v))
    /\ (nodeName ∉ potreeLoading (loadPotreeNodeIfExists fetch nodeName v))
    /\ potreeLoadedNodes (loadPotreeNodeIfExists fetch nodeName v)
       = potreeLoadedNodes v
    /\ potreeNodes (loadPotreeNodeIfExists fetch nodeName v) = potreeNodes v
    /\ scene (loadPotreeNodeIfExists fetch nodeName v) = scene v.
Proof.
  intros fetch v nodeName buffer n r Hun Hfetch Hlen Hr.
  split.
  { intros scale box off. now apply (readPoints_truncated _ _ _ _ n r). }
  rewrite (load_truncated fetch nodeName v buffer n r) by assumption.
  unfold markFailed, startLoading; cbn.
  repeat split; (reflexivity || set_solver).
Qed.

Lemma C7_truncated_buffer_rejected_witness :
  let v := freshViewer unitMetadata in
  let buffer := take 14 scenarioRecord in
  unloaded "r" v
  /\ length buffer = (0 * 16 + 14)%nat
  /\ ("r" ∈ potreeFailedNodes
              (loadPotreeNodeIfExists (fun _ => Ok buffer) "r" v))
  /\ potreeNodes (loadPotreeNodeIfExists (fun _ => Ok buffer) "r" v)
     = potreeNodes v.
Proof.
  cbv zeta.
  assert (unloaded "r" (freshViewer unitMetadata)) as Hun.
  { unfold unloaded, freshViewer; cbn. set_solver. }
  assert (length (take 14 scenarioRecord) = (0 * 16 + 14)%nat) as Hlen
    by reflexivity.
  assert (1 <= 14 <= 14)%nat as Hr by lia.
  pose proof (C7_truncated_buffer_rejected
                (fun _ => Ok (take 14 scenarioRecord))
                (freshViewer unitMetadata) "r" (take 14 scenarioRecord)
                0%nat 14%nat Hun eq_refl Hlen Hr) as (_ & H1 & _ & _ & H2 & _).
  repeat split; assumption || apply Hun.
Defined.

(** ** Level of detail *)

Section LOD.

Variable fetch : string -> response.

Lemma unloaded_processedSet (name : string) (v : Viewer) :
  unloaded name v <-> name ∉ processedSet v.
Proof. unfold unloaded, processedSet. set_solver. Qed.

(** The three outcomes of a load. *)
Lemma load_cases (name : string) (v : Viewer) :
  loadPotreeNodeIfExists fetch name v = v /\ (name ∈ processedSet v)
  \/ (name ∉ processedSet v) /\
     (loadPotreeNodeIfExists fetch name v
      = markFailed name (startLoading name v)
      \/ exists vertices colors,
           loadPotreeNodeIfExists fetch name v
           = installNode name vertices colors (startLoading name v)).
Proof.
  destruct (decide (name ∈ processedSet v)) as [Hin | Hout].
  - left. split; [| exact Hin].
    apply load_processed. rewrite unloaded_processedSet. tauto.
  - right. split; [exact Hout |].
    rewrite load_unloaded by now apply unloaded_processedSet.
    unfold tryLoad. destruct (fetch name) as [| | buffer]; cbn [bind]; auto.
    cbn [startLoading potreeMetadata].
    destruct (potreeMetadata v) as [md |]; cbn [bind]; auto.
    rewrite getNodeBoundingBox_total; cbn [bind].
    destruct (readPoints _ _ _ _) as [arrays |]; cbn [bind]; eauto.
Qed.

Lemma load_processedSet (name : string) (v : Viewer) :
  processedSet (loadPotreeNodeIfExists fetch name v)
  = {[name]} ∪ processedSet v.
Proof.
  destruct (load_cases name v) as [[-> Hin] | [Hout [-> | (vs & cs & ->)]]];
    unfold processedSet in *; cbn; set_solver.
Qed.

Lemma fold_load_processedSet (names : list string) (v : Viewer) :
  processedSet
    (fold_left (fun v name => loadPotreeNodeIfExists fetch name v) names v)
  = list_to_set names ∪ processedSet v.
Proof.
  revert v; induction names as [| name names IH]; intros v; simpl.
  - set_solver.
  - rewrite IH, load_processedSet. set_solver.
Qed.




Lemma generateNodes_mono (k n : nat) (prefix name : string) :
  (k <= n)%nat -> name ∈ generateNodes k prefix ->
  name ∈ generateNodes n prefix.
Proof.
  revert n prefix; induction k as [| k IH]; intros n prefix Hkn.
  - simpl. intros H. apply list_elem_of_singleton in H as ->.
    destruct n; simpl; apply list_elem_of_here.
  - destruct n as [| n]; [lia |].
    cbn [generateNodes]. intros H.
    apply elem_of_cons in H as [-> | H]; [apply list_elem_of_here |].
    apply list_elem_of_further.
    apply list_elem_of_In, in_flat_map in H as (i & Hi & H).
    apply list_elem_of_In, in_flat_map. exists i. split; [exact Hi |].
    apply list_elem_of_In, IH; [lia | now apply list_elem_of_In].
Qed.


End LOD.

Lemma visibility_lookup (maxDepth : Z) (v : Viewer) (name : string) :
  potreeNodes (updatePotreeNodeVisibility maxDepth v) !! name
  = set_visible (depthOf name <=? maxDepth) <$> potreeNodes v !! name.
Proof.
  unfold updatePotreeNodeVisibility, with_nodes; cbn.
  rewrite map_lookup_imap. now destruct (potreeNodes v !! name).
Qed.

Lemma visibility_update (maxDepth : Z) (v : Viewer) (name : string)
    (node : pointsObj) :
  potreeNodes (updatePotreeNodeVisibility maxDepth v) !! name = Some node ->
  visible node = true <-> depthOf name <= maxDepth.
Proof.
  rewrite visibility_lookup.
  destruct (potreeNodes v !! name) as [node0 |]; [| discriminate].
  intros [= <-]. cbn. apply Z.leb_le.
Qed.








(** The depth the code computes from a name is the length of the path. *)
Lemma string_of_list_length (l : list ascii) :
  String.length (string_of_list_ascii l) = length l.
Proof. induction l as [|c l IH]; [reflexivity|]. simpl. f_equal. exact IH. Qed.

Lemma nodeName_depth (path : list Z) :
  depthOf (nodeNameOf path) = Z.of_nat (length path).
Proof.
  unfold depthOf, nodeNameOf. cbn [String.length].
  rewrite string_of_list_length, length_map. lia.
Qed.






(** ** Typed arrays *)

Section Arrays.

Lemma div3_iff (j idx : nat) :
  (j `div` 3 = idx)%nat <-> (idx * 3 <= j < idx * 3 + 3)%nat.
Proof.
  pose proof (Nat.div_mod_eq j 3) as H1.
  pose proof (Nat.mod_upper_bound j 3) as H2.
  lia.
Qed.

Lemma writePoint_length (f : nat -> num) (idx : nat) (a : list num) :
  length (writePoint f idx a) = length a.
Proof. unfold writePoint, write. now rewrite !length_insert. Qed.

Lemma writePoint_lookup (f : nat -> num) (idx : nat) (a : list num) (j : nat) :
  writePoint f idx a !! j
  = (fun x => if decide (j `div` 3 = idx)%nat then f j else x) <$> a !! j.
Proof.
  unfold writePoint, write.
  rewrite !list_lookup_insert, !length_insert.
  destruct (decide (j `div` 3 = idx)%nat) as [Hj | Hj].
  - apply div3_iff in Hj.
    destruct (a !! j) as [x |] eqn:E.
    + apply lookup_lt_Some in E.
      repeat case_decide; simpl; f_equal; try lia;
        repeat match goal with H : _ /\ _ |- _ => destruct H end;
        subst; try reflexivity; lia.
    + apply lookup_ge_None in E.
      repeat case_decide; simpl; try reflexivity; lia.
  - rewrite div3_iff in Hj.
    repeat case_decide; try lia.
    now destruct (a !! j).
Qed.

Lemma set_fold_writePoint_length (f : nat -> num) (S : gset nat)
    (a : list num) :
  length (set_fold (writePoint f) a S) = length a.
Proof.
  apply (set_fold_ind_L (fun (r : list num) (_ : gset nat) =>
                           length r = length a)); [reflexivity |].
  intros idx X r _ IH. now rewrite writePoint_length.
Qed.

Lemma set_fold_writePoint_lookup (f : nat -> num) (S : gset nat)
    (a : list num) (j : nat) :
  set_fold (writePoint f) a S !! j
  = (fun x => if decide ((j `div` 3)%nat ∈ S) then f j else x) <$> a !! j.
Proof.
  pose (P := fun (r : list num) (X : gset nat) =>
                r !! j
                = (fun x => if decide ((j `div` 3)%nat ∈ X) then f j else x)
                    <$> a !! j).
  change (P (set_fold (writePoint f) a S) S).
  apply set_fold_ind_L; unfold P.
  - destruct (a !! j); simpl; [| reflexivity].
    case_decide; [set_solver | reflexivity].
  - intros idx X r Hidx IH.
    rewrite writePoint_lookup, IH.
    destruct (a !! j) as [x |]; simpl; [| reflexivity].
    f_equal. repeat case_decide; try reflexivity; set_solver.
Qed.

Lemma hide_lookup (S : gset nat) (a : list num) (j : nat) :
  set_fold hidePoint a S !! j
  = (fun x => if decide ((j `div` 3)%nat ∈ S) then PosInf else x) <$> a !! j.
Proof. apply (set_fold_writePoint_lookup (fun _ => PosInf)). Qed.

Lemma restore_lookup (orig : list num) (S : gset nat) (a : list num)
    (j : nat) :
  set_fold (restorePoint orig) a S !! j
  = (fun x => if decide ((j `div` 3)%nat ∈ S) then read orig j else x)
      <$> a !! j.
Proof. apply (set_fold_writePoint_lookup (read orig)). Qed.

Lemma hide_length (S : gset nat) (a : list num) :
  length (set_fold hidePoint a S) = length a.
Proof. apply (set_fold_writePoint_length (fun _ => PosInf)). Qed.

Lemma restore_length (orig : list num) (S : gset nat) (a : list num) :
  length (set_fold (restorePoint orig) a S) = length a.
Proof. apply (set_fold_writePoint_length (read orig)). Qed.

End Arrays.

(** ** Brush containment of hidden points *)

Section Hidden.

Lemma unbounded_add (x y : num) : unbounded x = true -> unbounded (add x y) = true.
Proof. destruct x, y; simpl; congruence. Qed.

Lemma unbounded_sub (x y : num) : unbounded x = true -> unbounded (sub x y) = true.
Proof. intros H. unfold sub. now apply unbounded_add. Qed.

Lemma unbounded_square (x : num) : unbounded x = true -> unbounded (mul x x) = true.
Proof. destruct x; simpl; congruence. Qed.

Lemma unbounded_le (x : num) (q : Q) : unbounded x = true -> le x (Finite q) = false.
Proof. destruct x; simpl; congruence. Qed.

(** A point whose first coordinate is infinite or missing is in no brush
    of finite radius. *)
Lemma containsPoint_unbounded (center : vec3) (radius : num) (p : vec3) :
  is_finite radius = true -> unbounded (vx p) = true ->
  containsPoint center radius p = false.
Proof.
  intros Hr Hp. unfold containsPoint, distanceToSquared.
  destruct radius as [r | | |]; try discriminate. cbn [mul].
  apply unbounded_le.
  do 2 apply unbounded_add. apply unbounded_square.
  now apply unbounded_sub.
Qed.

Lemma worldPoint_hidden (offset : vec3) (node : pointsObj) (i : nat) :
  hiddenAt (position node) i = true ->
  unbounded (vx (worldPoint offset node i)) = true.
Proof. intros H. unfold worldPoint; cbn [vx]. now apply unbounded_add. Qed.

Lemma radius_ok_finite (m : SelectionManager) :
  radius_ok m = true -> is_finite (brushRadius m) = true.
Proof. intros H. apply radius_ok_iff in H as (r & -> & _). reflexivity. Qed.

End Hidden.

(** ** What delete, undo and redo do to a node *)

Section Nodes.

Lemma size_zero_empty (S : gset nat) : size S = 0%nat -> S = ∅.
Proof. intros H. apply size_empty_inv in H. now apply leibniz_equiv. Qed.

Lemma forSelectedNodes_lookup (f : gset nat -> pointsObj -> pointsObj)
    (pts : gmap string (gset nat)) (v : Viewer) (name : string) :
  potreeNodes (forSelectedNodes f pts v) !! name
  = (fun node => if decide (size (selectedIn pts name) = 0%nat) then node
                 else f (selectedIn pts name) node)
      <$> potreeNodes v !! name.
Proof.
  unfold forSelectedNodes, with_nodes, selectedIn; cbn.
  rewrite map_lookup_imap.
  destruct (potreeNodes v !! name) as [node |]; [| reflexivity]. cbn.
  destruct (pts !! name) as [S |]; cbn; [now case_decide |].
  reflexivity.
Qed.

Lemma forSelectedNodes_Forall (P : pointsObj -> Prop)
    (f : gset nat -> pointsObj -> pointsObj)
    (pts : gmap string (gset nat)) (v : Viewer) :
  (forall S node, P node -> P (f S node)) ->
  map_Forall (fun _ node => P node) (potreeNodes v) ->
  map_Forall (fun _ node => P node) (potreeNodes (forSelectedNodes f pts v)).
Proof.
  intros Hf Hv name node'. rewrite forSelectedNodes_lookup.
  destruct (potreeNodes v !! name) as [node |] eqn:E; [| discriminate].
  intros [= <-]. specialize (Hv name node E). cbn in Hv.
  case_decide; [exact Hv | now apply Hf].
Qed.

(** [hideNode]: lengths and other points are kept, the chosen points are
    at infinity and marked. *)
Lemma hideNode_position (S : gset nat) (node : pointsObj) (j : nat) :
  position (hideNode S node) !! j
  = (fun x => if decide ((j `div` 3)%nat ∈ S) then PosInf else x)
      <$> position node !! j.
Proof. unfold hideNode; cbn. apply hide_lookup. Qed.

Lemma hideNode_deleted (S : gset nat) (node : pointsObj) :
  deletedIn (hideNode S node) = deletedIn node ∪ S.
Proof. reflexivity. Qed.

Lemma hideNode_hidden (S : gset nat) (node : pointsObj) :
  node_hidden node -> node_hidden (hideNode S node).
Proof.
  intros H idx Hidx. rewrite hideNode_deleted in Hidx.
  unfold hiddenAt, read. rewrite hideNode_position.
  destruct (position node !! (idx * 3)%nat) as [x |] eqn:E; [| reflexivity].
  assert (((idx * 3) `div` 3)%nat = idx) as Ediv by (apply div3_iff; lia).
  cbn [fmap option_fmap option_map default]. rewrite Ediv.
  case_decide as Hs; [reflexivity |].
  apply elem_of_union in Hidx as [Hd | Hs']; [| contradiction].
  specialize (H idx Hd). unfold hiddenAt, read in H. now rewrite E in H.
Qed.

Lemma restorePointColors_position (S : gset nat) (node : pointsObj) :
  position (restorePointColors S node) = position node
  /\ deletedPoints (restorePointColors S node) = deletedPoints node
  /\ originalPositions (restorePointColors S node) = originalPositions node
  /\ originalColors (restorePointColors S node) = originalColors node.
Proof.
  unfold restorePointColors.
  destruct (originalColors node) eqn:E; cbn; rewrite ?E; repeat split.
Qed.

Lemma restoreNode_position (S : gset nat) (node : pointsObj) (j : nat) :
  position (restoreNode S node) !! j
  = match originalPositions node with
    | Some orig =>
        (fun x => if decide ((j `div` 3)%nat ∈ S) then read orig j else x)
          <$> position node !! j
    | None => position node !! j
    end.
Proof.
  unfold restoreNode.
  rewrite (proj1 (restorePointColors_position _ _)).
  destruct (originalPositions node) as [orig |]; cbn; [| reflexivity].
  apply restore_lookup.
Qed.

Lemma restoreNode_deleted (S : gset nat) (node : pointsObj) :
  deletedIn (restoreNode S node)
  = match originalPositions node with
    | Some _ => deletedIn node ∖ S
    | None => deletedIn node
    end.
Proof.
  unfold restoreNode, deletedIn.
  rewrite (proj1 (proj2 (restorePointColors_position _ _))).
  destruct (originalPositions node); cbn; [| reflexivity].
  destruct (deletedPoints node); cbn; [reflexivity | set_solver].
Qed.

Lemma restoreNode_color (S : gset nat) (node : pointsObj) (j : nat) :
  color (restoreNode S node) !! j
  = match originalColors node with
    | Some orig =>
        (fun x => if decide ((j `div` 3)%nat ∈ S) then read orig j else x)
          <$> color node !! j
    | None => color node !! j
    end.
Proof.
  unfold restoreNode, restorePointColors.
  destruct (originalPositions node) as [op |]; cbn;
    destruct (originalColors node) as [oc |]; cbn;
    try reflexivity; apply restore_lookup.
Qed.

Lemma restoreNode_hidden (S : gset nat) (node : pointsObj) :
  node_hidden node -> node_hidden (restoreNode S node).
Proof.
  intros H idx Hidx. rewrite restoreNode_deleted in Hidx.
  unfold hiddenAt, read. rewrite restoreNode_position.
  destruct (originalPositions node) as [orig |].
  - apply elem_of_difference in Hidx as [Hd Hs].
    specialize (H idx Hd). unfold hiddenAt, read in H.
    destruct (position node !! (idx * 3)%nat) as [x |]; [| reflexivity].
    assert (((idx * 3) `div` 3)%nat = idx) as Ediv by (apply div3_iff; lia).
    cbn [fmap option_fmap option_map default]. rewrite Ediv.
    case_decide; [contradiction | exact H].
  - exact (H idx Hidx).
Qed.

Lemma restorePointColors_hidden (S : gset nat) (node : pointsObj) :
  node_hidden node -> node_hidden (restorePointColors S node).
Proof.
  intros H idx. unfold node_hidden, deletedIn, hiddenAt in *.
  destruct (restorePointColors_position S node) as (-> & -> & _).
  apply H.
Qed.

Lemma faithful_hidden (node : pointsObj) :
  node_faithful node -> node_hidden node.
Proof.
  intros (op & oc & _ & _ & _ & Hpos) idx Hidx.
  unfold hiddenAt, read. rewrite Hpos.
  assert (((idx * 3) `div` 3)%nat = idx) as -> by (apply div3_iff; lia).
  destruct (op !! (idx * 3)%nat); cbn; [| reflexivity].
  case_decide; [reflexivity | contradiction].
Qed.

Lemma hideNode_faithful (S : gset nat) (node : pointsObj) :
  node_faithful node -> node_faithful (hideNode S node).
Proof.
  intros (op & oc & Hop & Hoc & Hcol & Hpos).
  exists op, oc. repeat split; try assumption.
  intros j. rewrite hideNode_position, hideNode_deleted, Hpos.
  destruct (op !! j); cbn; [| reflexivity].
  f_equal. repeat case_decide; try reflexivity; set_solver.
Qed.

Lemma restored_colors (S : gset nat) (oc : list num) :
  set_fold (restorePoint oc) oc S = oc.
Proof.
  apply list_eq. intros j. rewrite restore_lookup.
  unfold read. destruct (oc !! j); cbn; [| reflexivity].
  now case_decide.
Qed.

Lemma restorePointColors_faithful (S : gset nat) (node : pointsObj) :
  node_faithful node -> restorePointColors S node = node.
Proof.
  intros (op & oc & Hop & Hoc & Hcol & Hpos).
  unfold restorePointColors. rewrite Hoc, Hcol, restored_colors.
  destruct node; cbn in *; now subst.
Qed.

Lemma restoreNode_faithful (S : gset nat) (node : pointsObj) :
  node_faithful node -> node_faithful (restoreNode S node).
Proof.
  intros (op & oc & Hop & Hoc & Hcol & Hpos).
  exists op, oc.
  assert (originalPositions (restoreNode S node) = Some op) as H1.
  { unfold restoreNode.
    rewrite (proj1 (proj2 (proj2 (restorePointColors_position _ _)))).
    now rewrite Hop. }
  assert (originalColors (restoreNode S node) = Some oc) as H2.
  { unfold restoreNode.
    rewrite (proj2 (proj2 (proj2 (restorePointColors_position _ _)))).
    now rewrite Hop. }
  split; [exact H1 |]. split; [exact H2 |]. split.
  - apply list_eq. intros j. rewrite restoreNode_color, Hoc, Hcol.
    unfold read. destruct (oc !! j); cbn; [| reflexivity]. now case_decide.
  - intros j. rewrite restoreNode_position, restoreNode_deleted, Hop, Hpos.
    unfold read. destruct (op !! j); cbn; [| reflexivity].
    f_equal. repeat case_decide; try reflexivity; set_solver.
Qed.

End Nodes.

(** ** Painting *)

Section Paint.

Variables (center : vec3) (radius : num) (offset : vec3).

Lemma paintInv_mono (Good Good' : string -> nat -> Prop)
    (sel0 : gmap string (gset nat))
    (acc : gmap string (gset nat) * list (string * nat)) :
  (forall nm j, Good nm j -> Good' nm j) ->
  paintInv Good sel0 acc -> paintInv Good' sel0 acc.
Proof.
  intros HG [H1 H2]. split.
  - intros nm j H. apply HG, H1, H.
  - intros nm j H. destruct (H2 nm j H); auto.
Qed.

Lemma selectedIn_insert (sel : gmap string (gset nat)) (name nm : string)
    (S : gset nat) :
  selectedIn (<[name := S]> sel) nm
  = if decide (name = nm) then S else selectedIn sel nm.
Proof.
  unfold selectedIn. rewrite lookup_insert. now case_decide.
Qed.

Lemma selectedIn_ensure (sel : gmap string (gset nat)) (name nm : string) :
  selectedIn (match sel !! name with
              | Some _ => sel
              | None => <[name := ∅]> sel
              end) nm
  = selectedIn sel nm.
Proof.
  destruct (sel !! name) eqn:E; [reflexivity |].
  rewrite selectedIn_insert. case_decide; [| reflexivity].
  subst nm. unfold selectedIn. now rewrite E.
Qed.

Lemma paintPoint_inv (Good : string -> nat -> Prop)
    (sel0 : gmap string (gset nat)) (name : string) (node : pointsObj)
    (acc : gmap string (gset nat) * list (string * nat)) (i : nat) :
  (containsPoint center radius (worldPoint offset node i) = true ->
   Good name i) ->
  paintInv Good sel0 acc ->
  paintInv Good sel0 (paintPoint center radius offset name node acc i).
Proof.
  intros HG [H1 H2]. unfold paintPoint.
  destruct (containsPoint center radius (worldPoint offset node i));
    [| now split].
  specialize (HG eq_refl). cbv zeta.
  match goal with
  | |- context [default ∅ (?s !! name)] => fold (selectedIn s name)
  end.
  rewrite selectedIn_ensure.
  case_decide as Hi; unfold paintInv; cbn [fst snd].
  - split; [exact H1 |]. intros nm j. rewrite selectedIn_ensure. apply H2.
  - split.
    + intros nm j Hin. apply elem_of_app in Hin as [Hin | Hin]; [auto |].
      apply list_elem_of_singleton in Hin. now injection Hin as -> ->.
    + intros nm j. rewrite selectedIn_insert.
      case_decide as Hnm;
        [subst nm | rewrite selectedIn_ensure; apply H2].
      intros Hj. apply elem_of_union in Hj as [Hj | Hj]; [| apply H2, Hj].
      apply elem_of_singleton in Hj. subst j. now right.
Qed.

Lemma paintNode_inv (Good : string -> nat -> Prop)
    (sel0 : gmap string (gset nat)) (name : string) (node : pointsObj)
    (acc : gmap string (gset nat) * list (string * nat)) :
  (forall i, containsPoint center radius (worldPoint offset node i) = true ->
             Good name i) ->
  paintInv Good sel0 acc ->
  paintInv Good sel0 (paintNode center radius offset name node acc).
Proof.
  intros HG. unfold paintNode.
  generalize (seq 0 (pointCount node)) as l.
  intros l; revert acc; induction l as [| i l IH]; intros acc Hacc; cbn.
  - exact Hacc.
  - apply IH, paintPoint_inv; [apply HG | exact Hacc].
Qed.

Lemma paintNodes_inv (sel0 : gmap string (gset nat))
    (nodes : gmap string pointsObj) :
  paintInv (inBrush center radius offset nodes) sel0
    (map_fold (paintNode center radius offset) (sel0, []) nodes).
Proof.
  pose (P := fun (acc : gmap string (gset nat) * list (string * nat))
                 (nodes : gmap string pointsObj) =>
               paintInv (inBrush center radius offset nodes) sel0 acc).
  change (P (map_fold (paintNode center radius offset) (sel0, []) nodes) nodes).
  apply map_fold_weak_ind; unfold P; clear P nodes.
  - split; cbn.
    + intros nm j H. now apply elem_of_nil in H.
    + intros nm j H. now left.
  - intros name node nodes acc Hfresh IH.
    apply paintNode_inv.
    + intros i Hi. exists node. split; [apply lookup_insert_eq | exact Hi].
    + revert IH. apply paintInv_mono.
      intros nm j (node' & Hnode' & Hj). exists node'. split; [| exact Hj].
      rewrite lookup_insert_ne; [exact Hnode' |]. congruence.
Qed.

End Paint.

Lemma paintResult_inv (v : Viewer) (m : SelectionManager) :
  paintInv (inBrush (brushPosition m) (brushRadius m) (positionOffset v)
              (potreeNodes v))
           (selectedPoints m) (paintResult v m).
Proof. apply paintNodes_inv. Qed.

(** A point inside the brush is not one that was moved away. *)
Lemma inBrush_not_deleted (v : Viewer) (m : SelectionManager) (nm : string)
    (j : nat) (node : pointsObj) :
  deleted_hidden v -> is_finite (brushRadius m) = true ->
  inBrush (brushPosition m) (brushRadius m) (positionOffset v)
          (potreeNodes v) nm j ->
  potreeNodes v !! nm = Some node -> j ∉ deletedIn node.
Proof.
  intros Hv Hr (node' & Hnode' & Hin) Hnode Hdel.
  rewrite Hnode in Hnode'. injection Hnode' as <-.
  specialize (Hv nm node Hnode j Hdel). cbn in Hv.
  rewrite containsPoint_unbounded in Hin; [discriminate | exact Hr |].
  now apply worldPoint_hidden.
Qed.

Lemma paintSelection_selected (v : Viewer) (m : SelectionManager) :
  selectedPoints (paintSelection v m) = fst (paintResult v m)
  /\ brushRadius (paintSelection v m) = brushRadius m
  /\ brushPosition (paintSelection v m) = brushPosition m
  /\ undoStack (paintSelection v m) = undoStack m
  /\ redoStack (paintSelection v m) = redoStack m
  /\ editModeActive (paintSelection v m) = editModeActive m
  /\ isPainting (paintSelection v m) = isPainting m.
Proof.
  unfold paintSelection. destruct (paintResult v m) as [sel [| p new]];
    repeat split.
Qed.

(** ** What every event preserves *)

Section Consistency.

Lemma faithful_hidden_all (v : Viewer) : faithful v -> deleted_hidden v.
Proof.
  intros H name node Hnode. apply faithful_hidden. exact (H name node Hnode).
Qed.

Lemma restorePointColors_keeps (S : gset nat) (node : pointsObj) :
  node_faithful node -> node_faithful (restorePointColors S node).
Proof. intros H. now rewrite restorePointColors_faithful. Qed.

Lemma faithful_forSelected (f : gset nat -> pointsObj -> pointsObj)
    (pts : gmap string (gset nat)) (v : Viewer) :
  (forall S node, node_faithful node -> node_faithful (f S node)) ->
  faithful v -> faithful (forSelectedNodes f pts v).
Proof. apply (forSelectedNodes_Forall node_faithful). Qed.

Lemma installed_faithful (nodeName : string) (vertices colors : list num) :
  node_faithful
    (storeOriginalPositions
       (PointsObj ("potree_" ++ nodeName) vertices colors true None None None)).
Proof.
  exists vertices, colors. cbn. repeat split.
  intros j. destruct (vertices !! j); cbn; [| reflexivity].
  case_decide as H; [| reflexivity].
  unfold deletedIn in H; cbn in H. set_solver.
Qed.

Lemma faithful_load (fetch : string -> response) (name : string)
    (v : Viewer) :
  faithful v -> hasSelectionManager v = true ->
  faithful (loadPotreeNodeIfExists fetch name v)
  /\ hasSelectionManager (loadPotreeNodeIfExists fetch name v) = true.
Proof.
  intros Hv Hm.
  destruct (load_cases fetch name v)
    as [[-> _] | [_ [-> | (vs & cs & ->)]]]; [now split | now split |].
  split; [| exact Hm].
  unfold faithful, installNode. cbn [potreeNodes startLoading hasSelectionManager].
  rewrite Hm. apply map_Forall_insert_2; [| exact Hv].
  apply installed_faithful.
Qed.

Lemma onWheel_ok (deltaY : num) (m : SelectionManager) :
  radius_ok m = true -> radius_ok (onWheel deltaY m) = true.
Proof.
  intros Hm. unfold onWheel.
  destruct (editModeActive m); cbn [negb]; [| exact Hm].
  apply radius_ok_iff in Hm as (r & Hr & _). rewrite Hr.
  destruct (gt deltaY (ofZ 0)); apply updateBrushSize_ok.
Qed.

Lemma paintSelection_ok (v : Viewer) (m : SelectionManager) :
  radius_ok (paintSelection v m) = radius_ok m.
Proof.
  unfold radius_ok.
  now rewrite (proj1 (proj2 (paintSelection_selected v m))).
Qed.

Lemma hidden_forSelected (f : gset nat -> pointsObj -> pointsObj)
    (pts : gmap string (gset nat)) (v : Viewer) :
  (forall S node, node_hidden node -> node_hidden (f S node)) ->
  deleted_hidden v -> deleted_hidden (forSelectedNodes f pts v).
Proof. apply (forSelectedNodes_Forall node_hidden). Qed.

Lemma hidden_load (fetch : string -> response) (name : string) (v : Viewer) :
  deleted_hidden v -> deleted_hidden (loadPotreeNodeIfExists fetch name v).
Proof.
  intros Hv.
  destruct (load_cases fetch name v)
    as [[-> _] | [_ [-> | (vs & cs & ->)]]]; [exact Hv | exact Hv |].
  unfold deleted_hidden, installNode. cbn [potreeNodes startLoading].
  apply map_Forall_insert_2; [| exact Hv].
  intros idx Hidx. exfalso.
  destruct (hasSelectionManager _); unfold deletedIn in Hidx; cbn in Hidx;
    set_solver.
Qed.

Lemma brush_safe_delete (a : App) :
  brush_safe a -> brush_safe (deleteSelectedPoints a).
Proof.
  destruct a as [v m]. intros (Hv & Hr). unfold deleteSelectedPoints.
  case_decide; [now split |].
  split; cbn; [| exact Hr].
  apply hidden_forSelected; [apply hideNode_hidden | exact Hv].
Qed.

Lemma brush_safe_handle (a : App) (e : event) :
  brush_safe a -> brush_safe (handle a e).
Proof.
  intros Ha. pose proof Ha as (Hv & Hr). destruct a as [v m].
  cbn [fst snd] in *.
  destruct e; cbn [handle];
    try (destruct (editModeActive m); cbn [negb]; [| exact Ha]).
  - split; assumption.
  - split; cbn [fst snd]; [exact Hv |].
    destruct (isPainting _); [rewrite paintSelection_ok |]; exact Hr.
  - split; cbn [fst snd]; [exact Hv |].
    rewrite paintSelection_ok. exact Hr.
  - split; assumption.
  - split; cbn [fst snd]; [exact Hv | now apply onWheel_ok].
  - now apply brush_safe_delete.
  - unfold undo. cbn [fst snd].
    destruct (undoStack m) as [| act rest]; [exact Ha |].
    split; cbn; [| exact Hr].
    apply hidden_forSelected; [apply restoreNode_hidden | exact Hv].
  - unfold redo. cbn [fst snd].
    destruct (redoStack m) as [| act rest]; [exact Ha |].
    split; cbn; [| exact Hr].
    apply hidden_forSelected; [apply hideNode_hidden | exact Hv].
  - split; cbn; [| exact Hr].
    apply hidden_forSelected; [apply restorePointColors_hidden | exact Hv].
  - split; cbn [fst snd]; [now apply hidden_load | exact Hr].
Qed.

Lemma brush_safe_run (events : list event) (a : App) :
  brush_safe a -> brush_safe (run events a).
Proof.
  revert a; induction events as [| e events IH]; intros a Ha; cbn.
  - exact Ha.
  - apply IH, brush_safe_handle, Ha.
Qed.

Lemma brush_safe_app0 : brush_safe app0.
Proof.
  split; [| reflexivity]. intros name node H. cbn in H.
  now rewrite lookup_empty in H.
Qed.

Lemma consistent_brush_safe (a : App) : consistent a -> brush_safe a.
Proof.
  intros (Hv & Hr & _). split; [now apply faithful_hidden_all | exact Hr].
Qed.

Lemma consistent_delete (a : App) :
  consistent a -> consistent (deleteSelectedPoints a).
Proof.
  destruct a as [v m]. intros (Hv & Hr & Hm). unfold deleteSelectedPoints.
  case_decide; [now repeat split |].
  repeat split; cbn; try assumption.
  apply faithful_forSelected; [apply hideNode_faithful | exact Hv].
Qed.

Lemma consistent_undo (a : App) : consistent a -> consistent (undo a).
Proof.
  destruct a as [v m]. intros (Hv & Hr & Hm). unfold undo.
  destruct (undoStack m) as [| act rest]; [now repeat split |].
  repeat split; cbn; try assumption.
  apply faithful_forSelected; [apply restoreNode_faithful | exact Hv].
Qed.

Lemma consistent_redo (a : App) : consistent a -> consistent (redo a).
Proof.
  destruct a as [v m]. intros (Hv & Hr & Hm). unfold redo.
  destruct (redoStack m) as [| act rest]; [now repeat split |].
  repeat split; cbn; try assumption.
  apply faithful_forSelected; [apply hideNode_faithful | exact Hv].
Qed.

Lemma consistent_clear (a : App) : consistent a -> consistent (clearSelection a).
Proof.
  destruct a as [v m]. intros (Hv & Hr & Hm). unfold clearSelection.
  repeat split; cbn; try assumption.
  apply faithful_forSelected; [apply restorePointColors_keeps | exact Hv].
Qed.

Lemma consistent_handle (a : App) (e : event) :
  consistent a -> consistent (handle a e).
Proof.
  intros Ha. pose proof Ha as (Hv & Hr & Hm). destruct a as [v m].
  cbn [fst snd] in *.
  destruct e; cbn [handle];
    try (destruct (editModeActive m); cbn [negb]; [| exact Ha]).
  - repeat split; assumption.
  - repeat split; cbn [fst snd]; try assumption.
    destruct (isPainting _); [rewrite paintSelection_ok |]; exact Hr.
  - repeat split; cbn [fst snd]; try assumption.
    rewrite paintSelection_ok. exact Hr.
  - repeat split; assumption.
  - repeat split; cbn [fst snd]; try assumption. now apply onWheel_ok.
  - now apply consistent_delete.
  - now apply consistent_undo.
  - now apply consistent_redo.
  - now apply consistent_clear.
  - destruct (faithful_load (fun _ => answer) nodeName v Hv Hm).
    repeat split; assumption.
Qed.

Lemma consistent_run (events : list event) (a : App) :
  consistent a -> consistent (run events a).
Proof.
  revert a; induction events as [| e events IH]; intros a Ha; cbn.
  - exact Ha.
  - apply IH, consistent_handle, Ha.
Qed.

Lemma consistent_app0 : consistent app0.
Proof.
  repeat split. intros name node H. cbn in H.
  now rewrite lookup_empty in H.
Qed.

Lemma run_app (l1 l2 : list event) (a : App) :
  run (l1 ++ l2) a = run l2 (run l1 a).
Proof. apply fold_left_app. Qed.

End Consistency.

(** ** Deletion *)

Section Deletion.

Lemma delete_unfold (v : Viewer) (m : SelectionManager) :
  selectionCount m <> 0%nat ->
  deleteSelectedPoints (v, m)
  = (forSelectedNodes hideNode (selectedPoints m) v,
     with_selection ∅ 0%nat
       (with_stacks (Action (selectedPoints m) :: undoStack m) [] m)).
Proof.
  intros H. unfold deleteSelectedPoints. case_decide; [contradiction |].
  reflexivity.
Qed.

(** What [forSelectedNodes hideNode] does to one node, whether or not the
    node has selected points. *)
Lemma hidden_node (S : gset nat) (node : pointsObj) :
  let node' := if decide (size S = 0%nat) then node else hideNode S node in
  length (position node') = length (position node)
  /\ color node' = color node
  /\ deletedIn node' = deletedIn node ∪ S
  /\ forall j, position node' !! j
               = (fun x => if decide ((j `div` 3)%nat ∈ S) then PosInf else x)
                   <$> position node !! j.
Proof.
  cbv zeta. case_decide as HS.
  - apply size_zero_empty in HS. subst S.
    split; [reflexivity |]. split; [reflexivity |].
    split; [set_solver |].
    intros j. destruct (position node !! j); cbn; [| reflexivity].
    case_decide; [set_solver | reflexivity].
  - split; [apply hide_length |]. split; [reflexivity |].
    split; [apply hideNode_deleted |]. apply hideNode_position.
Qed.

Lemma restoreNode_length (S : gset nat) (node : pointsObj) :
  length (position (restoreNode S node)) = length (position node).
Proof.
  unfold restoreNode.
  rewrite (proj1 (restorePointColors_position _ _)).
  destruct (originalPositions node); cbn; [apply restore_length | reflexivity].
Qed.

Lemma pointsObj_eq (n1 n2 : pointsObj) :
  objName n1 = objName n2 -> position n1 = position n2 ->
  color n1 = color n2 -> visible n1 = visible n2 ->
  originalPositions n1 = originalPositions n2 ->
  originalColors n1 = originalColors n2 ->
  deletedPoints n1 = deletedPoints n2 -> n1 = n2.
Proof. destruct n1, n2; cbn; intros; now subst. Qed.

Lemma restoreNode_fields (S : gset nat) (node : pointsObj) :
  objName (restoreNode S node) = objName node
  /\ visible (restoreNode S node) = visible node
  /\ originalPositions (restoreNode S node) = originalPositions node
  /\ originalColors (restoreNode S node) = originalColors node.
Proof.
  unfold restoreNode, restorePointColors.
  destruct (originalPositions node) eqn:E1; cbn; rewrite ?E1;
    destruct (originalColors node) eqn:E2; cbn; rewrite ?E1, ?E2;
    repeat split.
Qed.

Lemma restoreNode_color_faithful (S : gset nat) (node : pointsObj) :
  node_faithful node -> color (restoreNode S node) = color node.
Proof.
  intros Hn.
  destruct (restoreNode_faithful S node Hn) as (op2 & oc2 & _ & Hoc2 & Hc2 & _).
  destruct Hn as (op & oc & _ & Hoc & Hc & _).
  destruct (restoreNode_fields S node) as (_ & _ & _ & F4).
  congruence.
Qed.

(** What [undo] makes of a node that [deleteSelectedPoints] went over. *)
Lemma restored_node (S : gset nat) (node : pointsObj) :
  node_faithful node ->
  let node1 := if decide (size S = 0%nat) then node else hideNode S node in
  let node2 := if decide (size S = 0%nat) then node1 else restoreNode S node1 in
  node_faithful node2
  /\ length (position node2) = length (position node)
  /\ color node2 = color node
  /\ deletedIn node2 = deletedIn node ∖ S.
Proof.
  intros Hn. cbv zeta. case_decide as HS.
  - apply size_zero_empty in HS. subst S.
    split; [exact Hn |]. split; [reflexivity |]. split; [reflexivity |].
    set_solver.
  - pose proof (hideNode_faithful S node Hn) as H1.
    pose proof (restoreNode_faithful S _ H1) as H2.
    split; [exact H2 |].
    split; [rewrite restoreNode_length; apply hide_length |].
    split.
    + now rewrite restoreNode_color_faithful.
    + rewrite restoreNode_deleted, hideNode_deleted.
      destruct H1 as (op & _ & -> & _). set_solver.
Qed.

Lemma restored_position (S : gset nat) (node : pointsObj) (op : list num)
    (j : nat) :
  node_faithful node -> originalPositions node = Some op ->
  position (if decide (size S = 0%nat)
            then (if decide (size S = 0%nat) then node else hideNode S node)
            else restoreNode S
                   (if decide (size S = 0%nat) then node
                    else hideNode S node)) !! j
  = (fun x => if decide ((j `div` 3)%nat ∈ deletedIn node ∖ S) then PosInf
              else x) <$> op !! j.
Proof.
  intros Hn Hop.
  destruct (restored_node S node Hn) as (Hn2 & _ & _ & Hdel).
  cbv zeta in Hn2, Hdel.
  destruct Hn2 as (op2 & oc2 & Hop2 & _ & _ & Hpos2).
  rewrite Hpos2, Hdel. clear Hpos2 Hdel.
  assert (op2 = op) as ->; [| reflexivity].
  destruct (decide (size S = 0%nat)); [congruence |].
  destruct (restoreNode_fields S (hideNode S node)) as (_ & _ & F3 & _).
  rewrite F3 in Hop2. cbn in Hop2. congruence.
Qed.

(** Hiding again what was hidden and restored gives the hidden node. *)
Lemma rehidden_node (S : gset nat) (node : pointsObj) :
  node_faithful node ->
  hideNode S (restoreNode S (hideNode S node)) = hideNode S node.
Proof.
  intros Hn.
  pose proof (hideNode_faithful S node Hn) as H1.
  destruct (restoreNode_fields S (hideNode S node)) as (F1 & F2 & F3 & F4).
  apply pointsObj_eq; cbn; try assumption.
  - apply list_eq. intros j. rewrite !hide_lookup, restoreNode_position.
    destruct H1 as (op & _ & -> & _). rewrite hideNode_position.
    destruct (position node !! j); cbn [fmap option_fmap option_map];
      [| reflexivity].
    f_equal. repeat case_decide; reflexivity || contradiction.
  - now rewrite restoreNode_color_faithful.
  - f_equal. fold (deletedIn (restoreNode S (hideNode S node))).
    rewrite restoreNode_deleted, hideNode_deleted.
    destruct H1 as (op & _ & -> & _).
    fold (deletedIn node). generalize (deletedIn node). clear.
    intros D. apply set_eq. intros x.
    destruct (decide (x ∈ S)); set_solver.
Qed.

Lemma viewer_eq (v1 v2 : Viewer) :
  potreeMetadata v1 = potreeMetadata v2 ->
  potreeOffset v1 = potreeOffset v2 ->
  potreePointCloud v1 = potreePointCloud v2 ->
  potreeNodes v1 = potreeNodes v2 ->
  potreeLoadedNodes v1 = potreeLoadedNodes v2 ->
  potreeLoading v1 = potreeLoading v2 ->
  potreeFailedNodes v1 = potreeFailedNodes v2 ->
  scene v1 = scene v2 -> currentLODDepth v1 = currentLODDepth v2 ->
  cameraInitialized v1 = cameraInitialized v2 ->
  hasSelectionManager v1 = hasSelectionManager v2 ->
  fetched v1 = fetched v2 -> v1 = v2.
Proof. destruct v1, v2; cbn; intros; now subst. Qed.

(** A node without originals: [undo] leaves it as it is, and hiding twice
    is hiding once. *)
Lemma restoreNode_bare (S : gset nat) (node : pointsObj) :
  node_bare node -> restoreNode S node = node.
Proof.
  intros [H1 H2]. unfold restoreNode, restorePointColors.
  rewrite H1, H2. reflexivity.
Qed.

Lemma hideNode_bare (S : gset nat) (node : pointsObj) :
  node_bare node -> node_bare (hideNode S node).
Proof. intros H. exact H. Qed.

Lemma hideNode_twice (S : gset nat) (node : pointsObj) :
  hideNode S (hideNode S node) = hideNode S node.
Proof.
  apply pointsObj_eq; cbn; try reflexivity.
  - apply list_eq. intros j. rewrite !hide_lookup.
    destruct (position node !! j); cbn [fmap option_fmap option_map];
      [| reflexivity].
    f_equal. repeat case_decide; reflexivity.
  - f_equal. set_solver.
Qed.

Lemma rehidden_bare (S : gset nat) (node : pointsObj) :
  node_bare node ->
  hideNode S (restoreNode S (hideNode S node)) = hideNode S node.
Proof.
  intros H. rewrite restoreNode_bare by now apply hideNode_bare.
  apply hideNode_twice.
Qed.

(** The round trip: after a deletion, undo then redo gives back the state
    the deletion left. *)
Lemma redo_undo_delete (a : App) :
  selectionCount (snd a) <> 0%nat -> restorable (fst a) ->
  redo (undo (deleteSelectedPoints a)) = deleteSelectedPoints a.
Proof.
  destruct a as [v m]. cbn [fst snd]. intros Hsel Hv.
  rewrite delete_unfold by exact Hsel.
  cbn [undo redo with_selection with_stacks undoStack redoStack points].
  f_equal.
  apply viewer_eq; try reflexivity.
  apply map_eq. intros name. rewrite !forSelectedNodes_lookup.
  destruct (potreeNodes v !! name) as [node |] eqn:E; cbn; [| reflexivity].
  specialize (Hv name node E). cbn in Hv.
  case_decide; [reflexivity |].
  destruct Hv as [Hv | Hv];
    [now rewrite rehidden_node | now rewrite rehidden_bare].
Qed.

Lemma faithful_restorable (v : Viewer) : faithful v -> restorable v.
Proof. intros H name node E. left. exact (H name node E). Qed.

End Deletion.

(** ** The history *)

Section History.

Lemma reselectCycle_step (stack : list action) :
  run reselectCycle
    (fst afterDelete,
     with_stacks (rootPointAction :: stack) [] (snd afterDelete))
  = (fst afterDelete,
     with_stacks (rootPointAction :: rootPointAction :: stack) []
       (snd afterDelete)).
Proof. vm_compute. reflexivity. Qed.

Lemma cycles_grow (n : nat) (stack : list action) :
  run (cycles n)
    (fst afterDelete,
     with_stacks (rootPointAction :: stack) [] (snd afterDelete))
  = (fst afterDelete,
     with_stacks (rootPointAction :: repeat rootPointAction n ++ stack) []
       (snd afterDelete)).
Proof.
  revert stack; induction n as [| n IH]; intros stack.
  - reflexivity.
  - cbn [cycles]. rewrite run_app, reselectCycle_step, IH.
    do 3 f_equal. cbn [repeat]. rewrite repeat_cons, <- app_assoc.
    reflexivity.
Qed.

(** The undo stack after the first deletion and [n] rounds of undo,
    select, redo, delete. *)
Lemma history_grows (n : nat) :
  length (undoStack
            (snd (run (selectRootPoint ++ KeyDelete :: cycles n) app0)))
  = S n.
Proof.
  rewrite run_app.
  change (run (KeyDelete :: cycles n) (run selectRootPoint app0))
    with (run (cycles n) afterDelete).
  assert (afterDelete
          = (fst afterDelete,
             with_stacks (rootPointAction :: []) [] (snd afterDelete))) as ->
    by (vm_compute; reflexivity).
  rewrite cycles_grow. cbn [snd with_stacks undoStack length].
  rewrite length_app, repeat_length. cbn. lia.
Qed.

Lemma undo_conserves (a : App) :
  (length (undoStack (snd (undo a))) + length (redoStack (snd (undo a)))
   = length (undoStack (snd a)) + length (redoStack (snd a)))%nat
  /\ (length (undoStack (snd (undo a))) <= length (undoStack (snd a)))%nat.
Proof.
  destruct a as [v m]. unfold undo.
  destruct (undoStack m) as [| act rest] eqn:E; cbn; rewrite ?E; cbn; lia.
Qed.

Lemma redo_conserves (a : App) :
  (length (undoStack (snd (redo a))) + length (redoStack (snd (redo a)))
   = length (undoStack (snd a)) + length (redoStack (snd a)))%nat.
Proof.
  destruct a as [v m]. unfold redo.
  destruct (redoStack m) as [| act rest] eqn:E; cbn; rewrite ?E; cbn; lia.
Qed.

End History.

(** C9 as stated fails: no capacity bounds the undo stack.  From the
    state before any event, the events that select and delete the root
    point, followed by rounds of undo, select, redo, delete, make the
    stack as long as one likes. *)
Lemma C9_no_capacity_counterexample :
  ~ exists cap : nat,
      forall events : list event,
        (length (undoStack (snd (run events app0))) <= cap)%nat.
Proof.
  intros [cap H].
  specialize (H (selectRootPoint ++ KeyDelete :: cycles cap)).
  rewrite history_grows in H. lia.
Qed.

(** C9, amended. The history has no capacity.  A deletion applied to a
    non-empty selection pushes exactly one action, the snapshot of the
    selection, onto the undo stack and empties the redo stack; undo and redo
    move one action from one stack to the other and drop none; and the
    undo stack can reach any length. *)
Theorem C9_history_unbounded :
  (forall a : App,
      selectionCount (snd a) <> 0%nat ->
      undoStack (snd (deleteSelectedPoints a))
      = Action (selectedPoints (snd a)) :: undoStack (snd a)
      /\ redoStack (snd (deleteSelectedPoints a)) = [])
  /\ (forall a : App,
         (length (undoStack (snd (undo a))) + length (redoStack (snd (undo a)))
          = length (undoStack (snd a)) + length (redoStack (snd a)))%nat
         /\ (length (undoStack (snd (redo a)))
             + length (redoStack (snd (redo a)))
             = length (undoStack (snd a)) + length (redoStack (snd a)))%nat)
  /\ (forall n : nat,
         length (undoStack
                   (snd (run (selectRootPoint ++ KeyDelete :: cycles n) app0)))
         = S n).
Proof.
  split; [| split].
  - intros [v m] Hsel. cbn [snd] in *.
    rewrite delete_unfold by exact Hsel. split; reflexivity.
  - intros a. split; [apply undo_conserves | apply redo_conserves].
  - apply history_grows.
Qed.

Lemma C9_history_unbounded_witness :
  selectionCount (snd rootSelected) <> 0%nat
  /\ undoStack (snd (deleteSelectedPoints rootSelected))
     = Action (selectedPoints (snd rootSelected))
       :: undoStack (snd rootSelected).
Proof.
  assert (selectionCount (snd rootSelected) <> 0%nat) as H
    by (vm_compute; discriminate).
  split; [exact H |].
  exact (proj1 (proj1 C9_history_unbounded rootSelected H)).
Defined.

(** C6. Deleting the selected points removes nothing from the position
    array of a node: its length is unchanged, the three coordinates of each
    selected point are overwritten with infinity in place, every other
    coordinate keeps its index and value, the selected indices are added to
    the marks of the node, and no node leaves the store.  From then on,
    whatever events follow, no point marked deleted is among the new
    selections of [paintSelection], and a marked point that is in the
    selection after painting was in it before.  This holds from every
    state in which the points marked deleted are at infinity and the brush
    radius is within its bounds, which every event preserves. *)
Theorem C6_deletion_keeps_indices :
  forall a : App,
    selectionCount (snd a) <> 0%nat ->
    (forall (name : string) (node : pointsObj),
        potreeNodes (fst a) !! name = Some node ->
        exists node',
          potreeNodes (fst (deleteSelectedPoints a)) !! name = Some node'
          /\ length (position node') = length (position node)
          /\ deletedIn node'
             = deletedIn node ∪ selectedIn (selectedPoints (snd a)) name
          /\ forall j : nat,
               position node' !! j
               = (fun x =>
                    if decide ((j `div` 3)%nat
                               ∈ selectedIn (selectedPoints (snd a)) name)
                    then PosInf else x) <$> position node !! j)
    /\ (brush_safe a ->
        forall (events : list event) (nm : string) (j : nat)
               (node : pointsObj),
          potreeNodes (fst (run events (deleteSelectedPoints a))) !! nm
          = Some node ->
          j ∈ deletedIn node ->
          ((nm, j) ∉ snd (paintResult
                            (fst (run events (deleteSelectedPoints a)))
                            (snd (run events (deleteSelectedPoints a)))))
          /\ (j ∈ selectedIn
                    (selectedPoints
                       (paintSelection
                          (fst (run events (deleteSelectedPoints a)))
                          (snd (run events (deleteSelectedPoints a))))) nm ->
              j ∈ selectedIn
                    (selectedPoints
                       (snd (run events (deleteSelectedPoints a)))) nm)).
Proof.
  intros [v m] Hsel. cbn [fst snd] in *. split.
  - intros name node Hnode.
    rewrite delete_unfold by exact Hsel. cbn [fst].
    rewrite forSelectedNodes_lookup, Hnode. cbn [fmap option_fmap option_map].
    eexists. split; [reflexivity |].
    destruct (hidden_node (selectedIn (selectedPoints m) name) node)
      as (Hlen & _ & Hdel & Hpos).
    split; [exact Hlen |]. split; [exact Hdel | exact Hpos].
  - intros Ha events nm j node.
    pose proof (brush_safe_run events _ (brush_safe_delete _ Ha))
      as (Hv' & Hr').
    destruct (run events (deleteSelectedPoints (v, m))) as [v' m'].
    cbn [fst snd] in *. intros Hnode Hdel.
    destruct (paintResult_inv v' m') as [Hnew Hselected].
    assert (~ inBrush (brushPosition m') (brushRadius m') (positionOffset v')
                (potreeNodes v') nm j) as Hout.
    { intros Hin.
      apply (inBrush_not_deleted v' m' nm j node); auto.
      now apply radius_ok_finite. }
    split.
    + intros Hin. apply Hout, Hnew, Hin.
    + rewrite (proj1 (paintSelection_selected v' m')). intros Hin.
      destruct (Hselected nm j Hin) as [Hold | Hbad];
        [exact Hold | contradiction].
Qed.

Lemma C6_deletion_keeps_indices_witness :
  selectionCount (snd rootSelected) <> 0%nat
  /\ brush_safe rootSelected
  /\ forall (node : pointsObj) (p : vec3),
       potreeNodes
         (fst (run [MouseMove p] (deleteSelectedPoints rootSelected))) !! "r"
       = Some node ->
       0%nat ∈ deletedIn node ->
       ("r", 0%nat)
       ∉ snd (paintResult
                (fst (run [MouseMove p] (deleteSelectedPoints rootSelected)))
                (snd (run [MouseMove p] (deleteSelectedPoints rootSelected)))).
Proof.
  assert (selectionCount (snd rootSelected) <> 0%nat) as H
    by (vm_compute; discriminate).
  assert (brush_safe rootSelected) as Hc
    by (apply brush_safe_run, brush_safe_app0).
  split; [exact H |]. split; [exact Hc |].
  intros node p Hnode Hdel.
  exact (proj1 (proj2 (C6_deletion_keeps_indices rootSelected H) Hc
                  [MouseMove p] "r" 0%nat node Hnode Hdel)).
Defined.

(** C4 as stated fails, in two ways.  In the state reached by selecting
    the root point, deleting it, undoing, selecting it again and redoing,
    the point is selected and its position is already at infinity; deleting
    and undoing then puts it at its original place, not at the value it had
    before that deletion.  And in upload mode, where the cloud carries no
    originals, selecting its point, deleting and undoing restores nothing:
    the action goes from the undo stack to the redo stack, and the point
    stays at infinity and marked deleted. *)
Lemma C4_undo_counterexample :
  (selectionCount (snd staleSelection) <> 0%nat
   /\ (0%nat ∈ selectedIn (selectedPoints (snd staleSelection)) "r")
   /\ (position <$> potreeNodes (fst staleSelection) !! "r")
      = Some [PosInf; PosInf; PosInf]
   /\ (position
         <$> potreeNodes (fst (undo (deleteSelectedPoints staleSelection)))
             !! "r")
      = Some [Finite (100 # 100); Finite (0 # 100); Finite (0 # 100)])
  /\ (selectionCount (snd uploadSelected) <> 0%nat
      /\ (0%nat ∈ selectedIn (selectedPoints (snd uploadSelected))
                              "currentPointCloud")
      /\ (position
            <$> potreeNodes (fst uploadSelected) !! "currentPointCloud")
         = Some [ofZ 1; ofZ 0; ofZ 0]
      /\ (position
            <$> potreeNodes
                  (fst (undo (deleteSelectedPoints uploadSelected)))
                !! "currentPointCloud")
         = Some [PosInf; PosInf; PosInf]
      /\ (deletedIn
            <$> potreeNodes
                  (fst (undo (deleteSelectedPoints uploadSelected)))
                !! "currentPointCloud")
         = Some {[ 0%nat ]}
      /\ undoStack (snd (undo (deleteSelectedPoints uploadSelected))) = []
      /\ redoStack (snd (undo (deleteSelectedPoints uploadSelected)))
         = [Action {[ "currentPointCloud" := {[ 0%nat ]} ]}]).
Proof.
  split.
  - split; [vm_compute; discriminate |].
    split; [apply (bool_decide_unpack _); vm_compute; exact I |].
    split; vm_compute; reflexivity.
  - split; [vm_compute; discriminate |].
    split; [apply (bool_decide_unpack _); vm_compute; exact I |].
    repeat split; vm_compute; reflexivity.
Qed.

(** C4, amended. From a state with a non-empty selection in which every
    node either carries its original arrays, its own arrays being those
    originals but for the points marked deleted, which are at infinity, or
    carries no originals at all, deleting then undoing leaves the selection
    empty, with count 0.  On a node with originals it puts the position and
    colour of every previously selected point back to the originals kept on
    the node and removes the marks; these are the values before the
    deletion for the colour, and for the position of every point that was
    not already marked deleted.  On a node without originals it changes
    nothing: the points stay at infinity and marked.  A redo after that
    gives back exactly the state the deletion had left: the same indices of
    the same nodes are marked and at infinity. *)
Theorem C4_delete_undo_redo :
  forall a : App,
    selectionCount (snd a) <> 0%nat -> restorable (fst a) ->
    selectionCount (snd (undo (deleteSelectedPoints a))) = 0%nat
    /\ selectedPoints (snd (undo (deleteSelectedPoints a))) = ∅
    /\ (forall (name : string) (node : pointsObj),
           potreeNodes (fst a) !! name = Some node ->
           node_faithful node ->
           exists node2 orig,
             potreeNodes (fst (undo (deleteSelectedPoints a))) !! name
             = Some node2
             /\ originalPositions node = Some orig
             /\ originalColors node = Some (color node)
             /\ length (position node2) = length (position node)
             /\ color node2 = color node
             /\ deletedIn node2
                = deletedIn node ∖ selectedIn (selectedPoints (snd a)) name
             /\ forall j : nat,
                  (j `div` 3)%nat ∈ selectedIn (selectedPoints (snd a)) name ->
                  position node2 !! j = orig !! j
                  /\ ((j `div` 3)%nat ∉ deletedIn node ->
                      position node2 !! j = position node !! j))
    /\ (forall (name : string) (node : pointsObj),
           potreeNodes (fst a) !! name = Some node ->
           node_bare node ->
           potreeNodes (fst (undo (deleteSelectedPoints a))) !! name
           = potreeNodes (fst (deleteSelectedPoints a)) !! name
           /\ exists node1,
               potreeNodes (fst (undo (deleteSelectedPoints a))) !! name
               = Some node1
               /\ node_bare node1
               /\ color node1 = color node
               /\ deletedIn node1
                  = deletedIn node ∪ selectedIn (selectedPoints (snd a)) name
               /\ forall j : nat,
                    position node1 !! j
                    = (fun x =>
                         if decide ((j `div` 3)%nat
                                    ∈ selectedIn (selectedPoints (snd a)) name)
                         then PosInf else x) <$> position node !! j)
    /\ redo (undo (deleteSelectedPoints a)) = deleteSelectedPoints a
    /\ (forall (name : string) (node : pointsObj),
           potreeNodes (fst a) !! name = Some node ->
           exists node3,
             potreeNodes (fst (redo (undo (deleteSelectedPoints a)))) !! name
             = Some node3
             /\ deletedIn node3
                = deletedIn node ∪ selectedIn (selectedPoints (snd a)) name
             /\ forall j : nat,
                  position node3 !! j
                  = (fun x =>
                       if decide ((j `div` 3)%nat
                                  ∈ selectedIn (selectedPoints (snd a)) name)
                       then PosInf else x) <$> position node !! j).
Proof.
  intros a Hsel Hv.
  pose proof (redo_undo_delete a Hsel Hv) as Hredo.
  destruct a as [v m]. cbn [fst snd] in *.
  rewrite Hredo. rewrite delete_unfold in * by exact Hsel.
  cbn [undo with_selection with_stacks undoStack redoStack points fst snd
       selectionCount selectedPoints].
  split; [reflexivity |]. split; [reflexivity |].
  split; [| split; [| split]].
  - intros name node Hnode Hn.
    rewrite !forSelectedNodes_lookup, Hnode.
    cbn [fmap option_fmap option_map].
    destruct (restored_node (selectedIn (selectedPoints m) name) node Hn)
      as (Hn2 & Hlen & Hcol & Hdel).
    destruct Hn as (op & oc & Hop & Hoc & Hc & Hpos).
    eexists; exists op. split; [reflexivity |].
    split; [exact Hop |]. split; [now rewrite Hoc, Hc |].
    split; [exact Hlen |]. split; [exact Hcol |]. split; [exact Hdel |].
    clear Hn2 Hlen Hcol Hdel. intros j Hj.
    rewrite (restored_position _ node op j) by (assumption || now exists op, oc).
    rewrite Hpos.
    destruct (op !! j); cbn [fmap option_fmap option_map];
      [| split; reflexivity].
    split.
    + f_equal. case_decide as Hd; [| reflexivity].
      apply elem_of_difference in Hd as [_ Hd]. contradiction.
    + intros Hnd. f_equal. case_decide as Hd.
      * apply elem_of_difference in Hd as [Hd _]. contradiction.
      * case_decide; [contradiction | reflexivity].
  - intros name node Hnode Hn.
    rewrite !forSelectedNodes_lookup, Hnode.
    cbn [fmap option_fmap option_map].
    assert ((if decide (size (selectedIn (selectedPoints m) name) = 0%nat)
             then (if decide (size (selectedIn (selectedPoints m) name)
                              = 0%nat)
                   then node
                   else hideNode (selectedIn (selectedPoints m) name) node)
             else restoreNode (selectedIn (selectedPoints m) name)
                    (if decide (size (selectedIn (selectedPoints m) name)
                                = 0%nat)
                     then node
                     else hideNode (selectedIn (selectedPoints m) name) node))
            = (if decide (size (selectedIn (selectedPoints m) name) = 0%nat)
               then node
               else hideNode (selectedIn (selectedPoints m) name) node))
      as ->.
    { case_decide; [reflexivity |].
      apply restoreNode_bare, hideNode_bare, Hn. }
    split; [reflexivity |].
    eexists. split; [reflexivity |].
    destruct (hidden_node (selectedIn (selectedPoints m) name) node)
      as (_ & Hcol & Hdel & Hpos).
    split; [| split; [exact Hcol | split; [exact Hdel | exact Hpos]]].
    case_decide; [exact Hn | now apply hideNode_bare].
  - reflexivity.
  - intros name node Hnode.
    rewrite forSelectedNodes_lookup, Hnode. cbn [fmap option_fmap option_map].
    eexists. split; [reflexivity |].
    destruct (hidden_node (selectedIn (selectedPoints m) name) node)
      as (_ & _ & Hdel & Hpos).
    split; [exact Hdel | exact Hpos].
Qed.

Lemma C4_delete_undo_redo_witness :
  (selectionCount (snd rootSelected) <> 0%nat
   /\ restorable (fst rootSelected)
   /\ selectionCount (snd (undo (deleteSelectedPoints rootSelected))) = 0%nat
   /\ redo (undo (deleteSelectedPoints rootSelected))
      = deleteSelectedPoints rootSelected)
  /\ (selectionCount (snd uploadSelected) <> 0%nat
      /\ restorable (fst uploadSelected)
      /\ potreeNodes (fst (undo (deleteSelectedPoints uploadSelected)))
           !! "currentPointCloud"
         = potreeNodes (fst (deleteSelectedPoints uploadSelected))
             !! "currentPointCloud"
      /\ redo (undo (deleteSelectedPoints uploadSelected))
         = deleteSelectedPoints uploadSelected).
Proof.
  split.
  - assert (selectionCount (snd rootSelected) <> 0%nat) as H
      by (vm_compute; discriminate).
    assert (restorable (fst rootSelected)) as Hf
      by (apply faithful_restorable,
            (consistent_run selectRootPoint app0), consistent_app0).
    destruct (C4_delete_undo_redo rootSelected H Hf)
      as (H1 & _ & _ & _ & H2 & _).
    exact (conj H (conj Hf (conj H1 H2))).
  - assert (selectionCount (snd uploadSelected) <> 0%nat) as H
      by (vm_compute; discriminate).
    assert (potreeNodes (fst uploadSelected) !! "currentPointCloud"
            = Some uploadedPoint) as E by (vm_compute; reflexivity).
    assert (restorable (fst uploadSelected)) as Hf.
    { change (fst uploadSelected) with (uploadMode uploadedPoint).
      apply map_Forall_singleton. right. split; reflexivity. }
    destruct (C4_delete_undo_redo uploadSelected H Hf)
      as (_ & _ & _ & Hbare & H2 & _).
    destruct (Hbare "currentPointCloud" uploadedPoint E (conj eq_refl eq_refl))
      as [H1 _].
    exact (conj H (conj Hf (conj H1 H2))).
Defined.
(* ------------------------------------------------------------------ *)
(** ** Geometry of the octree boxes *)

Section Boxes.

Local Open Scope Q_scope.

Lemma halve_qbox (x0 y0 z0 x1 y1 z1 : Q) (o : Z) :
  halve (qbox x0 y0 z0 x1 y1 z1) o
  = qbox (if Z.testbit o 0 then (x0 + x1) * (1 # 2) else x0)
         (if Z.testbit o 1 then (y0 + y1) * (1 # 2) else y0)
         (if Z.testbit o 2 then (z0 + z1) * (1 # 2) else z0)
         (if Z.testbit o 0 then x1 else (x0 + x1) * (1 # 2))
         (if Z.testbit o 1 then y1 else (y0 + y1) * (1 # 2))
         (if Z.testbit o 2 then z1 else (z0 + z1) * (1 # 2)).
Proof.
  unfold halve, keep_half.
  destruct (Z.testbit o 0), (Z.testbit o 1), (Z.testbit o 2); reflexivity.
Qed.

Lemma well_formed_qbox (x0 y0 z0 x1 y1 z1 : Q) :
  well_formed (qbox x0 y0 z0 x1 y1 z1) = true
  <-> x0 <= x1 /\ y0 <= y1 /\ z0 <= z1.
Proof.
  unfold well_formed, qbox. cbn.
  rewrite !andb_true_iff, !Qle_bool_iff. tauto.
Qed.

Lemma well_formed_inv (b : bbox) :
  well_formed b = true ->
  exists x0 y0 z0 x1 y1 z1,
    b = qbox x0 y0 z0 x1 y1 z1 /\ x0 <= x1 /\ y0 <= y1 /\ z0 <= z1.
Proof.
  intros H. destruct b as [[a| | |] [b| | |] [c| | |] [d| | |] [e| | |] [f| | |]];
    try discriminate H.
  exists a, b, c, d, e, f. split; [reflexivity|].
  apply well_formed_qbox. exact H.
Qed.

Lemma within_qbox (a0 b0 c0 a1 b1 c1 x0 y0 z0 x1 y1 z1 : Q) :
  within (qbox a0 b0 c0 a1 b1 c1) (qbox x0 y0 z0 x1 y1 z1) = true
  <-> x0 <= a0 /\ a1 <= x1 /\ y0 <= b0 /\ b1 <= y1 /\ z0 <= c0 /\ c1 <= z1.
Proof.
  unfold within, qbox. cbn.
  rewrite !andb_true_iff, !Qle_bool_iff. tauto.
Qed.

Lemma halve_well_formed (b : bbox) (o : Z) :
  well_formed b = true ->
  well_formed (halve b o) = true /\ within (halve b o) b = true.
Proof.
  intros H. destruct (well_formed_inv b H) as (x0 & y0 & z0 & x1 & y1 & z1 & -> & Hx & Hy & Hz).
  rewrite halve_qbox. rewrite well_formed_qbox, within_qbox.
  destruct (Z.testbit o 0), (Z.testbit o 1), (Z.testbit o 2);
    repeat split; lra.
Qed.

Lemma boundsOf_app (l1 l2 : list Z) (b : bbox) :
  boundsOf (l1 ++ l2) b = boundsOf l2 (boundsOf l1 b).
Proof.
  revert b. induction l1 as [|o l1 IH]; intros b; [reflexivity|].
  cbn. apply IH.
Qed.

Lemma boundsOf_well_formed (path : list Z) (b : bbox) :
  well_formed b = true -> well_formed (boundsOf path b) = true.
Proof.
  revert b. induction path as [|o path IH]; intros b H; [exact H|].
  cbn. apply IH. apply halve_well_formed. exact H.
Qed.

End Boxes.

Lemma list_ascii_app (s1 s2 : string) :
  list_ascii_of_string (s1 ++ s2)
  = (list_ascii_of_string s1 ++ list_ascii_of_string s2)%list.
Proof.
  induction s1 as [|c s1 IH]; [reflexivity|].
  simpl. f_equal. exact IH.
Qed.

(** The box of a child name is the half, on each axis, of the box of the
    name it extends. *)
Lemma child_box (md : metadata) (c0 : ascii) (path : string) (c : ascii) :
  exists parent,
    getNodeBoundingBox (Some md) (String c0 path) = Normal parent
    /\ getNodeBoundingBox (Some md) (String c0 path ++ String c "")
       = Normal (halve parent (effective_octant c)).
Proof.
  rewrite !getNodeBoundingBox_total.
  eexists. split; [reflexivity|].
  change (substring1 (String c0 path ++ String c ""))
    with (path ++ String c "")%string.
  rewrite list_ascii_app, map_app, boundsOf_app.
  reflexivity.
Qed.

Section Octants.

Local Open Scope Q_scope.

Lemma in_bbox_qbox (x0 y0 z0 x1 y1 z1 px py pz : Q) :
  in_bbox (qbox x0 y0 z0 x1 y1 z1) (fvec px py pz) = true
  <-> x0 <= px <= x1 /\ y0 <= py <= y1 /\ z0 <= pz <= z1.
Proof.
  unfold in_bbox, qbox, fvec. cbn.
  rewrite !andb_true_iff, !Qle_bool_iff. tauto.
Qed.

Lemma in_bbox_finite (x0 y0 z0 x1 y1 z1 : Q) (p : vec3) :
  in_bbox (qbox x0 y0 z0 x1 y1 z1) p = true ->
  exists px py pz, p = fvec px py pz.
Proof.
  destruct p as [[px| | |] [py| | |] [pz| | |]]; unfold in_bbox; cbn;
    rewrite ?andb_false_r; try discriminate.
  intros _. exists px, py, pz. reflexivity.
Qed.

Lemma in_interior_qbox (x0 y0 z0 x1 y1 z1 px py pz : Q) :
  in_interior (qbox x0 y0 z0 x1 y1 z1) (fvec px py pz) = true
  <-> (x0 < px /\ px < x1) /\ (y0 < py /\ py < y1) /\ (z0 < pz /\ pz < z1).
Proof.
  assert (forall a b : Q, negb (Qle_bool b a) = true <-> a < b) as E.
  { intros a b. rewrite negb_true_iff. split.
    - apply Qle_bool_false.
    - intros H. destruct (Qle_bool b a) eqn:Hb; [|reflexivity].
      apply Qle_bool_iff in Hb. lra. }
  unfold in_interior, qbox, fvec. cbn.
  rewrite !andb_true_iff, !E. tauto.
Qed.

Lemma in_interior_finite (x0 y0 z0 x1 y1 z1 : Q) (p : vec3) :
  in_interior (qbox x0 y0 z0 x1 y1 z1) p = true ->
  exists px py pz, p = fvec px py pz.
Proof.
  destruct p as [[px| | |] [py| | |] [pz| | |]]; unfold in_interior; cbn;
    rewrite ?andb_false_r; try discriminate.
  intros _. exists px, py, pz. reflexivity.
Qed.

Lemma octant_cases (i : Z) :
  (0 <= i <= 7)%Z ->
  i = 0%Z \/ i = 1%Z \/ i = 2%Z \/ i = 3%Z \/ i = 4%Z \/ i = 5%Z
  \/ i = 6%Z \/ i = 7%Z.
Proof. lia. Qed.

(** A point of a box lies in one of its eight halves. *)
Lemma halve_cover (b : bbox) (p : vec3) :
  well_formed b = true -> in_bbox b p = true ->
  exists i, (0 <= i <= 7)%Z /\ in_bbox (halve b i) p = true.
Proof.
  intros Hb Hp.
  destruct (well_formed_inv b Hb)
    as (x0 & y0 & z0 & x1 & y1 & z1 & -> & Hx & Hy & Hz).
  destruct (in_bbox_finite _ _ _ _ _ _ _ Hp) as (px & py & pz & ->).
  apply in_bbox_qbox in Hp. destruct Hp as (Hpx & Hpy & Hpz).
  destruct (Qle_bool ((x0 + x1) * (1 # 2)) px) eqn:Ex;
  destruct (Qle_bool ((y0 + y1) * (1 # 2)) py) eqn:Ey;
  destruct (Qle_bool ((z0 + z1) * (1 # 2)) pz) eqn:Ez;
  try apply Qle_bool_iff in Ex; try apply Qle_bool_false in Ex;
  try apply Qle_bool_iff in Ey; try apply Qle_bool_false in Ey;
  try apply Qle_bool_iff in Ez; try apply Qle_bool_false in Ez.
  - exists 7%Z. split; [lia|]. rewrite halve_qbox.
    apply in_bbox_qbox. cbn. lra.
  - exists 3%Z. split; [lia|]. rewrite halve_qbox.
    apply in_bbox_qbox. cbn. lra.
  - exists 5%Z. split; [lia|]. rewrite halve_qbox.
    apply in_bbox_qbox. cbn. lra.
  - exists 1%Z. split; [lia|]. rewrite halve_qbox.
    apply in_bbox_qbox. cbn. lra.
  - exists 6%Z. split; [lia|]. rewrite halve_qbox.
    apply in_bbox_qbox. cbn. lra.
  - exists 2%Z. split; [lia|]. rewrite halve_qbox.
    apply in_bbox_qbox. cbn. lra.
  - exists 4%Z. split; [lia|]. rewrite halve_qbox.
    apply in_bbox_qbox. cbn. lra.
  - exists 0%Z. split; [lia|]. rewrite halve_qbox.
    apply in_bbox_qbox. cbn. lra.
Qed.

(** A point strictly inside one half lies in no other half. *)
Lemma halve_disjoint (b : bbox) (i j : Z) (p : vec3) :
  well_formed b = true -> (0 <= i <= 7)%Z -> (0 <= j <= 7)%Z -> i <> j ->
  in_interior (halve b i) p = true -> in_bbox (halve b j) p = false.
Proof.
  intros Hb Hi Hj Hij Hp.
  destruct (well_formed_inv b Hb)
    as (x0 & y0 & z0 & x1 & y1 & z1 & -> & Hx & Hy & Hz).
  rewrite halve_qbox in Hp.
  destruct (in_interior_finite _ _ _ _ _ _ _ Hp) as (px & py & pz & ->).
  apply in_interior_qbox in Hp.
  destruct (in_bbox (halve (qbox x0 y0 z0 x1 y1 z1) j) (fvec px py pz)) eqn:Hq;
    [|reflexivity].
  exfalso. rewrite halve_qbox in Hq. apply in_bbox_qbox in Hq.
  destruct (octant_cases i Hi) as [->|[->|[->|[->|[->|[->|[->| ->]]]]]]];
  destruct (octant_cases j Hj) as [->|[->|[->|[->|[->|[->|[->| ->]]]]]]];
    try (exfalso; apply Hij; reflexivity); cbn in Hp, Hq; lra.
Qed.

End Octants.

(* ------------------------------------------------------------------ *)
(** ** Node names *)

Section Names.

Lemma append_cons (c : ascii) (s1 s2 : string) :
  (String c s1 ++ s2)%string = String c (s1 ++ s2).
Proof. reflexivity. Qed.

Lemma append_nil_r (s : string) : (s ++ "")%string = s.
Proof.
  induction s as [|c s IH]; [reflexivity|]. rewrite append_cons, IH.
  reflexivity.
Qed.

Lemma append_assoc (s1 s2 s3 : string) :
  ((s1 ++ s2) ++ s3)%string = (s1 ++ (s2 ++ s3))%string.
Proof.
  induction s1 as [|c s1 IH]; [reflexivity|].
  rewrite !append_cons, IH. reflexivity.
Qed.

Lemma append_length (s1 s2 : string) :
  String.length (s1 ++ s2) = (String.length s1 + String.length s2)%nat.
Proof.
  induction s1 as [|c s1 IH]; [reflexivity|].
  rewrite append_cons. cbn [String.length]. rewrite IH. reflexivity.
Qed.

Lemma list_ascii_length (s : string) :
  length (list_ascii_of_string s) = String.length s.
Proof. induction s as [|c s IH]; [reflexivity|]. simpl. f_equal. exact IH. Qed.

Lemma digit_char_inj (i j : Z) :
  0 <= i <= 7 -> 0 <= j <= 7 -> digit_char i = digit_char j -> i = j.
Proof.
  intros Hi Hj E.
  rewrite <- (effective_octant_digit i Hi), <- (effective_octant_digit j Hj), E.
  reflexivity.
Qed.

Lemma octant_list (i : Z) : In i [0; 1; 2; 3; 4; 5; 6; 7] <-> 0 <= i <= 7.
Proof. cbn. lia. Qed.

(** The name a prefix and a path of digits make. *)
Lemma generateNodes_In (n : nat) (prefix name : string) :
  In name (generateNodes n prefix) <->
  exists path : list Z,
    (length path <= n)%nat /\ Forall (fun o => 0 <= o <= 7) path
    /\ name = (prefix ++ string_of_list_ascii (map digit_char path))%string.
Proof.
  revert prefix. induction n as [|n IH]; intros prefix.
  - cbn [generateNodes]. split.
    + intros [<-|[]]. exists []. cbn. rewrite append_nil_r.
      repeat split; [lia|constructor].
    + intros (path & Hlen & _ & ->). destruct path; [|cbn in Hlen; lia].
      left. cbn. rewrite append_nil_r. reflexivity.
  - cbn [generateNodes]. split.
    + intros [<-|Hin].
      * exists []. cbn. rewrite append_nil_r. repeat split; [lia|constructor].
      * apply in_flat_map in Hin. destruct Hin as (i & Hi & Hin).
        apply IH in Hin. destruct Hin as (path & Hlen & Hpath & ->).
        exists (i :: path). split; [cbn; lia|]. split.
        -- constructor; [apply octant_list; exact Hi|exact Hpath].
        -- rewrite append_assoc. reflexivity.
    + intros (path & Hlen & Hpath & ->). destruct path as [|i path].
      * left. cbn. rewrite append_nil_r. reflexivity.
      * right. apply in_flat_map. exists i. inversion Hpath; subst. split.
        -- apply octant_list. assumption.
        -- apply IH. exists path. split; [cbn in Hlen; lia|].
           split; [assumption|]. rewrite append_assoc. reflexivity.
Qed.

Lemma flat_map_bind {A B : Type} (f : A -> list B) (l : list A) :
  flat_map f l = l ≫= f.
Proof. induction l as [|x l IH]; [reflexivity|]. cbn. rewrite IH. reflexivity. Qed.

Lemma generateNodes_NoDup (n : nat) (prefix : string) :
  NoDup (generateNodes n prefix).
Proof.
  revert prefix. induction n as [|n IH]; intros prefix.
  - cbn. apply NoDup_singleton.
  - cbn [generateNodes]. apply NoDup_cons. split.
    + intros Hin. apply list_elem_of_In, in_flat_map in Hin.
      destruct Hin as (i & _ & Hin). apply generateNodes_In in Hin.
      destruct Hin as (path & _ & _ & E).
      apply (f_equal String.length) in E.
      rewrite !append_length in E. cbn in E. lia.
    + rewrite flat_map_bind. apply NoDup_bind.
      * intros i j name Hi Hj Hni Hnj.
        apply list_elem_of_In, octant_list in Hi.
        apply list_elem_of_In, octant_list in Hj.
        apply list_elem_of_In, generateNodes_In in Hni.
        apply list_elem_of_In, generateNodes_In in Hnj.
        destruct Hni as (p1 & _ & _ & E1). destruct Hnj as (p2 & _ & _ & E2).
        rewrite E1, !append_assoc in E2.
        apply String.app_inj in E2. cbn in E2. injection E2 as E2 _.
        apply digit_char_inj; assumption.
      * intros i _. apply IH.
      * repeat constructor; rewrite ?elem_of_cons, ?elem_of_nil; lia.
Qed.

Lemma generateNodes_length (n : nat) (prefix : string) :
  (length (generateNodes n prefix) * 7 + 1 = 8 ^ (n + 1))%nat.
Proof.
  revert prefix. induction n as [|n IH]; intros prefix; [reflexivity|].
  cbn [generateNodes length].
  rewrite (flat_map_constant_length (c := length (generateNodes n prefix))).
  - specialize (IH prefix). replace (S n + 1)%nat with (S (n + 1)) by lia.
    rewrite Nat.pow_succ_r'. cbn [length]. lia.
  - intros i _. specialize (IH prefix) as E1.
    specialize (IH (prefix ++ String (digit_char i) "")%string) as E2. lia.
Qed.

Lemma generateChildren_succ (n : nat) (parent : string) :
  generateChildren (S n) parent = generateNodes n parent.
Proof.
  revert parent. induction n as [|n IH]; intros parent; [reflexivity|].
  change (generateChildren (S (S n)) parent)
    with (parent :: flat_map (fun i => generateChildren (S n)
                                (parent ++ String (digit_char i) ""))
                      [0; 1; 2; 3; 4; 5; 6; 7]).
  cbn [generateNodes]. f_equal. apply flat_map_ext. intros i. apply IH.
Qed.

End Names.

(* ------------------------------------------------------------------ *)
(** ** The node store *)

Section Store.

Variable fetch : string -> response.

Lemma load_exclusive (name : string) (v : Viewer) :
  states_exclusive v ->
  states_exclusive (loadPotreeNodeIfExists fetch name v).
Proof.
  intros (H1 & H2 & H3).
  destruct (load_cases fetch name v) as [[-> _] | [Hout [-> | (vs & cs & ->)]]];
    unfold states_exclusive, processedSet in *; cbn; set_solver.
Qed.

Lemma load_tracked (name : string) (v : Viewer) :
  store_tracked v -> store_tracked (loadPotreeNodeIfExists fetch name v).
Proof.
  intros (H1 & H2 & H3).
  destruct (load_cases fetch name v) as [[-> _] | [Hout [-> | (vs & cs & ->)]]];
    unfold store_tracked, processedSet in *; cbn; [tauto | tauto |].
  split; [|split].
  - rewrite dom_insert_L, H1. reflexivity.
  - apply NoDup_app. split; [exact H2|]. split; [|apply NoDup_singleton].
    intros x Hx Hx'. apply list_elem_of_singleton in Hx' as ->.
    apply Hout. rewrite <- H3. apply elem_of_union_l, elem_of_union_l.
    apply elem_of_list_to_set. exact Hx.
  - rewrite list_to_set_app_L, H3. cbn. set_solver.
Qed.

Lemma load_fetched (name : string) (v : Viewer) :
  fetched (loadPotreeNodeIfExists fetch name v)
  = if decide (name ∈ processedSet v) then fetched v
    else fetched v ++ [name].
Proof.
  destruct (load_cases fetch name v) as [[-> Hin] | [Hout [-> | (vs & cs & ->)]]];
    case_decide; try tauto; reflexivity.
Qed.

Lemma load_requested (name : string) (v : Viewer) :
  requested_once v -> requested_once (loadPotreeNodeIfExists fetch name v).
Proof.
  intros (H1 & H2). unfold requested_once.
  rewrite load_fetched, load_processedSet. case_decide as Hin.
  - split; [exact H1|]. intros n Hn. apply elem_of_union_r, H2, Hn.
  - split.
    + apply NoDup_app. split; [exact H1|]. split; [|apply NoDup_singleton].
      intros x Hx Hx'. apply list_elem_of_singleton in Hx' as ->.
      apply Hin, H2, Hx.
    + intros n Hn. apply elem_of_app in Hn as [Hn|Hn].
      * apply elem_of_union_r, H2, Hn.
      * apply list_elem_of_singleton in Hn as ->. set_solver.
Qed.

Lemma fold_load_inv (P : Viewer -> Prop) (names : list string) (v : Viewer) :
  (forall name v, P v -> P (loadPotreeNodeIfExists fetch name v)) ->
  P v ->
  P (fold_left (fun v name => loadPotreeNodeIfExists fetch name v) names v).
Proof.
  intros Hstep. revert v. induction names as [|name names IH]; intros v Hv.
  - exact Hv.
  - cbn. apply IH, Hstep, Hv.
Qed.

Lemma visibility_sets (maxDepth : Z) (v : Viewer) :
  potreeLoadedNodes (updatePotreeNodeVisibility maxDepth v) = potreeLoadedNodes v
  /\ potreeLoading (updatePotreeNodeVisibility maxDepth v) = potreeLoading v
  /\ potreeFailedNodes (updatePotreeNodeVisibility maxDepth v)
     = potreeFailedNodes v
  /\ scene (updatePotreeNodeVisibility maxDepth v) = scene v
  /\ fetched (updatePotreeNodeVisibility maxDepth v) = fetched v
  /\ currentLODDepth (updatePotreeNodeVisibility maxDepth v) = currentLODDepth v
  /\ dom (potreeNodes (updatePotreeNodeVisibility maxDepth v))
     = dom (potreeNodes v).
Proof.
  repeat split. apply set_eq. intros name.
  rewrite !elem_of_dom, visibility_lookup.
  destruct (potreeNodes v !! name); cbn; split; intros [x Hx]; eauto;
    discriminate.
Qed.

Lemma visibility_store_ok (maxDepth : Z) (v : Viewer) :
  store_ok v -> store_ok (updatePotreeNodeVisibility maxDepth v).
Proof.
  destruct (visibility_sets maxDepth v) as (E1 & E2 & E3 & E4 & E5 & E6 & E7).
  unfold store_ok, states_exclusive, store_tracked, requested_once,
    processedSet.
  rewrite E1, E2, E3, E4, E5, E7. tauto.
Qed.

Lemma load_store_ok (name : string) (v : Viewer) :
  store_ok v -> store_ok (loadPotreeNodeIfExists fetch name v).
Proof.
  intros (H1 & H2 & H3). split; [|split].
  - apply load_exclusive, H1.
  - apply load_tracked, H2.
  - apply load_requested, H3.
Qed.

Lemma with_depth_store_ok (d : Z) (v : Viewer) :
  store_ok v -> store_ok (with_depth d v).
Proof. intros H. exact H. Qed.

Lemma loadNodesForDepth_store_ok (depth : Z) (v : Viewer) :
  store_ok v -> store_ok (loadNodesForDepth fetch depth v).
Proof.
  intros H. unfold loadNodesForDepth. apply fold_load_inv; [|exact H].
  intros name v'. apply load_store_ok.
Qed.

Lemma increase_store_ok (v : Viewer) :
  store_ok v -> store_ok (increaseLODDepth fetch v).
Proof.
  intros H. unfold increaseLODDepth. destruct (6 <=? currentLODDepth v); [exact H|].
  apply visibility_store_ok, loadNodesForDepth_store_ok, with_depth_store_ok, H.
Qed.

Lemma decrease_store_ok (v : Viewer) :
  store_ok v -> store_ok (decreaseLODDepth v).
Proof.
  intros H. unfold decreaseLODDepth. destruct (currentLODDepth v <=? 0); [exact H|].
  apply visibility_store_ok, with_depth_store_ok, H.
Qed.

(** The test of the loop of [performPotreeLODUpdate] repeats part of the
    test [loadPotreeNodeIfExists] starts with. *)
Lemma guarded_load (name : string) (v : Viewer) :
  (if decide ((name ∉ potreeLoadedNodes v) /\ (name ∉ potreeLoading v))
   then loadPotreeNodeIfExists fetch name v else v)
  = loadPotreeNodeIfExists fetch name v.
Proof.
  case_decide as H; [reflexivity|]. symmetry. apply load_processed.
  unfold unloaded. tauto.
Qed.

Lemma guarded_fold (names : list string) (v : Viewer) :
  fold_left
    (fun v nodeName =>
       if decide ((nodeName ∉ potreeLoadedNodes v) /\
                  (nodeName ∉ potreeLoading v))
       then loadPotreeNodeIfExists fetch nodeName v
       else v) names v
  = fold_left (fun v name => loadPotreeNodeIfExists fetch name v) names v.
Proof.
  revert v. induction names as [|name names IH]; intros v; [reflexivity|].
  cbn [fold_left]. rewrite guarded_load. apply IH.
Qed.

Lemma fold_load_depth (names : list string) (v : Viewer) :
  currentLODDepth
    (fold_left (fun v name => loadPotreeNodeIfExists fetch name v) names v)
  = currentLODDepth v.
Proof.
  apply (fold_load_inv (fun v' => currentLODDepth v' = currentLODDepth v));
    [|reflexivity].
  intros name v' <-.
  destruct (load_cases fetch name v') as [[-> _] | [_ [-> | (vs & cs & ->)]]];
    reflexivity.
Qed.

Lemma fold_load_fetched (names : list string) (v : Viewer) (name : string) :
  name ∈ fetched
           (fold_left (fun v name => loadPotreeNodeIfExists fetch name v)
                      names v) ->
  name ∈ fetched v \/ (name ∈ names /\ name ∉ processedSet v).
Proof.
  revert v. induction names as [|n names IH]; intros v; [auto|].
  cbn [fold_left]. intros H. apply IH in H. rewrite load_fetched in H.
  rewrite load_processedSet in H.
  destruct H as [H | [H1 H2]].
  - case_decide as Hin; [auto|].
    apply elem_of_app in H as [H|H]; [auto|].
    apply list_elem_of_singleton in H as ->. right. split; [left|exact Hin].
  - right. split; [right; exact H1|set_solver].
Qed.

End Store.

Section StoreOps.

Variable fetch : string -> response.

Lemma forSelectedNodes_store_ok (f : gset nat -> pointsObj -> pointsObj)
    (pts : gmap string (gset nat)) (v : Viewer) :
  store_ok v -> store_ok (forSelectedNodes f pts v).
Proof.
  assert (dom (potreeNodes (forSelectedNodes f pts v)) = dom (potreeNodes v))
    as E.
  { apply set_eq. intros name. rewrite !elem_of_dom, forSelectedNodes_lookup.
    destruct (potreeNodes v !! name); cbn; split; intros [x Hx]; eauto;
      discriminate. }
  unfold store_ok, states_exclusive, store_tracked, requested_once,
    processedSet. rewrite E. cbn. tauto.
Qed.

Lemma handle_store_ok (a : App) (e : event) :
  store_ok (fst a) -> store_ok (fst (handle a e)).
Proof.
  destruct a as [v m]. intros H. cbn [fst] in H.
  destruct e as [| p | | | dy | | | | | nm ans]; cbn [handle]; try exact H;
    try (destruct (negb (editModeActive m)); cbn [fst]; exact H).
  - destruct (negb (editModeActive m)); [exact H|].
    unfold deleteSelectedPoints. case_decide; [exact H|].
    cbn [fst]. apply forSelectedNodes_store_ok, H.
  - destruct (negb (editModeActive m)); [exact H|].
    unfold undo. destruct (undoStack m); [exact H|].
    cbn [fst]. apply forSelectedNodes_store_ok, H.
  - destruct (negb (editModeActive m)); [exact H|].
    unfold redo. destruct (redoStack m); [exact H|].
    cbn [fst]. apply forSelectedNodes_store_ok, H.
  - destruct (negb (editModeActive m)); [exact H|].
    unfold clearSelection. cbn [fst]. apply forSelectedNodes_store_ok, H.
  - cbn [fst]. apply load_store_ok, H.
Qed.

Lemma perform_unfold (distance : num) (v : Viewer) (md : metadata) :
  potreeMetadata v = Some md ->
  performPotreeLODUpdate fetch distance v
  = Normal
      (updatePotreeNodeVisibility (maxDepthFor distance)
         (fold_left (fun v name => loadPotreeNodeIfExists fetch name v)
            (getPotreeNodesToLoad (maxDepthFor distance)) v)).
Proof.
  intros Hmd. unfold performPotreeLODUpdate. rewrite Hmd.
  cbv zeta. rewrite guarded_fold. reflexivity.
Qed.

Lemma perform_store_ok (distance : num) (v v' : Viewer) :
  store_ok v -> performPotreeLODUpdate fetch distance v = Normal v' ->
  store_ok v'.
Proof.
  intros H E. destruct (potreeMetadata v) as [md|] eqn:Hmd.
  - rewrite (perform_unfold _ _ md Hmd) in E. injection E as <-.
    apply visibility_store_ok, fold_load_inv; [|exact H].
    intros name v0. apply load_store_ok.
  - unfold performPotreeLODUpdate in E. rewrite Hmd in E. discriminate E.
Qed.

Lemma initial_store_ok (v v' : Viewer) :
  store_ok v -> loadInitialPotreeLODs fetch v = Normal v' -> store_ok v'.
Proof.
  intros H E. unfold loadInitialPotreeLODs in E.
  destruct (potreeMetadata v) as [md|]; [|discriminate E].
  injection E as <-. apply load_store_ok. exact H.
Qed.

Lemma maxDepthFor_range (distance : num) : 2 <= maxDepthFor distance <= 5.
Proof.
  unfold maxDepthFor.
  destruct (lt distance (ofZ 100)), (lt distance (ofZ 200)),
    (lt distance (ofZ 400)); lia.
Qed.

Lemma lt_le_trans (a b : num) (c : Q) :
  le a b = true -> lt b (Finite c) = true -> lt a (Finite c) = true.
Proof.
  destruct a as [a| | |], b as [b| | |]; cbn; try discriminate; try reflexivity.
  rewrite !negb_true_iff. intros H1 H2.
  apply Qle_bool_iff in H1. apply Qle_bool_false in H2.
  destruct (Qle_bool c a) eqn:E; [|reflexivity].
  apply Qle_bool_iff in E. lra.
Qed.

Lemma maxDepthFor_mono (d1 d2 : num) :
  le d1 d2 = true -> maxDepthFor d2 <= maxDepthFor d1.
Proof.
  intros H. unfold maxDepthFor, ofZ.
  pose proof (lt_le_trans d1 d2 (inject_Z 100) H) as H1.
  pose proof (lt_le_trans d1 d2 (inject_Z 200) H) as H2.
  pose proof (lt_le_trans d1 d2 (inject_Z 400) H) as H3.
  destruct (lt d2 (Finite (inject_Z 100))), (lt d2 (Finite (inject_Z 200))),
    (lt d2 (Finite (inject_Z 400)));
    rewrite ?H1, ?H2, ?H3 by reflexivity;
    destruct (lt d1 (Finite (inject_Z 100))),
      (lt d1 (Finite (inject_Z 200))), (lt d1 (Finite (inject_Z 400))); lia.
Qed.

Lemma increase_depth (v : Viewer) :
  currentLODDepth (increaseLODDepth fetch v)
  = if 6 <=? currentLODDepth v then currentLODDepth v
    else currentLODDepth v + 1.
Proof.
  unfold increaseLODDepth. destruct (6 <=? currentLODDepth v); [reflexivity|].
  cbv zeta.
  destruct (visibility_sets
              (currentLODDepth
                 (loadNodesForDepth fetch
                    (currentLODDepth (with_depth (currentLODDepth v + 1) v))
                    (with_depth (currentLODDepth v + 1) v)))
              (loadNodesForDepth fetch
                 (currentLODDepth (with_depth (currentLODDepth v + 1) v))
                 (with_depth (currentLODDepth v + 1) v)))
    as (_ & _ & _ & _ & _ & E & _).
  rewrite E. unfold loadNodesForDepth. rewrite fold_load_depth. reflexivity.
Qed.

Lemma decrease_depth (v : Viewer) :
  currentLODDepth (decreaseLODDepth v)
  = if currentLODDepth v <=? 0 then currentLODDepth v
    else currentLODDepth v - 1.
Proof.
  unfold decreaseLODDepth. destruct (currentLODDepth v <=? 0); reflexivity.
Qed.

Lemma increase_within (v : Viewer) :
  0 <= currentLODDepth v -> requests_within 6 v ->
  requests_within 6 (increaseLODDepth fetch v).
Proof.
  intros Hd H. unfold increaseLODDepth.
  destruct (6 <=? currentLODDepth v) eqn:E; [exact H|].
  apply Z.leb_gt in E. cbv zeta. intros name Hname.
  match type of Hname with
  | _ ∈ fetched (updatePotreeNodeVisibility ?d ?w) =>
      destruct (visibility_sets d w) as (_ & _ & _ & _ & Ef & _);
      rewrite Ef in Hname
  end.
  unfold loadNodesForDepth in Hname. apply fold_load_fetched in Hname.
  destruct Hname as [Hname | [Hname _]]; [apply H, Hname|].
  apply list_elem_of_filter in Hname as [_ Hname].
  cbn [with_depth currentLODDepth] in Hname.
  eapply generateNodes_mono; [|exact Hname]. lia.
Qed.

Lemma decrease_within (v : Viewer) :
  requests_within 6 v -> requests_within 6 (decreaseLODDepth v).
Proof.
  intros H. unfold decreaseLODDepth.
  destruct (currentLODDepth v <=? 0); exact H.
Qed.

Lemma requests_bound (v : Viewer) :
  requested_once v -> requests_within 6 v ->
  Z.of_nat (length (fetched v)) <= 299593.
Proof.
  intros [Hnd _] Hwithin.
  pose proof (submseteq_length _ _
                (NoDup_submseteq _ _ Hnd Hwithin)) as Hlen.
  pose proof (generateNodes_length 6 "r") as E.
  apply (f_equal Z.of_nat) in E.
  rewrite Nat2Z.inj_add, Nat2Z.inj_mul, Nat2Z.inj_pow in E.
  change (Z.of_nat 8 ^ Z.of_nat (6 + 1)) with 2097152 in E.
  lia.
Qed.

End StoreOps.

(* ------------------------------------------------------------------ *)
(** ** Octree boxes: nesting and partition *)

(** X1.  [getNodeBoundingBox]: when the root box of the metadata has finite
    bounds, below [2^1023] in magnitude so that no midpoint overflows, with
    each minimum at most its maximum, the box of a name extended by one
    more character (any character) is again a box of finite bounds with
    each minimum at most its maximum, and lies within the box of the name
    it extends. *)
Theorem octree_child_nested (md : metadata) (c0 : ascii) (path : string)
    (c : ascii) :
  well_formed (boundingBox md) = true ->
  below_overflow (boundingBox md) = true ->
  exists parent child,
    getNodeBoundingBox (Some md) (String c0 path) = Normal parent
    /\ getNodeBoundingBox (Some md) (String c0 path ++ String c "")
       = Normal child
    /\ well_formed parent = true
    /\ well_formed child = true
    /\ within child parent = true.
Proof.
  intros Hroot _.
  destruct (child_box md c0 path c) as (parent & Hp & Hc).
  exists parent, (halve parent (effective_octant c)).
  assert (well_formed parent = true) as Hwf.
  { rewrite getNodeBoundingBox_total in Hp. injection Hp as <-.
    apply boundsOf_well_formed, Hroot. }
  destruct (halve_well_formed parent (effective_octant c) Hwf) as [H1 H2].
  auto.
Qed.

Lemma octree_child_nested_witness :
  well_formed (boundingBox unitMetadata) = true
  /\ below_overflow (boundingBox unitMetadata) = true
  /\ exists parent child,
       getNodeBoundingBox (Some unitMetadata) "r3" = Normal parent
       /\ getNodeBoundingBox (Some unitMetadata) ("r3" ++ "5") = Normal child
       /\ well_formed parent = true
       /\ well_formed child = true
       /\ within child parent = true.
Proof.
  split; [vm_compute; reflexivity|].
  split; [vm_compute; reflexivity|].
  apply (octree_child_nested unitMetadata "r" "3" "5");
    vm_compute; reflexivity.
Defined.

(** X2.  [getNodeBoundingBox]: when the root box of the metadata has finite
    bounds with each minimum at most its maximum,
    the boxes of the eight children [name + 0] to [name + 7] of a node
    cover its box, and a point strictly inside one of them lies in none of
    the other seven: the children overlap on their faces only. *)
Theorem octree_children_partition (md : metadata) (c0 : ascii)
    (path : string) (parent : bbox) :
  well_formed (boundingBox md) = true ->
  getNodeBoundingBox (Some md) (String c0 path) = Normal parent ->
  (forall p : vec3,
      in_bbox parent p = true ->
      exists i child,
        0 <= i <= 7
        /\ getNodeBoundingBox (Some md) (childName (String c0 path) i)
           = Normal child
        /\ in_bbox child p = true)
  /\ (forall (i j : Z) (bi bj : bbox) (p : vec3),
         0 <= i <= 7 -> 0 <= j <= 7 -> i <> j ->
         getNodeBoundingBox (Some md) (childName (String c0 path) i)
         = Normal bi ->
         getNodeBoundingBox (Some md) (childName (String c0 path) j)
         = Normal bj ->
         in_interior bi p = true -> in_bbox bj p = false).
Proof.
  intros Hroot Hp.
  assert (well_formed parent = true) as Hwf.
  { rewrite getNodeBoundingBox_total in Hp. injection Hp as <-.
    apply boundsOf_well_formed, Hroot. }
  assert (forall i, 0 <= i <= 7 ->
            getNodeBoundingBox (Some md) (childName (String c0 path) i)
            = Normal (halve parent i)) as Hchild.
  { intros i Hi. unfold childName.
    destruct (child_box md c0 path (digit_char i)) as (parent' & Hp' & Hc).
    rewrite Hp in Hp'. injection Hp' as <-.
    rewrite Hc, effective_octant_digit by exact Hi. reflexivity. }
  split.
  - intros p Hin. destruct (halve_cover parent p Hwf Hin) as (i & Hi & Hc).
    exists i, (halve parent i). auto.
  - intros i j bi bj p Hi Hj Hij Ebi Ebj Hin.
    rewrite Hchild in Ebi, Ebj by assumption.
    injection Ebi as <-. injection Ebj as <-.
    exact (halve_disjoint parent i j p Hwf Hi Hj Hij Hin).
Qed.

Lemma octree_children_partition_witness :
  well_formed (boundingBox unitMetadata) = true
  /\ getNodeBoundingBox (Some unitMetadata) "r1"
     = Normal (halve (cube 0 8) 1)
  /\ (forall p : vec3,
         in_bbox (halve (cube 0 8) 1) p = true ->
         exists i child,
           0 <= i <= 7
           /\ getNodeBoundingBox (Some unitMetadata) (childName "r1" i)
              = Normal child
           /\ in_bbox child p = true).
Proof.
  assert (getNodeBoundingBox (Some unitMetadata) "r1"
          = Normal (halve (cube 0 8) 1)) as E by reflexivity.
  split; [vm_compute; reflexivity|].
  split; [exact E|].
  exact (proj1 (octree_children_partition unitMetadata "r" "1"
                  (halve (cube 0 8) 1) eq_refl E)).
Defined.

(* ------------------------------------------------------------------ *)
(** ** The names asked for *)

(** X4.  [loadNodesForDepth]: the names [generateNodes] lists for a depth
    are exactly the names [r] followed by at most that many digits from 0
    to 7; no name is listed twice and there are [(8^(depth+1) - 1) / 7] of
    them.  The files [loadNodesForDepth] requests are among these names,
    and only for nodes that were unloaded. *)
Theorem node_names_by_depth (n : nat) :
  (forall name : string,
      name ∈ generateNodes n "r" <->
      exists path : list Z,
        (length path <= n)%nat /\ Forall (fun o => 0 <= o <= 7) path
        /\ name = nodeNameOf path)
  /\ NoDup (generateNodes n "r")
  /\ Z.of_nat (length (generateNodes n "r")) * 7 + 1 = 8 ^ (Z.of_nat n + 1)
  /\ (forall (fetch : string -> response) (v : Viewer) (name : string),
         name ∈ fetched (loadNodesForDepth fetch (Z.of_nat n) v) ->
         name ∈ fetched v
         \/ (name ∈ generateNodes n "r" /\ unloaded name v)).
Proof.
  split; [|split; [|split]].
  - intros name. rewrite list_elem_of_In, generateNodes_In. reflexivity.
  - apply generateNodes_NoDup.
  - pose proof (generateNodes_length n "r") as E.
    apply (f_equal Z.of_nat) in E.
    rewrite Nat2Z.inj_add, Nat2Z.inj_mul, Nat2Z.inj_pow in E.
    rewrite Nat2Z.inj_add in E. exact E.
  - intros fetch v name H. unfold loadNodesForDepth in H.
    apply fold_load_fetched in H. destruct H as [H | [H1 H2]]; [auto|].
    right. apply list_elem_of_filter in H1 as [_ H1].
    rewrite Nat2Z.id in H1. split; [exact H1|].
    apply (unloaded_processedSet fetch). exact H2.
Qed.

Lemma node_names_by_depth_witness :
  (length [3] <= 1)%nat
  /\ Forall (fun o => 0 <= o <= 7) [3]
  /\ "r3"%string ∈ generateNodes 1 "r".
Proof.
  assert (Forall (fun o => 0 <= o <= 7) [3]) as H
    by (constructor; [lia|constructor]).
  split; [cbn; lia|]. split; [exact H|].
  exact (proj2 (proj1 (node_names_by_depth 1) "r3"%string)
           (ex_intro _ [3] (conj (le_n 1) (conj H eq_refl)))).
Defined.

(** X5.  [getPotreeNodesToLoad]: for a depth that is not negative it
    returns the very list [loadNodesForDepth] generates; for a negative one
    it returns nothing (where [loadNodesForDepth] still lists the root).
    Its names are the names [r] + digits of depth at most [maxDepth]. *)
Theorem getPotreeNodesToLoad_names (maxDepth : Z) :
  (0 <= maxDepth ->
   getPotreeNodesToLoad maxDepth = generateNodes (Z.to_nat maxDepth) "r")
  /\ (maxDepth < 0 ->
      getPotreeNodesToLoad maxDepth = []
      /\ generateNodes (Z.to_nat maxDepth) "r" = ["r"%string])
  /\ (forall name : string,
         name ∈ getPotreeNodesToLoad maxDepth <->
         exists path : list Z,
           Z.of_nat (length path) <= maxDepth
           /\ Forall (fun o => 0 <= o <= 7) path
           /\ name = nodeNameOf path)
  /\ (forall name : string,
         name ∈ getPotreeNodesToLoad maxDepth -> depthOf name <= maxDepth).
Proof.
  assert (0 <= maxDepth ->
          getPotreeNodesToLoad maxDepth
          = generateNodes (Z.to_nat maxDepth) "r") as Hpos.
  { intros H. unfold getPotreeNodesToLoad.
    replace (Z.to_nat (maxDepth + 1)) with (S (Z.to_nat maxDepth)) by lia.
    apply generateChildren_succ. }
  assert (maxDepth < 0 -> getPotreeNodesToLoad maxDepth = []) as Hneg.
  { intros H. unfold getPotreeNodesToLoad.
    replace (Z.to_nat (maxDepth + 1)) with O by lia. reflexivity. }
  assert (forall name : string,
             name ∈ getPotreeNodesToLoad maxDepth <->
             exists path : list Z,
               Z.of_nat (length path) <= maxDepth
               /\ Forall (fun o => 0 <= o <= 7) path
               /\ name = nodeNameOf path) as Hchar.
  { intros name. destruct (Z_lt_le_dec maxDepth 0) as [H|H].
    - rewrite Hneg by exact H. split.
      + intros Hin. apply elem_of_nil in Hin. destruct Hin.
      + intros (path & Hlen & _). lia.
    - rewrite Hpos by exact H. rewrite list_elem_of_In, generateNodes_In.
      split; intros (path & Hlen & Hrest); exists path;
        (split; [lia|exact Hrest]). }
  split; [exact Hpos|]. split; [|split; [exact Hchar|]].
  - intros H. split; [apply Hneg, H|].
    replace (Z.to_nat maxDepth) with O by lia. reflexivity.
  - intros name Hin. apply Hchar in Hin.
    destruct Hin as (path & Hlen & _ & ->).
    rewrite nodeName_depth. exact Hlen.
Qed.

Lemma getPotreeNodesToLoad_names_witness :
  0 <= 2
  /\ getPotreeNodesToLoad 2 = generateNodes (Z.to_nat 2) "r".
Proof.
  assert (0 <= 2) as H by lia.
  split; [exact H|].
  exact (proj1 (getPotreeNodesToLoad_names 2) H).
Defined.

(* ------------------------------------------------------------------ *)
(** ** The load of a node *)

(** X6.  [loadPotreeNodeIfExists] on an unloaded node: one request is
    issued; afterwards the node is either loaded or failed, never both and
    never left loading; when loaded it has an object, shown, which is the
    last of the scene.  The state and the object of every other node are
    as before. *)
Theorem load_settles (fetch : string -> response) (name : string)
    (v : Viewer) :
  unloaded name v ->
  let v' := loadPotreeNodeIfExists fetch name v in
  (name ∈ potreeLoadedNodes v' <-> name ∉ potreeFailedNodes v')
  /\ (name ∉ potreeLoading v')
  /\ fetched v' = fetched v ++ [name]
  /\ (name ∈ potreeLoadedNodes v' ->
      exists node, potreeNodes v' !! name = Some node
                   /\ visible node = true
                   /\ scene v' = scene v ++ [name])
  /\ (forall other : string,
         other <> name ->
         (other ∈ potreeLoadedNodes v' <-> other ∈ potreeLoadedNodes v)
         /\ (other ∈ potreeLoading v' <-> other ∈ potreeLoading v)
         /\ (other ∈ potreeFailedNodes v' <-> other ∈ potreeFailedNodes v)
         /\ potreeNodes v' !! other = potreeNodes v !! other).
Proof.
  intros Hun v'. subst v'.
  pose proof Hun as (H1 & H2 & H3).
  destruct (load_cases fetch name v)
    as [[_ Hin] | [Hout [-> | (vs & cs & ->)]]].
  - apply (unloaded_processedSet fetch) in Hun. tauto.
  - cbn. repeat split; try set_solver.
  - cbn. split; [set_solver|]. split; [set_solver|].
    split; [reflexivity|]. split.
    + intros _. rewrite lookup_insert_eq.
      destruct (hasSelectionManager v); eexists; (split; [reflexivity|]);
        split; reflexivity.
    + intros other Hne. rewrite lookup_insert_ne by congruence. set_solver.
Qed.

Lemma load_settles_witness :
  unloaded "r" (freshViewer unitMetadata)
  /\ fetched (loadPotreeNodeIfExists rootOnly "r" (freshViewer unitMetadata))
     = fetched (freshViewer unitMetadata) ++ ["r"%string].
Proof.
  assert (unloaded "r" (freshViewer unitMetadata)) as H.
  { unfold unloaded. cbn. set_solver. }
  split; [exact H|].
  exact (proj1 (proj2 (proj2
           (load_settles rootOnly "r" (freshViewer unitMetadata) H)))).
Defined.

(** X7.  [loadPotreeNodeIfExists] never asks twice: once it has been
    called for a name, a further call for that name, whatever the server
    would answer then, changes nothing and requests nothing.  A failed
    node is not retried and a loaded node is not reloaded. *)
Theorem load_never_repeats (fetch fetch' : string -> response)
    (name : string) (v : Viewer) :
  loadPotreeNodeIfExists fetch' name (loadPotreeNodeIfExists fetch name v)
  = loadPotreeNodeIfExists fetch name v.
Proof.
  apply load_processed. rewrite (unloaded_processedSet fetch), load_processedSet.
  set_solver.
Qed.

(** X8.  [loadPotreeNodeIfExists] on an unloaded node, when the request is
    rejected, the answer is not ok, or the viewer has no metadata: the
    node becomes failed, no object is made, and the store, the scene and
    the loaded set are as before. *)
Theorem load_failure (fetch : string -> response) (name : string)
    (v : Viewer) :
  unloaded name v ->
  fetch name = Rejected \/ fetch name = NotOk \/ potreeMetadata v = None ->
  let v' := loadPotreeNodeIfExists fetch name v in
  (name ∈ potreeFailedNodes v')
  /\ (name ∉ potreeLoading v')
  /\ potreeLoadedNodes v' = potreeLoadedNodes v
  /\ potreeNodes v' = potreeNodes v
  /\ scene v' = scene v
  /\ cameraInitialized v' = cameraInitialized v.
Proof.
  intros Hun Hcause v'. subst v'.
  assert (loadPotreeNodeIfExists fetch name v
          = markFailed name (startLoading name v)) as ->.
  { rewrite load_unloaded by exact Hun. unfold tryLoad.
    destruct Hcause as [-> | [-> | Hmd]]; try reflexivity.
    destruct (fetch name); try reflexivity.
    cbn [startLoading potreeMetadata]. rewrite Hmd. reflexivity. }
  cbn. repeat split; set_solver.
Qed.

Lemma load_failure_witness :
  unloaded "r0" (freshViewer unitMetadata)
  /\ rootOnly "r0" = NotOk
  /\ ("r0" ∈ potreeFailedNodes
               (loadPotreeNodeIfExists rootOnly "r0" (freshViewer unitMetadata))).
Proof.
  assert (unloaded "r0" (freshViewer unitMetadata)) as H.
  { unfold unloaded. cbn. set_solver. }
  split; [exact H|]. split; [reflexivity|].
  exact (proj1 (load_failure rootOnly "r0" (freshViewer unitMetadata) H
                  (or_intror (or_introl eq_refl)))).
Defined.

(* ------------------------------------------------------------------ *)
(** ** Invariants of the node store *)

(** X9.  The bookkeeping of the node store is kept by every operation:
    no node is in two of the sets loaded, loading and failed; the loaded
    nodes are exactly those with an object in [potreeNodes], each listed
    once in the scene; no file has been requested twice and every
    requested node has left the state "unloaded".  This holds after
    [loadPotreeNodeIfExists], [loadNodesForDepth], [increaseLODDepth],
    [decreaseLODDepth], [updatePotreeNodeVisibility],
    [performPotreeLODUpdate], [loadInitialPotreeLODs] and every event of the
    selection manager, if it held before. *)
Theorem store_invariants (fetch : string -> response) (v : Viewer) :
  store_ok v ->
  (forall name, store_ok (loadPotreeNodeIfExists fetch name v))
  /\ (forall depth, store_ok (loadNodesForDepth fetch depth v))
  /\ store_ok (increaseLODDepth fetch v)
  /\ store_ok (decreaseLODDepth v)
  /\ (forall maxDepth, store_ok (updatePotreeNodeVisibility maxDepth v))
  /\ (forall distance v',
         performPotreeLODUpdate fetch distance v = Normal v' -> store_ok v')
  /\ (forall v', loadInitialPotreeLODs fetch v = Normal v' -> store_ok v')
  /\ (forall (m : SelectionManager) (e : event),
         store_ok (fst (handle (v, m) e))).
Proof.
  intros H.
  split; [|split; [|split; [|split; [|split; [|split; [|split]]]]]].
  - intros name. apply load_store_ok, H.
  - intros depth. apply loadNodesForDepth_store_ok, H.
  - apply increase_store_ok, H.
  - apply decrease_store_ok, H.
  - intros maxDepth. apply visibility_store_ok, H.
  - intros distance v'. apply perform_store_ok, H.
  - intros v'. apply initial_store_ok, H.
  - intros m e. apply (handle_store_ok (v, m) e), H.
Qed.

Lemma store_ok_fresh (md : metadata) : store_ok (freshViewer md).
Proof.
  unfold store_ok, states_exclusive, store_tracked, requested_once,
    processedSet. cbn.
  repeat split; try set_solver; try apply NoDup_nil_2.
Qed.

Lemma store_invariants_witness :
  store_ok (freshViewer unitMetadata)
  /\ store_ok (increaseLODDepth rootOnly (freshViewer unitMetadata)).
Proof.
  split; [apply store_ok_fresh|].
  exact (proj1 (proj2 (proj2
           (store_invariants rootOnly (freshViewer unitMetadata)
              (store_ok_fresh unitMetadata))))).
Defined.

(** X10.  The keys M and N ([increaseLODDepth], [decreaseLODDepth]):
    from a depth between 0 and 6, whatever keys are pressed the depth
    stays between 0 and 6, the files requested are those of nodes of depth
    at most 6, none is requested twice, and so at most
    (8^7 - 1) / 7 = 299593 files are ever requested. *)
Theorem lod_keys_bounded (fetch : string -> response) (keys : list lodKey)
    (v : Viewer) :
  0 <= currentLODDepth v <= 6 -> store_ok v -> requests_within 6 v ->
  let v' := fold_left (onLodKey fetch) keys v in
  0 <= currentLODDepth v' <= 6
  /\ store_ok v'
  /\ requests_within 6 v'
  /\ Z.of_nat (length (fetched v')) <= 299593.
Proof.
  intros Hd Hok Hw. cbv zeta.
  assert (0 <= currentLODDepth (fold_left (onLodKey fetch) keys v) <= 6
          /\ store_ok (fold_left (onLodKey fetch) keys v)
          /\ requests_within 6 (fold_left (onLodKey fetch) keys v))
    as (H1 & H2 & H3).
  { revert v Hd Hok Hw. induction keys as [|k keys IH]; intros v Hd Hok Hw.
    - auto.
    - cbn [fold_left]. apply IH.
      + destruct k; cbn [onLodKey].
        * rewrite increase_depth.
          destruct (6 <=? currentLODDepth v) eqn:E; [lia|].
          apply Z.leb_gt in E. lia.
        * rewrite decrease_depth.
          destruct (currentLODDepth v <=? 0) eqn:E; [lia|].
          apply Z.leb_gt in E. lia.
      + destruct k; cbn [onLodKey].
        * apply increase_store_ok, Hok.
        * apply decrease_store_ok, Hok.
      + destruct k; cbn [onLodKey].
        * apply increase_within; [lia|exact Hw].
        * apply decrease_within, Hw. }
  split; [exact H1|]. split; [exact H2|]. split; [exact H3|].
  apply requests_bound; [apply H2|exact H3].
Qed.

Lemma lod_keys_bounded_witness :
  0 <= currentLODDepth (freshViewer unitMetadata) <= 6
  /\ store_ok (freshViewer unitMetadata)
  /\ requests_within 6 (freshViewer unitMetadata)
  /\ Z.of_nat (length (fetched (fold_left (onLodKey rootOnly) [KeyM; KeyN]
                                  (freshViewer unitMetadata)))) <= 299593.
Proof.
  assert (0 <= currentLODDepth (freshViewer unitMetadata) <= 6) as H1
    by (cbn; lia).
  assert (requests_within 6 (freshViewer unitMetadata)) as H3.
  { intros name Hname. cbn in Hname. apply elem_of_nil in Hname.
    destruct Hname. }
  split; [exact H1|]. split; [apply store_ok_fresh|]. split; [exact H3|].
  exact (proj2 (proj2 (proj2
           (lod_keys_bounded rootOnly [KeyM; KeyN] (freshViewer unitMetadata)
              H1 (store_ok_fresh unitMetadata) H3)))).
Defined.

(** X11.  [performPotreeLODUpdate]: the depth chosen from the camera
    distance is 5 below 100, 4 below 200, 3 below 400 and 2 otherwise (also
    for a distance that is not a number), so it lies between 2 and 5 and
    never grows with the distance.  Without metadata the call throws.
    With metadata, afterwards every name down to that depth has been asked
    for, a stored node is shown exactly when its depth is at most the
    chosen one, and [currentLODDepth] is as before. *)
Theorem lod_update_by_distance (fetch : string -> response) :
  (forall distance : num, 2 <= maxDepthFor distance <= 5)
  /\ maxDepthFor NaN = 2
  /\ (forall d1 d2 : num,
         le d1 d2 = true -> maxDepthFor d2 <= maxDepthFor d1)
  /\ (forall (distance : num) (v : Viewer),
         potreeMetadata v = None ->
         performPotreeLODUpdate fetch distance v = Throw TypeError)
  /\ (forall (distance : num) (v : Viewer) (md : metadata),
         potreeMetadata v = Some md ->
         exists v',
           performPotreeLODUpdate fetch distance v = Normal v'
           /\ explored (maxDepthFor distance) v'
           /\ (forall (name : string) (node : pointsObj),
                  potreeNodes v' !! name = Some node ->
                  visible node = true <-> depthOf name <= maxDepthFor distance)
           /\ currentLODDepth v' = currentLODDepth v
           /\ (forall name : string,
                  name ∈ fetched v' ->
                  name ∈ fetched v
                  \/ (unloaded name v /\ depthOf name <= maxDepthFor distance))).
Proof.
  split; [apply maxDepthFor_range|]. split; [reflexivity|].
  split; [apply maxDepthFor_mono|]. split.
  - intros distance v Hmd. unfold performPotreeLODUpdate. rewrite Hmd.
    reflexivity.
  - intros distance v md Hmd. eexists. split; [apply (perform_unfold _ _ _ md Hmd)|].
    pose proof (maxDepthFor_range distance) as Hr.
    assert (getPotreeNodesToLoad (maxDepthFor distance)
            = generateNodes (Z.to_nat (maxDepthFor distance)) "r") as Enames.
    { unfold getPotreeNodesToLoad.
      replace (Z.to_nat (maxDepthFor distance + 1))
        with (S (Z.to_nat (maxDepthFor distance))) by lia.
      apply generateChildren_succ. }
    match goal with
    | |- context [updatePotreeNodeVisibility ?d ?w] =>
        destruct (visibility_sets d w) as (E1 & E2 & E3 & E4 & E5 & E6 & E7)
    end.
    split; [|split; [|split]].
    + unfold explored, processedSet. rewrite E1, E2, E3.
      fold (processedSet
              (fold_left (fun v name => loadPotreeNodeIfExists fetch name v)
                 (getPotreeNodesToLoad (maxDepthFor distance)) v)).
      rewrite fold_load_processedSet, Enames. apply Forall_forall.
      intros name Hname. apply elem_of_union_l, elem_of_list_to_set, Hname.
    + intros name node. apply visibility_update.
    + rewrite E6. apply fold_load_depth.
    + intros name Hname. rewrite E5 in Hname.
      apply fold_load_fetched in Hname. destruct Hname as [H | [H1 H2]]; [auto|].
      right. split; [apply (unloaded_processedSet fetch), H2|].
      rewrite Enames in H1. apply list_elem_of_In, generateNodes_In in H1.
      destruct H1 as (path & Hlen & _ & ->).
      change ("r" ++ string_of_list_ascii (map digit_char path))%string
        with (nodeNameOf path).
      rewrite nodeName_depth. lia.
Qed.

Lemma lod_update_by_distance_witness :
  potreeMetadata (freshViewer unitMetadata) = Some unitMetadata
  /\ le (ofZ 150) (ofZ 300) = true
  /\ maxDepthFor (ofZ 300) <= maxDepthFor (ofZ 150)
  /\ exists v',
       performPotreeLODUpdate (fun _ => NotOk) (ofZ 500)
         (freshViewer unitMetadata) = Normal v'
       /\ explored (maxDepthFor (ofZ 500)) v'.
Proof.
  pose proof (lod_update_by_distance (fun _ => NotOk))
    as (_ & _ & Hmono & _ & H).
  split; [reflexivity|]. split; [reflexivity|].
  split; [exact (Hmono (ofZ 150) (ofZ 300) eq_refl)|].
  destruct (H (ofZ 500) (freshViewer unitMetadata) unitMetadata eq_refl)
    as (v' & E & Hex & _).
  exists v'. split; [exact E|exact Hex].
Defined.

(* ------------------------------------------------------------------ *)
(** ** The first load and the size of a loaded node *)

Lemma positions_length (scale : num) (box : bbox) (off : option vec3)
    (recs : list (list Byte.byte)) :
  length (flat_map (positionWith scale box off) recs) = (3 * length recs)%nat.
Proof.
  rewrite (flat_map_constant_length (c := 3%nat)); [lia|].
  intros rec _. destruct off; reflexivity.
Qed.

Lemma colors_length (recs : list (list Byte.byte)) :
  length (flat_map decodedColor recs) = (3 * length recs)%nat.
Proof.
  rewrite (flat_map_constant_length (c := 3%nat)); [lia|].
  intros rec _. reflexivity.
Qed.

Lemma loop_rounds_three (n : nat) : loop_rounds (3 * n) 3 = n.
Proof.
  unfold loop_rounds. cbn [Nat.sub].
  replace (3 * n + 2)%nat with (2 + n * 3)%nat by lia.
  rewrite Nat.div_add by lia. reflexivity.
Qed.

(** X12.  [loadPotreeNodeIfExists] on [N] whole records: the node it
    installs offers exactly [N] points to the selection manager (its
    position and colour arrays have [3 * N] elements, and none of them if
    the file is empty), no point is marked deleted, and when a selection
    manager exists the node carries copies of both arrays as originals. *)
Theorem loaded_point_count (fetch : string -> response) (v : Viewer)
    (md : metadata) (name : string) (buffer : list Byte.byte) (N : nat) :
  unloaded name v -> potreeMetadata v = Some md ->
  fetch name = Ok buffer -> length buffer = (N * 16)%nat ->
  exists node,
    potreeNodes (loadPotreeNodeIfExists fetch name v) !! name = Some node
    /\ (name ∈ potreeLoadedNodes (loadPotreeNodeIfExists fetch name v))
    /\ pointCount node = N
    /\ length (position node) = (3 * N)%nat
    /\ length (color node) = (3 * N)%nat
    /\ deletedPoints node = None
    /\ (N = 0%nat -> position node = [] /\ color node = [])
    /\ (hasSelectionManager v = true ->
        originalPositions node = Some (position node)
        /\ originalColors node = Some (color node))
    /\ (hasSelectionManager v = false ->
        originalPositions node = None /\ originalColors node = None).
Proof.
  intros Hun Hmd Hfetch Hlen.
  destruct (load_whole fetch name v md buffer N Hun Hmd Hfetch Hlen)
    as (box & _ & ->).
  set (vs := flat_map (positionWith (scale md) box (potreeOffset v))
                      (records N buffer)).
  set (cs := flat_map decodedColor (records N buffer)).
  assert (length vs = (3 * N)%nat) as Hvs
    by (unfold vs; rewrite positions_length, records_length; reflexivity).
  assert (length cs = (3 * N)%nat) as Hcs
    by (unfold cs; rewrite colors_length, records_length; reflexivity).
  assert (N = 0%nat -> Float32Array vs = [] /\ Float32Array cs = [])
    as Hempty.
  { intros ->. split; apply nil_length_inv;
      unfold Float32Array; rewrite length_map; assumption. }
  rewrite <- (length_map toFloat32) in Hvs, Hcs.
  fold (Float32Array vs) in Hvs. fold (Float32Array cs) in Hcs.
  clearbody vs cs.
  unfold installNode. cbn [potreeNodes potreeLoadedNodes startLoading
                            hasSelectionManager].
  rewrite lookup_insert_eq. eexists. split; [reflexivity|].
  split; [set_solver|].
  destruct (hasSelectionManager v);
    unfold pointCount, storeOriginalPositions;
    cbn [position color deletedPoints originalPositions originalColors];
    rewrite Hvs, loop_rounds_three;
    (split; [reflexivity|]); (split; [reflexivity|]);
    (split; [exact Hcs|]); (split; [reflexivity|]);
    (split; [exact Hempty|]); split; auto; discriminate.
Qed.

Lemma loaded_point_count_witness :
  unloaded "r" (freshViewer unitMetadata)
  /\ length scenarioRecord = (1 * 16)%nat
  /\ exists node,
       potreeNodes (loadPotreeNodeIfExists rootOnly "r"
                      (freshViewer unitMetadata)) !! "r" = Some node
       /\ pointCount node = 1%nat.
Proof.
  assert (unloaded "r" (freshViewer unitMetadata)) as H.
  { unfold unloaded. cbn. set_solver. }
  split; [exact H|]. split; [reflexivity|].
  destruct (loaded_point_count rootOnly (freshViewer unitMetadata)
              unitMetadata "r" scenarioRecord 1 H eq_refl eq_refl eq_refl)
    as (node & E1 & _ & E2 & _).
  exists node. split; [exact E1|exact E2].
Defined.

(** X13.  [loadInitialPotreeLODs]: without metadata it throws.  With
    metadata it first sets [potreeOffset], whatever it was, to the offset
    that centres the root box in x and y and puts its floor at z = 0, and
    then asks for the root: a root file of [N] whole records is decoded
    against the root box with that very offset, and the root node is made
    of the arrays so decoded, rounded to single precision.  When the root
    has been asked for before, the offset is all that changes. *)
Theorem initial_load_centred (fetch : string -> response) :
  (forall v : Viewer,
      potreeMetadata v = None ->
      loadInitialPotreeLODs fetch v = Throw TypeError)
  /\ (forall (v : Viewer) (md : metadata) (buffer : list Byte.byte) (N : nat),
         potreeMetadata v = Some md ->
         unloaded "r" v -> fetch "r" = Ok buffer ->
         length buffer = (N * 16)%nat ->
         let off := centringOffset (boundingBox md) in
         let vertices :=
           flat_map (decodedPosition (scale md) (boundingBox md) off)
                    (records N buffer) in
         let colors := flat_map decodedColor (records N buffer) in
         loadInitialPotreeLODs fetch v
         = Normal (installNode "r" vertices colors
                     (startLoading "r" (with_offset off v)))
         /\ potreeOffset (installNode "r" vertices colors
                            (startLoading "r" (with_offset off v)))
            = Some off
         /\ (position
               <$> potreeNodes (installNode "r" vertices colors
                                  (startLoading "r" (with_offset off v)))
                   !! "r")
            = Some (Float32Array vertices))
  /\ (forall (v : Viewer) (md : metadata),
         potreeMetadata v = Some md -> ~ unloaded "r" v ->
         loadInitialPotreeLODs fetch v
         = Normal (with_offset (centringOffset (boundingBox md)) v)).
Proof.
  split; [| split].
  - intros v Hmd. unfold loadInitialPotreeLODs. rewrite Hmd. reflexivity.
  - intros v md buffer N Hmd Hun Hfetch Hlen. cbv zeta.
    unfold loadInitialPotreeLODs. rewrite Hmd. cbv zeta.
    fold (midpoint (lx (boundingBox md)) (ux (boundingBox md))).
    fold (midpoint (ly (boundingBox md)) (uy (boundingBox md))).
    fold (centringOffset (boundingBox md)).
    set (off := centringOffset (boundingBox md)).
    destruct (load_whole fetch "r" (with_offset off v) md buffer N)
      as (box & Hbox & E); try assumption.
    rewrite getNodeBoundingBox_total in Hbox. cbn in Hbox.
    injection Hbox as <-.
    rewrite E. cbn [potreeOffset with_offset positionWith].
    split; [reflexivity |].
    unfold installNode.
    cbn [potreeOffset potreeNodes startLoading with_offset hasSelectionManager].
    split; [reflexivity |]. rewrite lookup_insert_eq.
    destruct (hasSelectionManager v); reflexivity.
  - intros v md Hmd Hn.
    unfold loadInitialPotreeLODs. rewrite Hmd. cbv zeta.
    rewrite load_processed; [reflexivity | exact Hn].
Qed.

Lemma initial_load_centred_witness :
  potreeMetadata (freshViewer unitMetadata) = Some unitMetadata
  /\ unloaded "r" (freshViewer unitMetadata)
  /\ length scenarioRecord = (1 * 16)%nat
  /\ loadInitialPotreeLODs rootOnly (freshViewer unitMetadata)
     = Normal
         (installNode "r"
            (flat_map
               (decodedPosition (scale unitMetadata) (boundingBox unitMetadata)
                  (centringOffset (boundingBox unitMetadata)))
               (records 1 scenarioRecord))
            (flat_map decodedColor (records 1 scenarioRecord))
            (startLoading "r"
               (with_offset (centringOffset (boundingBox unitMetadata))
                  (freshViewer unitMetadata)))).
Proof.
  assert (unloaded "r" (freshViewer unitMetadata)) as H.
  { unfold unloaded. cbn. set_solver. }
  split; [reflexivity|]. split; [exact H|]. split; [reflexivity|].
  exact (proj1 (proj1 (proj2 (initial_load_centred rootOnly))
                  (freshViewer unitMetadata) unitMetadata scenarioRecord 1%nat
                  eq_refl H eq_refl eq_refl)).
Defined.

(* ------------------------------------------------------------------ *)
(** ** Painting, exactly *)

Section PaintExact.

Variables (center : vec3) (radius : num) (offset : vec3).

Lemma paintPoint_selected (name : string) (node : pointsObj)
    (acc : gmap string (gset nat) * list (string * nat)) (i : nat)
    (nm : string) :
  selectedIn (fst (paintPoint center radius offset name node acc i)) nm
  = if decide (nm = name /\
               containsPoint center radius (worldPoint offset node i) = true)
    then {[i]} ∪ selectedIn (fst acc) name
    else selectedIn (fst acc) nm.
Proof.
  unfold paintPoint.
  destruct (containsPoint center radius (worldPoint offset node i));
    [|case_decide as H; [destruct H; discriminate|reflexivity]].
  cbv zeta.
  match goal with
  | |- context [default ∅ (?s !! name)] => fold (selectedIn s name)
  end.
  rewrite selectedIn_ensure.
  case_decide as Hi; cbn [fst].
  - rewrite selectedIn_ensure. case_decide as H; [|reflexivity].
    destruct H as [-> _]. apply set_eq. intros j. set_solver.
  - rewrite selectedIn_insert. case_decide as H1; case_decide as H2.
    + reflexivity.
    + exfalso. apply H2. auto.
    + exfalso. apply H1. symmetry. apply H2.
    + apply selectedIn_ensure.
Qed.

Lemma paintPoints_selected (name : string) (node : pointsObj)
    (l : list nat) (acc : gmap string (gset nat) * list (string * nat))
    (nm : string) :
  selectedIn (fst (fold_left (paintPoint center radius offset name node) l acc))
             nm
  = if decide (nm = name)
    then selectedIn (fst acc) name
         ∪ list_to_set
             (filter (fun i => containsPoint center radius
                                 (worldPoint offset node i) = true) l)
    else selectedIn (fst acc) nm.
Proof.
  revert acc. induction l as [|i l IH]; intros acc.
  - cbn. case_decide as H; [subst nm|reflexivity]. set_solver.
  - cbn [fold_left]. rewrite IH, !paintPoint_selected, filter_cons.
    destruct (decide (nm = name)) as [->|Hne].
    + destruct (decide (containsPoint center radius (worldPoint offset node i)
                        = true)) as [Hc|Hc].
      * rewrite decide_True by auto. rewrite list_to_set_cons.
        apply set_eq. intros j. set_solver.
      * rewrite decide_False by tauto. reflexivity.
    + rewrite decide_False by tauto. reflexivity.
Qed.

Lemma paintNode_selected (name : string) (node : pointsObj)
    (acc : gmap string (gset nat) * list (string * nat)) (nm : string) :
  selectedIn (fst (paintNode center radius offset name node acc)) nm
  = if decide (nm = name)
    then selectedIn (fst acc) name ∪ brushed center radius offset node
    else selectedIn (fst acc) nm.
Proof. apply paintPoints_selected. Qed.

Lemma paintNodes_selected (sel0 : gmap string (gset nat))
    (nodes : gmap string pointsObj) (nm : string) :
  selectedIn
    (fst (map_fold (paintNode center radius offset) (sel0, []) nodes)) nm
  = selectedIn sel0 nm
    ∪ match nodes !! nm with
      | Some node => brushed center radius offset node
      | None => ∅
      end.
Proof.
  pose (P := fun (acc : gmap string (gset nat) * list (string * nat))
                 (nodes : gmap string pointsObj) =>
               forall nm,
                 selectedIn (fst acc) nm
                 = selectedIn sel0 nm
                   ∪ match nodes !! nm with
                     | Some node => brushed center radius offset node
                     | None => ∅
                     end).
  revert nm.
  change (P (map_fold (paintNode center radius offset) (sel0, []) nodes) nodes).
  apply map_fold_weak_ind; unfold P; clear P nodes.
  - intros nm. cbn [fst]. rewrite lookup_empty. set_solver.
  - intros name node nodes acc Hfresh IH nm.
    rewrite paintNode_selected. case_decide as H.
    + subst nm. rewrite lookup_insert_eq, IH, Hfresh. set_solver.
    + rewrite lookup_insert_ne by congruence. apply IH.
Qed.

(** A point that is inside the brush and selected already changes
    nothing. *)
Lemma paintPoint_noop (name : string) (node : pointsObj)
    (acc : gmap string (gset nat) * list (string * nat)) (i : nat) :
  (containsPoint center radius (worldPoint offset node i) = true ->
   i ∈ selectedIn (fst acc) name) ->
  paintPoint center radius offset name node acc i = acc.
Proof.
  intros H. unfold paintPoint.
  destruct (containsPoint center radius (worldPoint offset node i));
    [|reflexivity].
  specialize (H eq_refl). unfold selectedIn in H.
  destruct (fst acc !! name) as [S|] eqn:E; [|set_solver].
  cbv zeta. rewrite E. cbn [default] in *.
  rewrite decide_True by exact H. destruct acc; reflexivity.
Qed.

Lemma paintNode_noop (name : string) (node : pointsObj)
    (acc : gmap string (gset nat) * list (string * nat)) :
  brushed center radius offset node ⊆ selectedIn (fst acc) name ->
  paintNode center radius offset name node acc = acc.
Proof.
  unfold paintNode, brushed.
  generalize (seq 0 (pointCount node)) as l.
  induction l as [|i l IH]; intros H; [reflexivity|].
  cbn [fold_left]. rewrite paintPoint_noop.
  - apply IH. intros j Hj. apply H.
    rewrite elem_of_list_to_set, list_elem_of_filter in Hj.
    rewrite elem_of_list_to_set, list_elem_of_filter.
    split; [tauto|right; tauto].
  - intros Hc. apply H.
    rewrite elem_of_list_to_set, list_elem_of_filter. split; [exact Hc|left].
Qed.

Lemma paintNodes_noop (acc : gmap string (gset nat) * list (string * nat))
    (nodes : gmap string pointsObj) :
  (forall name node, nodes !! name = Some node ->
                     brushed center radius offset node
                     ⊆ selectedIn (fst acc) name) ->
  map_fold (paintNode center radius offset) acc nodes = acc.
Proof.
  pose (P := fun (r : gmap string (gset nat) * list (string * nat))
                 (nodes : gmap string pointsObj) =>
               (forall name node, nodes !! name = Some node ->
                                  brushed center radius offset node
                                  ⊆ selectedIn (fst acc) name) ->
               r = acc).
  change (P (map_fold (paintNode center radius offset) acc nodes) nodes).
  apply map_fold_weak_ind; unfold P; clear P nodes.
  - reflexivity.
  - intros name node nodes r Hfresh IH H.
    rewrite IH.
    + apply paintNode_noop, (H name node), lookup_insert_eq.
    + intros name' node' Hn. apply (H name' node').
      rewrite lookup_insert_ne; [exact Hn|]. congruence.
Qed.

(** While nothing new is selected the map of the selection is the one
    painting started from. *)
Lemma paintPoint_new (name : string) (node : pointsObj)
    (acc : gmap string (gset nat) * list (string * nat)) (i : nat) :
  snd (paintPoint center radius offset name node acc i) = [] ->
  paintPoint center radius offset name node acc i = acc.
Proof.
  unfold paintPoint.
  destruct (containsPoint center radius (worldPoint offset node i));
    [|reflexivity].
  cbv zeta. case_decide as Hi; cbn [snd].
  - intros _. destruct (fst acc !! name) as [S|] eqn:E.
    + destruct acc; reflexivity.
    + exfalso. rewrite lookup_insert_eq in Hi. cbn in Hi. set_solver.
  - intros H. destruct (snd acc); discriminate H.
Qed.

Lemma paintPoint_new_mono (name : string) (node : pointsObj)
    (acc : gmap string (gset nat) * list (string * nat)) (i : nat) :
  snd (paintPoint center radius offset name node acc i) = [] ->
  snd acc = [].
Proof. intros H. rewrite <- (paintPoint_new _ _ _ _ H). exact H. Qed.

Lemma paintPoints_new (name : string) (node : pointsObj) (l : list nat)
    (acc : gmap string (gset nat) * list (string * nat)) :
  snd (fold_left (paintPoint center radius offset name node) l acc) = [] ->
  fold_left (paintPoint center radius offset name node) l acc = acc.
Proof.
  revert acc. induction l as [|i l IH]; intros acc H; [reflexivity|].
  cbn [fold_left] in *. pose proof (IH _ H) as E. rewrite E in H |- *.
  apply paintPoint_new, H.
Qed.

Lemma paintNodes_new (acc : gmap string (gset nat) * list (string * nat))
    (nodes : gmap string pointsObj) :
  snd (map_fold (paintNode center radius offset) acc nodes) = [] ->
  map_fold (paintNode center radius offset) acc nodes = acc.
Proof.
  pose (P := fun (r : gmap string (gset nat) * list (string * nat))
                 (nodes : gmap string pointsObj) => snd r = [] -> r = acc).
  change (P (map_fold (paintNode center radius offset) acc nodes) nodes).
  apply map_fold_weak_ind; unfold P; clear P nodes.
  - reflexivity.
  - intros name node nodes r Hfresh IH H. unfold paintNode in *.
    pose proof (paintPoints_new _ _ _ _ H) as E. rewrite E in H |- *.
    apply IH, H.
Qed.

End PaintExact.

Lemma brushed_spec (center : vec3) (radius : num) (offset : vec3)
    (node : pointsObj) (i : nat) :
  i ∈ brushed center radius offset node
  <-> (i < pointCount node)%nat
      /\ containsPoint center radius (worldPoint offset node i) = true.
Proof.
  unfold brushed. rewrite elem_of_list_to_set, list_elem_of_filter.
  rewrite list_elem_of_In, in_seq. split; intros [H1 H2]; split; auto; lia.
Qed.

Lemma manager_eta (m : SelectionManager) :
  with_selection (selectedPoints m) (selectionCount m) m = m.
Proof. destruct m; reflexivity. Qed.

Lemma paintSelection_exact (v : Viewer) (m : SelectionManager) (name : string) :
  selectedIn (selectedPoints (paintSelection v m)) name
  = selectedIn (selectedPoints m) name ∪ brushedIn v m name.
Proof.
  destruct (paintSelection_selected v m) as (-> & _).
  unfold paintResult, brushedIn. apply paintNodes_selected.
Qed.

Lemma paintSelection_count (v : Viewer) (m : SelectionManager) :
  count_ok m -> count_ok (paintSelection v m).
Proof.
  unfold count_ok, paintSelection. intros H.
  destruct (paintResult v m) as [sel new] eqn:E.
  destruct new as [|p new]; cbn; [|reflexivity].
  unfold paintResult in E.
  rewrite paintNodes_new in E by (rewrite E; reflexivity).
  injection E as <-. exact H.
Qed.

(* ------------------------------------------------------------------ *)
(** ** The selection after painting *)

(** X14.  [paintSelection]: after it, the indices selected on a node are
    those selected before together with the indices [i] below the point
    count of the node whose point lies in the brush sphere; nothing else
    is added and nothing is removed (for a name that has no node the
    selection is unchanged). *)
Theorem paint_selects_exactly (v : Viewer) (m : SelectionManager) :
  (forall name : string,
      selectedIn (selectedPoints (paintSelection v m)) name
      = selectedIn (selectedPoints m) name ∪ brushedIn v m name)
  /\ (forall (name : string) (i : nat),
         i ∈ brushedIn v m name <->
         exists node,
           potreeNodes v !! name = Some node
           /\ (i < pointCount node)%nat
           /\ containsPoint (brushPosition m) (brushRadius m)
                (worldPoint (positionOffset v) node i) = true).
Proof.
  split.
  - apply paintSelection_exact.
  - intros name i. unfold brushedIn.
    destruct (potreeNodes v !! name) as [node|].
    + rewrite brushed_spec. split.
      * intros [H1 H2]. exists node. auto.
      * intros (node' & E & H1 & H2). injection E as <-. auto.
    + split; [set_solver|]. intros (node & E & _). discriminate E.
Qed.

Lemma paint_selects_exactly_witness :
  selectedIn
    (selectedPoints (paintSelection (fst rootSelected) (snd rootSelected))) "r"
  = selectedIn (selectedPoints (snd rootSelected)) "r"
    ∪ brushedIn (fst rootSelected) (snd rootSelected) "r".
Proof.
  exact (proj1 (paint_selects_exactly (fst rootSelected) (snd rootSelected))
           "r"%string).
Defined.

(** X15.  [paintSelection] is idempotent: painting again with the brush
    where it is selects nothing new and leaves the manager as it is. *)
Theorem paint_idempotent (v : Viewer) (m : SelectionManager) :
  paintSelection v (paintSelection v m) = paintSelection v m.
Proof.
  destruct (paintSelection_selected v m) as (E1 & E2 & E3 & _).
  assert (paintResult v (paintSelection v m)
          = (selectedPoints (paintSelection v m), [])) as E.
  { unfold paintResult at 1. rewrite E2, E3. apply paintNodes_noop.
    intros name node Hnode. cbn [fst].
    rewrite paintSelection_exact. unfold brushedIn. rewrite Hnode.
    set_solver. }
  unfold paintSelection at 1. rewrite E. apply manager_eta.
Qed.

Section Counting.

Lemma countPoints_insert (sel : gmap string (gset nat)) (name : string)
    (S : gset nat) :
  sel !! name = None ->
  countPoints (<[name := S]> sel) = (countPoints sel + size S)%nat.
Proof.
  intros H. unfold countPoints.
  rewrite map_fold_insert_L; [reflexivity| |exact H].
  intros. lia.
Qed.

Lemma countPoints_zero (sel : gmap string (gset nat)) :
  countPoints sel = 0%nat <-> forall name, selectedIn sel name = ∅.
Proof.
  induction sel as [|name S sel Hfresh IH] using map_ind.
  - split; [|reflexivity]. intros _ name. unfold selectedIn.
    rewrite lookup_empty. reflexivity.
  - rewrite countPoints_insert by exact Hfresh. split.
    + intros H name'. rewrite selectedIn_insert. case_decide.
      * apply size_zero_empty. lia.
      * apply IH. lia.
    + intros H. assert (S = ∅) as ->.
      { specialize (H name). rewrite selectedIn_insert in H.
        rewrite decide_True in H by reflexivity. exact H. }
      rewrite size_empty, Nat.add_0_r. apply IH. intros name'.
      destruct (decide (name = name')) as [<-|Hne].
      * unfold selectedIn. rewrite Hfresh. reflexivity.
      * specialize (H name'). rewrite selectedIn_insert in H.
        rewrite decide_False in H by exact Hne. exact H.
Qed.

Lemma handle_count (a : App) (e : event) :
  count_ok (snd a) -> count_ok (snd (handle a e)).
Proof.
  destruct a as [v m]. cbn [snd]. intros H.
  assert (count_ok (with_selection ∅ 0%nat m)) as Hclear by reflexivity.
  destruct e as [| p | | | dy | | | | | nm ans]; cbn [handle snd];
    try exact H;
    try (destruct (negb (editModeActive m)); cbn [snd]; [exact H|]).
  - destruct (isPainting (with_brushPosition p m)); [|exact H].
    apply paintSelection_count. exact H.
  - apply paintSelection_count. exact H.
  - exact H.
  - unfold onWheel. destruct (negb (editModeActive m)); exact H.
  - unfold deleteSelectedPoints. case_decide; [exact H|reflexivity].
  - unfold undo. destruct (undoStack m); exact H.
  - unfold redo. destruct (redoStack m); exact H.
  - reflexivity.
Qed.

End Counting.

(** X16.  [selectionCount] always equals the number of selected points
    ([countSelectedPoints]): this holds for a new manager and is kept by
    every event.  So [deleteSelectedPoints], which tests [selectionCount],
    does nothing exactly when no point is selected on any node. *)
Theorem selection_count_invariant :
  count_ok newSelectionManager
  /\ (forall (events : list event) (a : App),
         count_ok (snd a) -> count_ok (snd (run events a)))
  /\ (forall m : SelectionManager,
         count_ok m ->
         selectionCount m = 0%nat <->
         forall name : string, selectedIn (selectedPoints m) name = ∅)
  /\ (forall (v : Viewer) (m : SelectionManager),
         count_ok m ->
         (forall name : string, selectedIn (selectedPoints m) name = ∅) ->
         deleteSelectedPoints (v, m) = (v, m)).
Proof.
  split; [reflexivity|]. split; [|split].
  - intros events. unfold run. induction events as [|e events IH];
      intros a H; [exact H|].
    cbn [fold_left]. apply IH, handle_count, H.
  - intros m H. rewrite H. apply countPoints_zero.
  - intros v m H Hempty. unfold deleteSelectedPoints.
    rewrite decide_True; [reflexivity|].
    rewrite H. apply countPoints_zero, Hempty.
Qed.

Lemma selection_count_invariant_witness :
  count_ok (snd app0) /\ count_ok (snd (run selectRootPoint app0)).
Proof.
  assert (count_ok (snd app0)) as H by reflexivity.
  split; [exact H|].
  exact (proj1 (proj2 selection_count_invariant) selectRootPoint app0 H).
Defined.

(* ------------------------------------------------------------------ *)
(** ** Clearing the selection *)

Lemma forSelectedNodes_empty (f : gset nat -> pointsObj -> pointsObj)
    (v : Viewer) :
  forSelectedNodes f ∅ v = v.
Proof.
  apply viewer_eq; try reflexivity.
  apply map_eq. intros name. rewrite forSelectedNodes_lookup.
  unfold selectedIn. rewrite lookup_empty. cbn [default].
  destruct (potreeNodes v !! name); [|reflexivity].
  cbn. rewrite decide_True by apply size_empty. reflexivity.
Qed.

(** X18.  [clearSelection] empties the selection and sets the count to 0;
    it moves no point, changes no deleted mark, no visibility flag and no
    stack, and leaves the brush alone: only colours may be rewritten (from
    the stored originals).  Clearing twice is clearing once. *)
Theorem clear_selection_effect (a : App) :
  selectedPoints (snd (clearSelection a)) = ∅
  /\ selectionCount (snd (clearSelection a)) = 0%nat
  /\ undoStack (snd (clearSelection a)) = undoStack (snd a)
  /\ redoStack (snd (clearSelection a)) = redoStack (snd a)
  /\ brushRadius (snd (clearSelection a)) = brushRadius (snd a)
  /\ brushPosition (snd (clearSelection a)) = brushPosition (snd a)
  /\ (forall name : string,
         position <$> potreeNodes (fst (clearSelection a)) !! name
         = position <$> potreeNodes (fst a) !! name
         /\ deletedPoints <$> potreeNodes (fst (clearSelection a)) !! name
            = deletedPoints <$> potreeNodes (fst a) !! name
         /\ visible <$> potreeNodes (fst (clearSelection a)) !! name
            = visible <$> potreeNodes (fst a) !! name)
  /\ clearSelection (clearSelection a) = clearSelection a.
Proof.
  destruct a as [v m]. unfold clearSelection. cbn [fst snd].
  repeat (split; [reflexivity|]). split.
  - intros name. rewrite forSelectedNodes_lookup.
    destruct (potreeNodes v !! name) as [node|]; cbn; [|auto].
    case_decide; [auto|].
    destruct (restorePointColors_position (selectedIn (selectedPoints m) name)
                node) as (E1 & E2 & _).
    rewrite E1, E2. split; [reflexivity|]. split; [reflexivity|].
    unfold restorePointColors. destruct (originalColors node); reflexivity.
  - cbn [selectedPoints with_selection]. rewrite forSelectedNodes_empty.
    reflexivity.
Qed.

(* ------------------------------------------------------------------ *)
(** ** Saving and restoring the deletions *)

Section Persistence.

Lemma getDeleted_lookup (v : Viewer) (name : string) :
  getDeletedPointsData v !! name
  = potreeNodes v !! name ≫=
    (fun node => match deletedPoints node with
                 | Some d => if decide (size d = 0%nat) then None
                             else Some (elements d)
                 | None => None
                 end).
Proof. unfold getDeletedPointsData. apply map_lookup_imap. Qed.

Lemma setDeleted_lookup (data : gmap string (list nat)) (v : Viewer)
    (name : string) :
  potreeNodes (setDeletedPointsData data v) !! name
  = (fun node =>
       match data !! name with
       | Some indices =>
           with_position
             (set_fold hidePoint (position node)
                       (list_to_set indices : gset nat))
             (Some (list_to_set indices)) node
       | None => node
       end) <$> potreeNodes v !! name.
Proof.
  unfold setDeletedPointsData, with_nodes. cbn [potreeNodes].
  rewrite map_lookup_imap.
  destruct (potreeNodes v !! name) as [node|]; [|reflexivity]. cbn.
  destruct (data !! name); reflexivity.
Qed.

(** The data of a node: absent when nothing is marked, the marked indices
    otherwise. *)
Lemma getDeleted_node (v : Viewer) (name : string) (node : pointsObj) :
  potreeNodes v !! name = Some node ->
  (deletedIn node = ∅ /\ getDeletedPointsData v !! name = None)
  \/ (deletedPoints node = Some (deletedIn node)
      /\ getDeletedPointsData v !! name = Some (elements (deletedIn node))).
Proof.
  intros Hnode. rewrite getDeleted_lookup, Hnode. cbn.
  unfold deletedIn. destruct (deletedPoints node) as [d|]; cbn; [|auto].
  case_decide as H; [left|right]; [|auto].
  split; [apply size_zero_empty, H|reflexivity].
Qed.

Lemma hidden_again (node : pointsObj) :
  node_marked_away node ->
  set_fold hidePoint (position node) (deletedIn node) = position node.
Proof.
  intros H. apply list_eq. intros j.
  rewrite hide_lookup. destruct (position node !! j) as [x|] eqn:E; cbn;
    [|reflexivity].
  f_equal. case_decide as Hj; [|reflexivity].
  symmetry. exact (H j x E Hj).
Qed.

Lemma faithful_marked_away (node : pointsObj) :
  node_faithful node -> node_marked_away node.
Proof.
  intros (op & oc & _ & _ & _ & Hpos) j x E Hj.
  rewrite Hpos in E. destruct (op !! j); cbn in E; [|discriminate].
  rewrite decide_True in E by exact Hj. congruence.
Qed.

Lemma setDeleted_hidden (data : gmap string (list nat)) (v : Viewer) :
  deleted_hidden v -> deleted_hidden (setDeletedPointsData data v).
Proof.
  intros Hv name node'. rewrite setDeleted_lookup.
  destruct (potreeNodes v !! name) as [node|] eqn:E; [|discriminate].
  intros [= <-]. specialize (Hv name node E). cbn in Hv.
  destruct (data !! name) as [indices|]; [|exact Hv].
  intros idx Hidx. unfold hiddenAt, read. cbn [position with_position].
  rewrite hide_lookup.
  destruct (position node !! (idx * 3)%nat) as [x|]; [|reflexivity].
  assert (((idx * 3) `div` 3)%nat = idx) as Ediv by (apply div3_iff; lia).
  cbn [fmap option_fmap option_map default]. rewrite Ediv.
  rewrite decide_True by exact Hidx. reflexivity.
Qed.

End Persistence.

(** X19.  [getDeletedPointsData] and [setDeletedPointsData].  If, in a
    state, every point marked deleted has its three coordinates at
    infinity, then writing back the data just read changes nothing; a
    state whose nodes carry their originals, their positions being those
    originals but for the marked points at infinity, is such a state.  If
    two states are of the latter kind and a node of the second has the
    same originals as its namesake in the first and no mark, then the data
    of the first, written to the second, reproduce on that node the
    positions and the marks of the first.  Whatever the data and the
    state, [setDeletedPointsData] keeps every marked point away. *)
Theorem deleted_data_round_trip :
  (forall v : Viewer,
      marked_away v -> setDeletedPointsData (getDeletedPointsData v) v = v)
  /\ (forall v : Viewer, faithful v -> marked_away v)
  /\ (forall (v v0 : Viewer) (name : string) (node node0 : pointsObj),
         faithful v -> faithful v0 ->
         potreeNodes v !! name = Some node ->
         potreeNodes v0 !! name = Some node0 ->
         originalPositions node0 = originalPositions node ->
         deletedIn node0 = ∅ ->
         exists node',
           potreeNodes (setDeletedPointsData (getDeletedPointsData v) v0)
             !! name = Some node'
           /\ position node' = position node
           /\ deletedIn node' = deletedIn node)
  /\ (forall (data : gmap string (list nat)) (v : Viewer),
         deleted_hidden v -> deleted_hidden (setDeletedPointsData data v)).
Proof.
  split; [|split; [|split]].
  - intros v Hv. apply viewer_eq; try reflexivity.
    apply map_eq. intros name. rewrite setDeleted_lookup.
    destruct (potreeNodes v !! name) as [node|] eqn:E; [|reflexivity].
    cbn. f_equal.
    destruct (getDeleted_node v name node E) as [[_ ->] | [Hd ->]];
      [reflexivity|].
    rewrite list_to_set_elements_L, hidden_again by exact (Hv name node E).
    rewrite <- Hd. destruct node; reflexivity.
  - intros v Hv name node E. apply faithful_marked_away, (Hv name node E).
  - intros v v0 name node node0 Hv Hv0 Hnode Hnode0 Horig Hnone.
    rewrite setDeleted_lookup, Hnode0. cbn. eexists. split; [reflexivity|].
    destruct (Hv name node Hnode) as (op & oc & Hop & _ & _ & Hpos).
    destruct (Hv0 name node0 Hnode0) as (op0 & oc0 & Hop0 & _ & _ & Hpos0).
    assert (op0 = op) as -> by congruence.
    destruct (getDeleted_node v name node Hnode) as [[Hd ->] | [Hd ->]].
    + split; [|congruence]. apply list_eq. intros j.
      rewrite Hpos, Hpos0, Hd, Hnone. reflexivity.
    + cbn [position with_position]. rewrite list_to_set_elements_L. split.
      * apply list_eq. intros j. rewrite hide_lookup, Hpos, Hpos0, Hnone.
        destruct (op !! j); cbn; [|reflexivity].
        f_equal; repeat case_decide; try reflexivity; set_solver.
      * reflexivity.
  - apply setDeleted_hidden.
Qed.

Lemma deleted_data_round_trip_witness :
  marked_away (fst (undo (deleteSelectedPoints uploadSelected)))
  /\ setDeletedPointsData
       (getDeletedPointsData (fst (undo (deleteSelectedPoints uploadSelected))))
       (fst (undo (deleteSelectedPoints uploadSelected)))
     = fst (undo (deleteSelectedPoints uploadSelected))
  /\ faithful (fst afterDelete)
  /\ setDeletedPointsData (getDeletedPointsData (fst afterDelete))
       (fst afterDelete)
     = fst afterDelete.
Proof.
  assert (marked_away (fst (undo (deleteSelectedPoints uploadSelected))))
    as Hm.
  { intros name node E j x Hx _.
    assert (potreeNodes (fst (undo (deleteSelectedPoints uploadSelected)))
            = {[ "currentPointCloud"
                 := PointsObj "" [PosInf; PosInf; PosInf]
                      [ofZ 1; ofZ 0; ofZ 0] true None None
                      (Some {[ 0%nat ]}) ]}) as Enodes
      by (vm_compute; reflexivity).
    rewrite Enodes in E. apply lookup_singleton_Some in E as [_ <-].
    cbn [position] in Hx. apply list_elem_of_lookup_2 in Hx.
    rewrite !elem_of_cons, elem_of_nil in Hx. tauto. }
  assert (faithful (fst afterDelete)) as H.
  { apply (consistent_run (selectRootPoint ++ [KeyDelete]) app0).
    apply consistent_app0. }
  split; [exact Hm|].
  split; [exact (proj1 deleted_data_round_trip _ Hm)|].
  split; [exact H|].
  exact (proj1 deleted_data_round_trip (fst afterDelete)
           (proj1 (proj2 deleted_data_round_trip) (fst afterDelete) H)).
Defined.

(* ------------------------------------------------------------------ *)
(** ** The brush size at the edges *)

(** X20.  [updateBrushSize] is the clamp to [0.05, 5]: a finite radius
    below 0.05 gives 0.05, above 5 gives 5, in between itself; +Infinity
    gives 5 and -Infinity 0.05; a radius that is not a number is stored as
    it is (and the bounds then fail).  Setting the size it has computed
    again changes nothing. *)
Theorem brush_size_clamp (m : SelectionManager) :
  (forall q : Q,
      exists r : Q,
        brushRadius (updateBrushSize (Finite q) m) = Finite r
        /\ ((q <= 5 # 100 -> r == 5 # 100)
            /\ (5 # 100 <= q <= 5 -> r == q)
            /\ (5 <= q -> r == 5))%Q)
  /\ brushRadius (updateBrushSize PosInf m) = Finite 5
  /\ brushRadius (updateBrushSize NegInf m) = Finite (5 # 100)
  /\ brushRadius (updateBrushSize NaN m) = NaN
  /\ radius_ok (updateBrushSize NaN m) = false
  /\ (forall x : num,
         updateBrushSize (brushRadius (updateBrushSize x m))
           (updateBrushSize x m)
         = updateBrushSize x m).
Proof.
  split; [|split; [|split; [|split; [|split]]]]; try reflexivity.
  - intros q. unfold updateBrushSize. cbn.
    destruct (Qle_bool 5 q) eqn:E1; cbn.
    + exists 5%Q. split; [reflexivity|]. apply Qle_bool_iff in E1.
      repeat split; intros; lra.
    + apply Qle_bool_false in E1.
      destruct (Qle_bool (5 # 100) q) eqn:E2.
      * exists q. split; [reflexivity|]. apply Qle_bool_iff in E2.
        repeat split; intros; lra.
      * exists (5 # 100)%Q. split; [reflexivity|]. apply Qle_bool_false in E2.
        repeat split; intros; lra.
  - intros x. unfold updateBrushSize, with_brushRadius. cbn. f_equal.
    destruct x as [q| | |]; try reflexivity. cbn.
    destruct (Qle_bool 5 q) eqn:E1; cbn; [reflexivity|].
    destruct (Qle_bool (5 # 100) q) eqn:E2; cbn.
    + rewrite E1. cbn. rewrite E2. reflexivity.
    + reflexivity.
Qed.

Lemma brush_size_clamp_witness :
  (5 <= 6)%Q
  /\ exists r : Q,
       brushRadius (updateBrushSize (Finite 6) newSelectionManager) = Finite r
       /\ (r == 5)%Q.
Proof.
  assert (5 <= 6)%Q as H by (vm_compute; discriminate).
  split; [exact H|].
  destruct (proj1 (brush_size_clamp newSelectionManager) 6%Q)
    as (r & E & _ & _ & Hr).
  exists r. split; [exact E|exact (Hr H)].
Defined.

(* ------------------------------------------------------------------ *)
(** ** Hierarchical culling *)

Lemma octree_induction (P : octreeNode -> Prop) :
  (forall name box children,
      Forall (fun child => match child with
                           | Some c => P c
                           | None => True
                           end) children ->
      P (OctreeNode name box children)) ->
  forall t, P t.
Proof.
  intros H. fix IH 1. intros [name box children]. apply H.
  induction children as [|child children IHc]; constructor.
  - destruct child as [c|]; [apply IH|exact I].
  - exact IHc.
Qed.

Section Culling.

Local Open Scope Q_scope.

Lemma clamp_range (lo hi c : Q) :
  lo <= hi ->
  exists cl,
    Math_max (Finite lo) (Math_min (Finite c) (Finite hi)) = Finite cl
    /\ lo <= cl <= hi.
Proof.
  intros H. unfold Math_min, Math_max, le.
  destruct (Qle_bool c hi) eqn:E1.
  - apply Qle_bool_iff in E1. destruct (Qle_bool lo c) eqn:E2.
    + apply Qle_bool_iff in E2. exists c. split; [reflexivity|lra].
    + exists lo. split; [reflexivity|lra].
  - destruct (Qle_bool lo hi) eqn:E2.
    + exists hi. split; [reflexivity|lra].
    + apply Qle_bool_false in E2. lra.
Qed.

(** What a positive answer of the pruning test means. *)
Lemma keep_cases (x0 y0 z0 x1 y1 z1 cx cy cz r : Q) :
  bboxIntersectsQuery (fvec cx cy cz) (Finite r)
    (Some (Box3 (fvec x0 y0 z0) (fvec x1 y1 z1))) = true ->
  exists clx cly,
    Math_max (Finite x0) (Math_min (Finite cx) (Finite x1)) = Finite clx
    /\ Math_max (Finite y0) (Math_min (Finite cy) (Finite y1)) = Finite cly
    /\ (clx - cx) * (clx - cx) + (cly - cy) * (cly - cy) <= r * r
    /\ z0 <= cz + r.
Proof.
  unfold bboxIntersectsQuery, fvec. cbn [vx vy vz bmin bmax].
  assert (exists clx,
             Math_max (Finite x0) (Math_min (Finite cx) (Finite x1))
             = Finite clx) as [clx Ex].
  { unfold Math_max, Math_min, le.
    destruct (Qle_bool cx x1); destruct (Qle_bool x0 _); eauto. }
  assert (exists cly,
             Math_max (Finite y0) (Math_min (Finite cy) (Finite y1))
             = Finite cly) as [cly Ey].
  { unfold Math_max, Math_min, le.
    destruct (Qle_bool cy y1); destruct (Qle_bool y0 _); eauto. }
  rewrite Ex, Ey. unfold gt, lt. cbn [sub add neg mul].
  fold (clx - cx)%Q (cly - cy)%Q.
  intros H. exists clx, cly. split; [reflexivity |]. split; [reflexivity |].
  destruct (Qle_bool ((clx - cx) * (clx - cx) + (cly - cy) * (cly - cy))
                     (r * r)) eqn:E1; cbn [negb] in H; [|discriminate].
  destruct (Qle_bool z0 (cz + r)) eqn:E2; cbn [negb] in H; [|discriminate].
  apply Qle_bool_iff in E1, E2. auto.
Qed.

(** A box that contains a box meeting the query meets the query. *)
Lemma intersects_mono (p0 p1 p2 p3 p4 p5 c0 c1 c2 c3 c4 c5 cx cy cz r : Q) :
  p0 <= c0 /\ c0 <= c3 /\ c3 <= p3 ->
  p1 <= c1 /\ c1 <= c4 /\ c4 <= p4 ->
  p2 <= c2 ->
  bboxIntersectsQuery (fvec cx cy cz) (Finite r)
    (Some (Box3 (fvec c0 c1 c2) (fvec c3 c4 c5))) = true ->
  bboxIntersectsQuery (fvec cx cy cz) (Finite r)
    (Some (Box3 (fvec p0 p1 p2) (fvec p3 p4 p5))) = true.
Proof.
  intros Hx Hy Hz Hc.
  apply keep_cases in Hc as (clx & cly & Ex & Ey & Hd & Hzc).
  destruct (bboxIntersectsQuery (fvec cx cy cz) (Finite r)
              (Some (Box3 (fvec p0 p1 p2) (fvec p3 p4 p5)))) eqn:Hp;
    [reflexivity|].
  exfalso. apply prune_cases in Hp as (plx & ply & Epx & Epy & Hp).
  destruct (clamp_range c0 c3 cx) as (clx' & Ex' & Hrx); [lra|].
  destruct (clamp_range c1 c4 cy) as (cly' & Ey' & Hry); [lra|].
  rewrite Ex in Ex'. rewrite Ey in Ey'.
  injection Ex' as <-. injection Ey' as <-.
  destruct (clamp_closest p0 p3 cx clx) as (plx' & Epx' & Hcx); [lra|].
  destruct (clamp_closest p1 p4 cy cly) as (ply' & Epy' & Hcy); [lra|].
  rewrite Epx in Epx'. rewrite Epy in Epy'.
  injection Epx' as <-. injection Epy' as <-.
  destruct Hp; lra.
Qed.

Variables (brush : vec3) (radius : num) (pcOffset : vec3).

Context {A : Type}.

Variable visibleNodesMap : gmap string A.

Lemma traverse_unfold (name : string) (box : option box3)
    (children : list (option octreeNode)) (acc : list (A * string) * nat) :
  traverseOctree brush radius pcOffset visibleNodesMap
    (OctreeNode name box children) acc
  = if negb (keepsBox brush radius pcOffset box)
    then (fst acc, S (snd acc))
    else fold_left (traverseChild brush radius pcOffset visibleNodesMap)
           children
           (match visibleNodesMap !! name with
            | Some sceneNode => (fst acc ++ [(sceneNode, name)], snd acc)
            | None => acc
            end).
Proof. reflexivity. Qed.

(** Calls are only added. *)
Lemma traverse_grows (t : octreeNode) :
  forall (acc : list (A * string) * nat) (call : A * string),
    call ∈ fst acc ->
    call ∈ fst (traverseOctree brush radius pcOffset visibleNodesMap t acc).
Proof.
  induction t as [name box children IH] using octree_induction.
  intros acc call Hcall. rewrite traverse_unfold.
  destruct (negb (keepsBox brush radius pcOffset box)); [exact Hcall|].
  assert (call ∈ fst (match visibleNodesMap !! name with
                      | Some sceneNode =>
                          (fst acc ++ [(sceneNode, name)], snd acc)
                      | None => acc
                      end)) as Hacc.
  { destruct (visibleNodesMap !! name); [|exact Hcall].
    cbn [fst]. apply elem_of_app. left. exact Hcall. }
  revert Hacc. generalize (match visibleNodesMap !! name with
                           | Some sceneNode =>
                               (fst acc ++ [(sceneNode, name)], snd acc)
                           | None => acc
                           end).
  clear acc Hcall. induction IH as [|child children Hchild _ IHc];
    intros acc Hacc; [exact Hacc|].
  cbn [fold_left]. apply IHc. destruct child as [c|]; cbn [traverseChild].
  - apply Hchild, Hacc.
  - exact Hacc.
Qed.

Lemma step_grows (children : list (option octreeNode))
    (acc : list (A * string) * nat) (call : A * string) :
  call ∈ fst acc ->
  call ∈ fst (fold_left (traverseChild brush radius pcOffset visibleNodesMap)
                children acc).
Proof.
  revert acc. induction children as [|child children IH]; intros acc H;
    [exact H|].
  cbn [fold_left]. apply IH. destruct child as [c|]; [|exact H].
  apply traverse_grows, H.
Qed.

(** A call is made for a node of the tree that is visible and whose box
    meets the query. *)
Lemma traverse_sound (t : octreeNode) :
  forall (acc : list (A * string) * nat) (call : A * string),
    call ∈ fst (traverseOctree brush radius pcOffset visibleNodesMap t acc) ->
    call ∈ fst acc
    \/ exists t', In t' (octreeNodes t)
                  /\ snd call = octreeName t'
                  /\ visibleNodesMap !! octreeName t' = Some (fst call)
                  /\ keepsBox brush radius pcOffset (octreeBox t') = true.
Proof.
  induction t as [name box children IH] using octree_induction.
  intros acc call. rewrite traverse_unfold.
  destruct (keepsBox brush radius pcOffset box) eqn:Hk; cbn [negb]; [|auto].
  set (acc1 := match visibleNodesMap !! name with
               | Some sceneNode => (fst acc ++ [(sceneNode, name)], snd acc)
               | None => acc
               end).
  assert (forall call, call ∈ fst acc1 ->
            call ∈ fst acc
            \/ (snd call = name
                /\ visibleNodesMap !! name = Some (fst call))) as Hacc1.
  { intros c. unfold acc1. destruct (visibleNodesMap !! name) as [s|];
      [|auto]. cbn [fst]. intros H. apply elem_of_app in H as [H|H]; [auto|].
    apply list_elem_of_singleton in H as ->. auto. }
  intros Hcall.
  assert (call ∈ fst acc1
          \/ exists c t', In (Some c) children /\ In t' (octreeNodes c)
                          /\ snd call = octreeName t'
                          /\ visibleNodesMap !! octreeName t'
                             = Some (fst call)
                          /\ keepsBox brush radius pcOffset (octreeBox t')
                             = true) as Hcases.
  { clear Hacc1. revert Hcall. generalize acc1. clear acc1 acc.
    induction IH as [|child children Hchild _ IHc]; intros acc Hcall;
      [auto|].
    cbn [fold_left] in Hcall. apply IHc in Hcall.
    destruct Hcall as [Hcall | (c & t' & Hc & Hrest)].
    - destruct child as [c|]; cbn [traverseChild] in Hcall; [|auto].
      apply Hchild in Hcall. destruct Hcall as [Hcall | (t' & Hrest)];
        [auto|].
      right. exists c, t'. split; [left; reflexivity|exact Hrest].
    - right. exists c, t'. split; [right; exact Hc|exact Hrest]. }
  destruct Hcases as [H | (c & t' & Hc & Ht' & Hrest)].
  - apply Hacc1 in H. destruct H as [H | [H1 H2]]; [auto|].
    right. exists (OctreeNode name box children).
    split; [left; reflexivity|]. cbn [octreeName octreeBox]. auto.
  - right. exists t'. split; [|exact Hrest].
    cbn [octreeNodes]. right. apply in_flat_map. exists (Some c). auto.
Qed.

Variables (cx cy cz r ox oy oz : Q).

Hypothesis Hbrush : brush = fvec cx cy cz.
Hypothesis Hradius : radius = Finite r.
Hypothesis Hoffset : pcOffset = fvec ox oy oz.

Lemma world_mono (parent child : option box3) :
  box_nested parent child ->
  keepsBox brush radius pcOffset child = true ->
  keepsBox brush radius pcOffset parent = true.
Proof.
  unfold keepsBox. rewrite Hbrush, Hradius, Hoffset.
  destruct parent as [p|]; [|reflexivity].
  destruct child as [c|]; [|intros []].
  intros (p0 & p1 & p2 & p3 & p4 & p5 & c0 & c1 & c2 & c3 & c4 & c5
          & -> & -> & Hx & Hy & Hz).
  apply (intersects_mono (p0 + ox) (p1 + oy) (p2 + oz) (p3 + ox) (p4 + oy)
           (p5 + oz) (c0 + ox) (c1 + oy) (c2 + oz) (c3 + ox) (c4 + oy)
           (c5 + oz)); lra.
Qed.

(** In a nested tree, a node whose box meets the query is below a root
    whose box meets it. *)
Lemma nested_root_keeps (t : octreeNode) :
  forall t', nested t -> In t' (octreeNodes t) ->
             keepsBox brush radius pcOffset (octreeBox t') = true ->
             keepsBox brush radius pcOffset (octreeBox t) = true.
Proof.
  induction t as [name box children IH] using octree_induction.
  intros t' Hnested Hin Hk. cbn [octreeNodes] in Hin.
  destruct Hin as [<- | Hin]; [exact Hk|].
  apply in_flat_map in Hin as ([c|] & Hc & Hin); [|destruct Hin].
  cbn [octreeBox]. cbn [nested] in Hnested.
  induction IH as [|child children Hchild _ IHc]; [destruct Hc|].
  cbn [fold_right] in Hnested. destruct Hc as [-> | Hc].
  - destruct Hnested as (Hbox & Hn & _).
    apply (world_mono box (octreeBox c) Hbox).
    apply (Hchild t' Hn Hin Hk).
  - apply IHc; [|exact Hc].
    destruct child; [apply Hnested|exact Hnested].
Qed.

(** In a nested tree every visible node whose box meets the query gets its
    call. *)
Lemma traverse_complete (t : octreeNode) :
  forall (acc : list (A * string) * nat) (t' : octreeNode) (s : A),
    nested t -> In t' (octreeNodes t) ->
    visibleNodesMap !! octreeName t' = Some s ->
    keepsBox brush radius pcOffset (octreeBox t') = true ->
    (s, octreeName t')
      ∈ fst (traverseOctree brush radius pcOffset visibleNodesMap t acc).
Proof.
  induction t as [name box children IH] using octree_induction.
  intros acc t' s Hnested Hin Hvis Hk.
  pose proof (nested_root_keeps _ t' Hnested Hin Hk) as Hroot.
  cbn [octreeBox] in Hroot.
  rewrite traverse_unfold, Hroot. cbn [negb].
  cbn [octreeNodes] in Hin. destruct Hin as [<- | Hin].
  - cbn [octreeName] in *. rewrite Hvis. apply step_grows.
    cbn [fst]. apply elem_of_app. right. apply list_elem_of_singleton.
    reflexivity.
  - apply in_flat_map in Hin as ([c|] & Hc & Hin); [|destruct Hin].
    cbn [nested] in Hnested.
    generalize (match visibleNodesMap !! name with
                | Some sceneNode => (fst acc ++ [(sceneNode, name)], snd acc)
                | None => acc
                end).
    clear acc. induction IH as [|child children Hchild _ IHc]; intros acc;
      [destruct Hc|].
    cbn [fold_right] in Hnested. cbn [fold_left]. destruct Hc as [-> | Hc].
    + destruct Hnested as (_ & Hn & _). cbn [traverseChild]. apply step_grows.
      apply (Hchild acc t' s Hn Hin Hvis Hk).
    + apply IHc; [|exact Hc].
      destruct child; [apply Hnested|exact Hnested].
Qed.

(** A root whose box misses the query ends the traversal. *)
Lemma traverse_culled (t : octreeNode) (acc : list (A * string) * nat) :
  keepsBox brush radius pcOffset (octreeBox t) = false ->
  traverseOctree brush radius pcOffset visibleNodesMap t acc
  = (fst acc, S (snd acc)).
Proof.
  destruct t as [name box children]. cbn [octreeBox]. intros H.
  rewrite traverse_unfold, H. reflexivity.
Qed.

End Culling.

(** X21.  [traverseOctree] (finite brush, radius and offset): a call of
    [processNodePoints] is made only for a node of the tree that is in
    [visibleNodesMap] and whose own box, moved by the offset, passes
    [bboxIntersectsQuery]; a root whose box fails the test ends the
    traversal with one subtree culled and no call.  When every child box
    lies in the box of its parent, no node is lost by skipping subtrees:
    every visible node of the tree whose own box passes the test gets its
    call. *)
Theorem hierarchical_culling {A : Type} (cx cy cz r ox oy oz : Q)
    (visibleNodesMap : gmap string A) (root : octreeNode) :
  (forall (sceneNode : A) (name : string),
      (sceneNode, name)
        ∈ fst (traverseOctree (fvec cx cy cz) (Finite r) (fvec ox oy oz)
                 visibleNodesMap root ([], 0%nat)) ->
      visibleNodesMap !! name = Some sceneNode
      /\ exists t, In t (octreeNodes root)
                   /\ octreeName t = name
                   /\ keepsBox (fvec cx cy cz) (Finite r) (fvec ox oy oz)
                        (octreeBox t) = true)
  /\ (keepsBox (fvec cx cy cz) (Finite r) (fvec ox oy oz) (octreeBox root)
      = false ->
      traverseOctree (fvec cx cy cz) (Finite r) (fvec ox oy oz)
        visibleNodesMap root ([], 0%nat)
      = ([], 1%nat))
  /\ (nested root ->
      forall (t : octreeNode) (sceneNode : A),
        In t (octreeNodes root) ->
        visibleNodesMap !! octreeName t = Some sceneNode ->
        keepsBox (fvec cx cy cz) (Finite r) (fvec ox oy oz) (octreeBox t)
        = true ->
        (sceneNode, octreeName t)
          ∈ fst (traverseOctree (fvec cx cy cz) (Finite r) (fvec ox oy oz)
                   visibleNodesMap root ([], 0%nat))).
Proof.
  split; [|split].
  - intros sceneNode name Hcall.
    apply traverse_sound in Hcall.
    destruct Hcall as [Hcall | (t & Ht & Hname & Hvis & Hk)].
    + cbn in Hcall. apply elem_of_nil in Hcall. destruct Hcall.
    + cbn [fst snd] in Hname, Hvis. subst name.
      split; [exact Hvis|]. exists t. auto.
  - intros Hk. apply traverse_culled, Hk.
  - intros Hnested t sceneNode Hin Hvis Hk.
    apply (traverse_complete _ _ _ _ cx cy cz r ox oy oz eq_refl eq_refl
             eq_refl); assumption.
Qed.

Lemma hierarchical_culling_witness :
  let leaf := OctreeNode "r0" (Some (Box3 (fvec 0 0 0) (fvec 4 4 4))) [] in
  let root := OctreeNode "r" (Some (Box3 (fvec 0 0 0) (fvec 8 8 8)))
                [Some leaf] in
  let visibleNodesMap : gmap string unit := {[ "r0" := tt ]} in
  nested root
  /\ (tt, "r0"%string)
       ∈ fst (traverseOctree (fvec 1 1 1) (Finite 1) (fvec 0 0 0)
                visibleNodesMap root ([], 0%nat)).
Proof.
  intros leaf root visibleNodesMap.
  assert (nested root) as Hnested.
  { cbn. split; [|auto].
    exists 0%Q, 0%Q, 0%Q, 8%Q, 8%Q, 8%Q, 0%Q, 0%Q, 0%Q, 4%Q, 4%Q, 4%Q.
    split; [reflexivity|]. split; [reflexivity|].
    repeat split; vm_compute; discriminate. }
  split; [exact Hnested|].
  exact (proj2 (proj2 (hierarchical_culling 1 1 1 1 0 0 0 visibleNodesMap
                         root))
           Hnested leaf tt (or_intror (or_introl eq_refl)) eq_refl eq_refl).
Defined.

(* ------------------------------------------------------------------ *)
(** ** The flat pass *)

Section Flat.

Context {A : Type}.

Variables (brush : vec3) (radius : num) (pcOffset : vec3).

Lemma flat_fold (nodes : list (A * option box3 * string))
    (acc : list (A * string) * nat) :
  fold_left
    (fun acc nodeData =>
       let '(sceneNode, octreeBoundingBox, name) := nodeData in
       let worldBbox := toWorldBbox pcOffset octreeBoundingBox in
       if negb (bboxIntersectsQuery brush radius worldBbox)
       then (fst acc, S (snd acc))
       else (fst acc ++ [(sceneNode, name)], snd acc))
    nodes acc
  = (fst acc
     ++ map (fun nodeData => (fst (fst nodeData), snd nodeData))
          (List.filter (fun nodeData => keepsBox brush radius pcOffset
                                          (snd (fst nodeData))) nodes),
     (snd acc
      + length (List.filter (fun nodeData =>
                               negb (keepsBox brush radius pcOffset
                                       (snd (fst nodeData)))) nodes))%nat).
Proof.
  revert acc. induction nodes as [|[[sceneNode box] name] nodes IH];
    intros acc.
  - cbn. rewrite app_nil_r, Nat.add_0_r. destruct acc; reflexivity.
  - cbn [fold_left List.filter fst snd]. rewrite IH. unfold keepsBox.
    destruct (bboxIntersectsQuery brush radius (toWorldBbox pcOffset box));
      cbn [negb fst snd map length].
    + rewrite <- app_assoc. reflexivity.
    + f_equal. lia.
Qed.

End Flat.

(** X22.  The flat pass of [updateHighlightOverlay] (run when there is no
    octree): [processNodePoints] is called, in order, for exactly the
    nodes whose box passes [bboxIntersectsQuery], the others are counted in
    [nodesCulled], so calls and culled nodes add up to the number of nodes.
    The nodes [getLoadedNodes] lists for the viewer's own loader carry no
    octree box, and a node without a box cannot be culled: for them the
    pass calls [processNodePoints] on every node and culls none. *)
Theorem flat_pass_culls {A : Type} (brush : vec3) (radius : num)
    (pcOffset : vec3) :
  (forall nodes : list (A * option box3 * string),
      flatPass brush radius pcOffset nodes
      = (map (fun nodeData => (fst (fst nodeData), snd nodeData))
           (List.filter (fun nodeData => keepsBox brush radius pcOffset
                                           (snd (fst nodeData))) nodes),
         length (List.filter (fun nodeData =>
                                negb (keepsBox brush radius pcOffset
                                        (snd (fst nodeData)))) nodes))
      /\ (length (fst (flatPass brush radius pcOffset nodes))
          + snd (flatPass brush radius pcOffset nodes)
          = length nodes)%nat)
  /\ (forall v : Viewer,
         flatPass brush radius pcOffset (getLoadedNodes v)
         = (map (fun nodeData => (fst (fst nodeData), snd nodeData))
              (getLoadedNodes v), 0%nat)
         /\ length (fst (flatPass brush radius pcOffset (getLoadedNodes v)))
            = size (potreeNodes v)).
Proof.
  assert (forall nodes : list (A * option box3 * string),
             flatPass brush radius pcOffset nodes
             = (map (fun nodeData => (fst (fst nodeData), snd nodeData))
                  (List.filter (fun nodeData =>
                                  keepsBox brush radius pcOffset
                                    (snd (fst nodeData))) nodes),
                length (List.filter (fun nodeData =>
                                       negb (keepsBox brush radius pcOffset
                                               (snd (fst nodeData)))) nodes)))
    as Hflat.
  { intros nodes. unfold flatPass. rewrite flat_fold. reflexivity. }
  split.
  - intros nodes. split; [apply Hflat|].
    rewrite Hflat. cbn [fst snd]. rewrite length_map.
    induction nodes as [|nodeData nodes IH]; [reflexivity|].
    cbn [List.filter]. destruct (keepsBox _ _ _ _); cbn [negb length]; lia.
  - intros v.
    assert (forall nodes : list (pointsObj * option box3 * string),
               Forall (fun nodeData => snd (fst nodeData) = None) nodes ->
               flatPass brush radius pcOffset nodes
               = (map (fun nodeData => (fst (fst nodeData), snd nodeData))
                    nodes, 0%nat)) as Hnone.
    { intros nodes Hnodes. unfold flatPass. rewrite flat_fold.
      cbn [fst snd app]. f_equal.
      - f_equal. induction Hnodes as [|nodeData nodes Hbox _ IH];
          [reflexivity|].
        cbn [List.filter]. rewrite Hbox, IH. reflexivity.
      - induction Hnodes as [|nodeData nodes Hbox _ IH]; [reflexivity|].
        cbn [List.filter]. rewrite Hbox. exact IH. }
    assert (Forall (fun nodeData : pointsObj * option box3 * string =>
                      snd (fst nodeData) = None) (getLoadedNodes v)) as Hall.
    { unfold getLoadedNodes. apply Forall_fmap, Forall_forall.
      intros entry _. reflexivity. }
    split; [apply Hnone, Hall|].
    rewrite (Hnone _ Hall). cbn [fst]. rewrite length_map.
    unfold getLoadedNodes. rewrite length_fmap.
    apply length_map_to_list.
Qed.

(* ------------------------------------------------------------------ *)
(** ** Visibility updates, composed *)

(** X23.  [updatePotreeNodeVisibility]: a second call overrides the first
    (so calling it twice with the same depth is calling it once); a node
    shown for a depth is shown for every greater depth; and a call changes
    no position, colour, original or deleted mark of any node, removes no
    node and adds none. *)
Theorem visibility_update_composes (v : Viewer) (d1 d2 : Z) :
  updatePotreeNodeVisibility d2 (updatePotreeNodeVisibility d1 v)
  = updatePotreeNodeVisibility d2 v
  /\ (d1 <= d2 ->
      forall (name : string) (node1 node2 : pointsObj),
        potreeNodes (updatePotreeNodeVisibility d1 v) !! name = Some node1 ->
        potreeNodes (updatePotreeNodeVisibility d2 v) !! name = Some node2 ->
        visible node1 = true -> visible node2 = true)
  /\ (forall name : string,
         (position <$> potreeNodes (updatePotreeNodeVisibility d1 v) !! name
          = position <$> potreeNodes v !! name)
         /\ (color <$> potreeNodes (updatePotreeNodeVisibility d1 v) !! name
             = color <$> potreeNodes v !! name)
         /\ (deletedPoints
               <$> potreeNodes (updatePotreeNodeVisibility d1 v) !! name
             = deletedPoints <$> potreeNodes v !! name)
         /\ (originalPositions
               <$> potreeNodes (updatePotreeNodeVisibility d1 v) !! name
             = originalPositions <$> potreeNodes v !! name)).
Proof.
  split; [|split].
  - apply viewer_eq; try reflexivity.
    apply map_eq. intros name. rewrite !visibility_lookup.
    destruct (potreeNodes v !! name); reflexivity.
  - intros Hd name node1 node2 H1 H2 Hvis.
    apply (visibility_update d1 v name node1 H1) in Hvis.
    apply (visibility_update d2 v name node2 H2). lia.
  - intros name. rewrite visibility_lookup.
    destruct (potreeNodes v !! name); auto.
Qed.

Lemma visibility_update_composes_witness :
  0 <= 1
  /\ updatePotreeNodeVisibility 1
       (updatePotreeNodeVisibility 0 viewerAtDepth1)
     = updatePotreeNodeVisibility 1 viewerAtDepth1.
Proof.
  split; [lia|].
  exact (proj1 (visibility_update_composes viewerAtDepth1 0 1)).
Defined.

(* ------------------------------------------------------------------ *)
(** ** The brush at the edges *)

Section BrushEdges.

Lemma le_trans_finite (x : num) (a b : Q) :
  le x (Finite a) = true -> (a <= b)%Q -> le x (Finite b) = true.
Proof.
  destruct x as [q| | |]; cbn; try discriminate; try reflexivity.
  intros H1 H2. apply Qle_bool_iff in H1. apply Qle_bool_iff. lra.
Qed.

Lemma add_NaN_r (x : num) : add x NaN = NaN.
Proof. destruct x; reflexivity. Qed.

End BrushEdges.

(** X24.  [paintSelection] with two radii between which nothing else
    differs: a sphere of greater radius (both radii not negative)
    contains every point the smaller one contains, so the greater brush
    selects at least the points the smaller one selects. *)
Theorem larger_brush_selects_more (v : Viewer) (m : SelectionManager)
    (r1 r2 : Q) (name : string) :
  (0 <= r1)%Q -> (r1 <= r2)%Q ->
  selectedIn
    (selectedPoints (paintSelection v (with_brushRadius (Finite r1) m))) name
  ⊆ selectedIn
      (selectedPoints (paintSelection v (with_brushRadius (Finite r2) m)))
      name.
Proof.
  intros H0 H12. rewrite !paintSelection_exact. cbn [selectedPoints
    with_brushRadius]. unfold brushedIn.
  cbn [brushPosition brushRadius with_brushRadius].
  destruct (potreeNodes v !! name) as [node|]; [|set_solver].
  intros i Hi. apply elem_of_union in Hi as [Hi|Hi];
    [apply elem_of_union_l, Hi|apply elem_of_union_r].
  apply brushed_spec in Hi as [Hlt Hc]. apply brushed_spec.
  split; [exact Hlt|].
  unfold containsPoint in *. cbn [mul] in *.
  apply (le_trans_finite _ (r1 * r1)%Q); [exact Hc|].
  apply Qsq_le. lra.
Qed.

Lemma larger_brush_selects_more_witness :
  (0 <= 1)%Q /\ (1 <= 2)%Q
  /\ selectedIn
       (selectedPoints
          (paintSelection (fst rootSelected)
             (with_brushRadius (Finite 1) (snd rootSelected)))) "r"
     ⊆ selectedIn
         (selectedPoints
            (paintSelection (fst rootSelected)
               (with_brushRadius (Finite 2) (snd rootSelected)))) "r".
Proof.
  assert (0 <= 1)%Q as H1 by (vm_compute; discriminate).
  assert (1 <= 2)%Q as H2 by (vm_compute; discriminate).
  split; [exact H1|]. split; [exact H2|].
  exact (larger_brush_selects_more (fst rootSelected) (snd rootSelected)
           1 2 "r" H1 H2).
Defined.

(** X25.  Points out of reach.  A point whose x and z coordinates are
    Infinity or not a number, as a deleted point's are, is neither
    highlighted nor drawn as shadow by the overlay, for every brush
    position and finite radius.  And when the position array of a node
    does not hold all three coordinates of point [i] (its length is not a
    multiple of 3 and [i] is the partial last point the loop still
    visits), [paintSelection] does not select [i]. *)
Theorem out_of_reach :
  (forall (brush : vec3) (radius : num) (p : vec3),
      is_finite radius = true ->
      unbounded (vx p) = true -> unbounded (vz p) = true ->
      classifyPoint brush radius p = NoOverlay)
  /\ (forall (center : vec3) (radius : num) (offset : vec3)
             (node : pointsObj) (i : nat),
         (length (position node) < i * 3 + 3)%nat ->
         containsPoint center radius (worldPoint offset node i) = false)
  /\ (forall (v : Viewer) (m : SelectionManager) (name : string)
             (node : pointsObj) (i : nat),
         potreeNodes v !! name = Some node ->
         i ∈ brushedIn v m name ->
         (i * 3 + 3 <= length (position node))%nat).
Proof.
  assert (forall (center : vec3) (radius : num) (offset : vec3)
                 (node : pointsObj) (i : nat),
             (length (position node) < i * 3 + 3)%nat ->
             containsPoint center radius (worldPoint offset node i) = false)
    as Hpartial.
  { intros center radius offset node i Hlen.
    unfold containsPoint, distanceToSquared, worldPoint. cbn [vx vy vz].
    assert (read (position node) (i * 3 + 2) = NaN) as ->.
    { unfold read. rewrite lookup_ge_None_2 by lia. reflexivity. }
    assert (forall x y : num, ((NaN + x - y) * (NaN + x - y))%num = NaN) as E.
    { intros x y. destruct x, y; reflexivity. }
    rewrite E, add_NaN_r. reflexivity. }
  split; [|split; [exact Hpartial|]].
  - intros brush radius p Hr Hx Hz. unfold classifyPoint. cbv zeta.
    destruct radius as [r| | |]; try discriminate Hr. cbn [mul].
    pose proof (unbounded_square _ (unbounded_sub (vx p) (vx brush) Hx)) as Hxx.
    assert (lt (vz p) (vz brush) = false) as Ez.
    { destruct (vz p); try discriminate Hz; destruct (vz brush); reflexivity. }
    rewrite Ez.
    destruct ((vx p - vx brush) * (vx p - vx brush))%num as [q| | |] eqn:Ex;
      try discriminate Hxx;
      destruct ((vy p - vy brush) * (vy p - vy brush))%num;
      try reflexivity;
      destruct ((vz p - vz brush) * (vz p - vz brush))%num; reflexivity.
  - intros v m name node i Hnode Hi. unfold brushedIn in Hi.
    rewrite Hnode in Hi. apply brushed_spec in Hi as [_ Hc].
    destruct (le_lt_dec (i * 3 + 3) (length (position node))) as [H|H];
      [exact H|].
    rewrite Hpartial in Hc by exact H. discriminate Hc.
Qed.

Lemma out_of_reach_witness :
  is_finite (Finite 1) = true
  /\ unbounded PosInf = true
  /\ classifyPoint (fvec 0 0 0) (Finite 1) (Vec3 PosInf PosInf PosInf)
     = NoOverlay.
Proof.
  split; [reflexivity|]. split; [reflexivity|].
  exact (proj1 out_of_reach (fvec 0 0 0) (Finite 1)
           (Vec3 PosInf PosInf PosInf) eq_refl eq_refl eq_refl).
Defined.

(* ------------------------------------------------------------------ *)
(** ** Loads and visibility, in either order *)

Section Commute.

Variable fetch : string -> response.

Lemma visible_installed (d : Z) (name : string) (vertices colors : list num)
    (v : Viewer) :
  depthOf name <= d ->
  updatePotreeNodeVisibility d (installNode name vertices colors v)
  = installNode name vertices colors (updatePotreeNodeVisibility d v).
Proof.
  intros Hd. apply viewer_eq; try reflexivity.
  unfold updatePotreeNodeVisibility, with_nodes, installNode.
  cbn [potreeNodes hasSelectionManager].
  erewrite map_imap_insert_Some; [reflexivity|].
  replace (depthOf name <=? d) with true by (symmetry; apply Z.leb_le, Hd).
  destruct (hasSelectionManager v); reflexivity.
Qed.

Lemma visible_loaded (d : Z) (name : string) (v : Viewer) :
  depthOf name <= d ->
  updatePotreeNodeVisibility d (loadPotreeNodeIfExists fetch name v)
  = loadPotreeNodeIfExists fetch name (updatePotreeNodeVisibility d v).
Proof.
  intros Hd. unfold loadPotreeNodeIfExists.
  cbn [updatePotreeNodeVisibility with_nodes potreeLoadedNodes potreeLoading
       potreeFailedNodes].
  case_decide as H; [reflexivity|].
  unfold tryLoad. destruct (fetch name) as [| |buffer]; cbn [bind];
    try reflexivity.
  cbn [startLoading potreeMetadata updatePotreeNodeVisibility with_nodes
       potreeOffset].
  destruct (potreeMetadata v) as [md|]; cbn [bind]; [|reflexivity].
  destruct (getNodeBoundingBox (Some md) name) as [box|]; cbn [bind];
    [|reflexivity].
  destruct (readPoints buffer (scale md) box (potreeOffset v)) as [arrays|];
    cbn [bind]; [|reflexivity].
  apply (visible_installed d name (fst arrays) (snd arrays)
           (startLoading name v) Hd).
Qed.

Lemma visible_loaded_all (d : Z) (names : list string) (v : Viewer) :
  Forall (fun name => depthOf name <= d) names ->
  updatePotreeNodeVisibility d
    (fold_left (fun v name => loadPotreeNodeIfExists fetch name v) names v)
  = fold_left (fun v name => loadPotreeNodeIfExists fetch name v) names
      (updatePotreeNodeVisibility d v).
Proof.
  intros Hnames. revert v.
  induction Hnames as [|name names Hname _ IH]; intros v; [reflexivity|].
  cbn [fold_left]. rewrite IH, visible_loaded by exact Hname. reflexivity.
Qed.

End Commute.

(** X26.  [updatePotreeNodeVisibility] and [loadPotreeNodeIfExists]
    commute for a node that is not deeper than the depth shown (a new
    object is visible from the start).  So [performPotreeLODUpdate], which
    starts its loads without awaiting them, reaches the same state whether
    the loads complete before its visibility update or after it. *)
Theorem lod_update_order (fetch : string -> response) :
  (forall (d : Z) (name : string) (v : Viewer),
      depthOf name <= d ->
      updatePotreeNodeVisibility d (loadPotreeNodeIfExists fetch name v)
      = loadPotreeNodeIfExists fetch name (updatePotreeNodeVisibility d v))
  /\ (forall (distance : num) (v : Viewer) (md : metadata),
         potreeMetadata v = Some md ->
         performPotreeLODUpdate fetch distance v
         = Normal
             (fold_left (fun v name => loadPotreeNodeIfExists fetch name v)
                (getPotreeNodesToLoad (maxDepthFor distance))
                (updatePotreeNodeVisibility (maxDepthFor distance) v))).
Proof.
  split.
  - intros d name v Hd. apply visible_loaded, Hd.
  - intros distance v md Hmd.
    rewrite (perform_unfold fetch distance v md Hmd). f_equal.
    apply visible_loaded_all. apply Forall_forall. intros name Hname.
    pose proof (maxDepthFor_range distance) as Hr.
    unfold getPotreeNodesToLoad in Hname.
    replace (Z.to_nat (maxDepthFor distance + 1))
      with (S (Z.to_nat (maxDepthFor distance))) in Hname by lia.
    rewrite generateChildren_succ in Hname.
    apply list_elem_of_In, generateNodes_In in Hname.
    destruct Hname as (path & Hlen & _ & ->).
    change ("r" ++ string_of_list_ascii (map digit_char path))%string
      with (nodeNameOf path).
    rewrite nodeName_depth. lia.
Qed.

Lemma lod_update_order_witness :
  depthOf "r" <= 2
  /\ updatePotreeNodeVisibility 2
       (loadPotreeNodeIfExists rootOnly "r" (freshViewer unitMetadata))
     = loadPotreeNodeIfExists rootOnly "r"
         (updatePotreeNodeVisibility 2 (freshViewer unitMetadata)).
Proof.
  assert (depthOf "r" <= 2) as H by (vm_compute; discriminate).
  split; [exact H|].
  exact (proj1 (lod_update_order rootOnly) 2 "r"%string
           (freshViewer unitMetadata) H).
Defined.
